(** * Image sonifier: the audio core of [services/audioUtils.ts]

    A shallow embedding of the numeric functions of the audio core
    ([generateAudioFromImage], [analyzeImageForAudioSettings],
    [fft_radix2], [computeSpectrogramData], [encodeWAV]) and the
    properties the specification states about them.
    The code around them is embedded as well: the luminance extractor
    [imageToGrayscaleArray], the handlers of [App.tsx] and the two views of
    [AudioVisualizer].  What the browser does there (decoding and scaling an
    image into RGBA bytes, painting a canvas) is not modelled: the bytes are
    a parameter, and a view is the list of drawing commands it issues.

    Outcomes.  A call either returns a value, throws (a RangeError of an
    allocation or a store, a TypeError of a read through [undefined]) or
    does not terminate: the type [outcome].  A promise that resolves is a
    return, one that rejects is a throw.

    Numbers.  A JavaScript [number] is modelled by [num]: a real number or
    one of the three IEEE special values.  The special values follow the
    IEEE rules the program depends on: [0/0] is [NaN], [x/0] is an infinity,
    every comparison with [NaN] is false; the sign of zero is not tracked (a
    zero divisor behaves as [+0]).

    Rounding.  [round64] and [round32] round a real to the nearest binary64
    and binary32 number, ties to even, subnormal numbers included; [fl64]
    and [Math_fround] do the same on [num] and overflow to an infinity.
    They are applied where the rounding decides a count or crosses a
    format: the product whose floor is the number of samples of a column,
    the quotients behind the image width and the column duration in
    [App.tsx], each store into the [Float32Array] of the signal and the
    division of the normalization pass.  The arithmetic that computes one
    sample, one statistic of the advisor, one bin of the transform or one
    coordinate of a view is exact: there the program differs from the model
    in the last bits of a value, and [Math.sin] of a multiple of pi is
    exactly 0 here where a browser returns a number near [1e-16].

    Allocation.  [new Float32Array(n)] throws a RangeError when [n] is
    negative, above [2^53 - 1], or above what the engine allocates; that
    last limit is the parameter [limit] of the synthesis engine. *)

From Stdlib Require Import Reals Lra Lia ZArith List Zfloor String Ascii.
From stdpp Require Import base list.
From Equations Require Import Equations.
Import ListNotations.

(** ** JavaScript numbers *)

Inductive num : Type :=
  | Fin (x : R)
  | PInf
  | NInf
  | NaN.

Inductive outcome (A : Type) : Type :=
  | Returns (a : A)
  | Throws
  | Diverges.
Arguments Returns {A} a.
Arguments Throws {A}.
Arguments Diverges {A}.

#[global] Instance outcome_bind : MBind outcome := fun A B k m =>
  match m with
  | Returns a => k a
  | Throws => Throws
  | Diverges => Diverges
  end.

#[global] Instance outcome_ret : MRet outcome := fun A a => Returns a.

Section Numbers.
Local Open Scope R_scope.

Definition of_nat (n : nat) : num := Fin (INR n).
Definition of_Z (z : Z) : num := Fin (IZR z).

(** [x * Infinity] for a finite [x]. *)
Definition signed_inf (x : R) : num :=
  if Rlt_dec 0 x then PInf else if Rlt_dec x 0 then NInf else NaN.

Definition jneg (a : num) : num :=
  match a with
  | Fin x => Fin (- x)
  | PInf => NInf
  | NInf => PInf
  | NaN => NaN
  end.

Definition jadd (a b : num) : num :=
  match a, b with
  | NaN, _ | _, NaN => NaN
  | Fin x, Fin y => Fin (x + y)
  | PInf, NInf | NInf, PInf => NaN
  | PInf, _ | _, PInf => PInf
  | NInf, _ | _, NInf => NInf
  end.

Definition jsub (a b : num) : num := jadd a (jneg b).

Definition jmul (a b : num) : num :=
  match a, b with
  | NaN, _ | _, NaN => NaN
  | Fin x, Fin y => Fin (x * y)
  | Fin x, PInf | PInf, Fin x => signed_inf x
  | Fin x, NInf | NInf, Fin x => signed_inf (- x)
  | PInf, PInf | NInf, NInf => PInf
  | PInf, NInf | NInf, PInf => NInf
  end.

Definition jdiv (a b : num) : num :=
  match a, b with
  | NaN, _ | _, NaN => NaN
  | Fin x, Fin y => if Req_dec_T y 0 then signed_inf x else Fin (x / y)
  | Fin _, _ => Fin 0
  | PInf, Fin y => if Rle_dec 0 y then PInf else NInf
  | NInf, Fin y => if Rle_dec 0 y then NInf else PInf
  | _, _ => NaN
  end.

(** [a < b]; false as soon as one side is [NaN]. *)
Definition jlt (a b : num) : bool :=
  match a, b with
  | NaN, _ | _, NaN => false
  | Fin x, Fin y => if Rlt_dec x y then true else false
  | NInf, NInf | PInf, _ => false
  | NInf, _ => true
  | Fin _, PInf => true
  | Fin _, NInf => false
  end.

Definition jgt (a b : num) : bool := jlt b a.

(** [a >= b]. *)
Definition jge (a b : num) : bool :=
  match a, b with
  | NaN, _ | _, NaN => false
  | Fin x, Fin y => if Rle_dec y x then true else false
  | PInf, _ | _, NInf => true
  | _, _ => false
  end.

Definition Math_abs (a : num) : num :=
  match a with
  | Fin x => Fin (Rabs x)
  | PInf | NInf => PInf
  | NaN => NaN
  end.

Definition Math_floor (a : num) : num :=
  match a with
  | Fin x => Fin (IZR (Zfloor x))
  | other => other
  end.

Definition Math_sin (a : num) : num :=
  match a with
  | Fin x => Fin (sin x)
  | _ => NaN
  end.

Definition Math_cos (a : num) : num :=
  match a with
  | Fin x => Fin (cos x)
  | _ => NaN
  end.

Definition Math_asin (a : num) : num :=
  match a with
  | Fin x => if Rle_dec (Rabs x) 1 then Fin (asin x) else NaN
  | _ => NaN
  end.

Definition Math_sqrt (a : num) : num :=
  match a with
  | Fin x => if Rle_dec 0 x then Fin (sqrt x) else NaN
  | PInf => PInf
  | _ => NaN
  end.

Definition Math_log10 (a : num) : num :=
  match a with
  | Fin x =>
      if Rlt_dec 0 x then Fin (ln x / ln 10)
      else if Req_dec_T x 0 then NInf else NaN
  | PInf => PInf
  | _ => NaN
  end.

Definition Math_max (a b : num) : num :=
  match a, b with
  | NaN, _ | _, NaN => NaN
  | _, _ => if jlt a b then b else a
  end.

Definition Math_min (a b : num) : num :=
  match a, b with
  | NaN, _ | _, NaN => NaN
  | _, _ => if jlt b a then b else a
  end.

(** Truncation toward zero (ToIntegerOrInfinity on a finite value). *)
Definition Ztrunc (x : R) : Z :=
  if Rle_dec 0 x then Zfloor x else Zceil x.

(** Number of iterations of [for (let i = 0; i < bound; i++)]; [None] when
    the bound is [+Infinity] and the loop never ends. *)
Definition trip_count (bound : num) : option nat :=
  match bound with
  | Fin x => Some (Z.to_nat (Zceil x))
  | PInf => None
  | NInf | NaN => Some 0%nat
  end.

(** The largest length [new Float32Array] accepts when the engine allocates
    up to [limit] elements: ToIndex refuses every length above [2^53 - 1]. *)
Definition maxLength (limit : Z) : Z := Z.min limit (2 ^ 53 - 1).

Arguments maxLength : simpl never.

(** [new Float32Array(len)]: ToIndex truncates, [NaN] counts as 0, a
    negative or infinite length and a length above [maxLength limit] are a
    RangeError. *)
Definition newFloat32Array (limit : Z) (len : num) : outcome (list num) :=
  match len with
  | Fin x =>
      if Z_lt_dec (Ztrunc x) 0 then Throws
      else if Z_lt_dec (maxLength limit) (Ztrunc x) then Throws
      else Returns (repeat (Fin 0) (Z.to_nat (Ztrunc x)))
  | NaN => Returns []
  | PInf | NInf => Throws
  end.

End Numbers.

(** ** Binary floating point *)

Section Binary.
Local Open Scope R_scope.

(** The nearest integer, a tie going to the even one. *)
Definition rne (x : R) : Z :=
  let f := Zfloor x in
  if Rlt_dec (x - IZR f) (1 / 2) then f
  else if Rlt_dec (1 / 2) (x - IZR f) then (f + 1)%Z
  else if Z.even f then f else (f + 1)%Z.

(** The exponent of the binade of [x], [floor(log2 |x|)], and [emin] for the
    subnormal numbers. *)
Definition binade (emin : Z) (x : R) : Z :=
  Z.max emin (Zfloor (ln (Rabs x) / ln 2)).

(** [x] rounded to the nearest number with [prec] significant bits and an
    exponent of at least [emin], ties to even; no upper limit. *)
Definition roundR (prec emin : Z) (x : R) : R :=
  let ulp := powerRZ 2 (binade emin x - prec + 1) in
  IZR (rne (x / ulp)) * ulp.

(** The same in a format that overflows to an infinity at [2 ^ emax]. *)
Definition roundNum (prec emin emax : Z) (a : num) : num :=
  match a with
  | Fin x =>
      let y := roundR prec emin x in
      if Rle_dec (powerRZ 2 emax) (Rabs y)
      then if Rlt_dec 0 x then PInf else NInf
      else Fin y
  | other => other
  end.

(** binary64, the format of a [number], and binary32, the format of the
    elements of a [Float32Array]. *)
Definition round64 : R -> R := roundR 53 (-1022).
Definition round32 : R -> R := roundR 24 (-126).

(** The result of an arithmetic operation whose exact value is [a]. *)
Definition fl64 : num -> num := roundNum 53 (-1022) 1024.

(** The value an element of a [Float32Array] takes when [a] is stored in
    it, which is [Math.fround(a)]. *)
Definition Math_fround : num -> num := roundNum 24 (-126) 128.

End Binary.

(** ** The synthesis engine: [generateAudioFromImage] *)

Inductive waveShape : Type :=
  | ws_sin
  | ws_square
  | ws_sawtooth
  | ws_triangle.

Section Synthesis.
Local Open Scope R_scope.

(** [Array.from({ length: height }, (_, i) =>
       maxFreq - (i / (height - 1)) * (maxFreq - minFreq))] *)
Definition freqs (height : nat) (minFreq maxFreq : num) : list num :=
  map (fun i : nat =>
         jsub maxFreq
              (jmul (jdiv (of_nat i) (jsub (of_nat height) (Fin 1)))
                    (jsub maxFreq minFreq)))
      (seq 0 height).

(** The body of the [switch (waveShape)]. *)
Definition waveSample (w : waveShape) (freq time : num) : num :=
  let phase := jmul (jmul (jmul (Fin 2) (Fin PI)) freq) time in
  match w with
  | ws_square => if jge (Math_sin phase) (Fin 0) then Fin 1 else Fin (- 1)
  | ws_sawtooth =>
      let phaseNormalized := jmul time freq in
      jmul (Fin 2)
           (jsub phaseNormalized
                 (Math_floor (jadd phaseNormalized (Fin (1 / 2)))))
  | ws_triangle => jmul (jdiv (Fin 2) (Fin PI)) (Math_asin (Math_sin phase))
  | ws_sin => Math_sin phase
  end.

(** [imageArray[row][col]]; [None] is [undefined] (a short row). *)
Definition cell (imageArray : list (list num)) (row col : nat) : option num :=
  match imageArray !! row with
  | Some r => r !! col
  | None => None
  end.

(** One pass of the [for (let row ...)] loop. *)
Definition rowStep (imageArray : list (list num)) (fr : list num)
    (w : waveShape) (time : num) (col : nat) (sample : num) (row : nat) : num :=
  match cell imageArray row col with
  | Some amplitude =>
      if jgt amplitude (Fin 0) then
        let freq := default NaN (fr !! row) in
        jadd sample (jmul amplitude (waveSample w freq time))
      else sample
  | None => sample
  end.

(** The value of [sample] after the row loop, for column [col] and sample
    index [t_idx]. *)
Definition sampleAt (imageArray : list (list num)) (fr : list num)
    (sampleRate : num) (w : waveShape) (height col t_idx : nat) : num :=
  let time := jdiv (of_nat t_idx) sampleRate in
  fold_left (rowStep imageArray fr w time col) (seq 0 height) (Fin 0).

Record synthState : Type := mkSynth {
  audio : list num;
  maxAmplitude : num
}.

(** One pass of the [for (let t_idx ...)] loop: store the sample, which
    rounds it to binary32, and track the peak of the samples as computed.  A
    typed array ignores a store past its end, as [<[_:=_]>] does. *)
Definition sampleStep (imageArray : list (list num)) (fr : list num)
    (sampleRate : num) (w : waveShape) (height samplesPerColumn col : nat)
    (st : synthState) (t_idx : nat) : synthState :=
  let sample := sampleAt imageArray fr sampleRate w height col t_idx in
  let audioIndex := (col * samplesPerColumn + t_idx)%nat in
  {| audio := <[audioIndex := Math_fround sample]> (audio st);
     maxAmplitude :=
       if jgt (Math_abs sample) (maxAmplitude st) then Math_abs sample
       else maxAmplitude st |}.

Definition columnStep (imageArray : list (list num)) (fr : list num)
    (sampleRate : num) (w : waveShape) (height samplesPerColumn : nat)
    (st : synthState) (col : nat) : synthState :=
  fold_left (sampleStep imageArray fr sampleRate w height samplesPerColumn col)
            (seq 0 samplesPerColumn) st.

(** The final [if (maxAmplitude > 0)] pass: [audio[i] /= maxAmplitude]
    divides in binary64 and stores the quotient in binary32. *)
Definition normalize (st : synthState) : list num :=
  if jgt (maxAmplitude st) (Fin 0)
  then map (fun s => Math_fround (fl64 (jdiv s (maxAmplitude st)))) (audio st)
  else audio st.

(** The state after the two nested loops, before normalization.  It is
    reached with at least one row and one column, so that an infinite
    [samplesPerColumn] has already made the allocation throw.
    [samplesPerColumn] is the floor of the binary64 product.  The length
    [samplesPerColumn * width] is a product of whole numbers: it is exact
    below [2^53], and from there on the allocation throws whether it is
    rounded or not. *)
Definition synthesize (limit : Z) (imageArray : list (list num))
    (sampleRate durationPerColumn minFreq maxFreq : num) (w : waveShape)
    : outcome synthState :=
  let height := length imageArray in
  let width := length (default [] (imageArray !! 0%nat)) in
  let samplesPerColumn := Math_floor (fl64 (jmul sampleRate durationPerColumn)) in
  let totalSamples := jmul samplesPerColumn (of_nat width) in
  audio0 ← newFloat32Array limit totalSamples;
  let fr := freqs height minFreq maxFreq in
  match trip_count samplesPerColumn with
  | None => Diverges
  | Some n =>
      Returns (fold_left (columnStep imageArray fr sampleRate w height n)
                         (seq 0 width)
                         {| audio := audio0; maxAmplitude := Fin 0 |})
  end.

(** [limit] is the largest number of elements the engine allocates for a
    typed array. *)
Definition generateAudioFromImage (limit : Z) (imageArray : list (list num))
    (sampleRate durationPerColumn minFreq maxFreq : num) (w : waveShape)
    : outcome (list num) :=
  let height := length imageArray in
  let width := length (default [] (imageArray !! 0%nat)) in
  if decide (width = 0%nat \/ height = 0%nat) then Returns []
  else
    st ← synthesize limit imageArray sampleRate durationPerColumn
                    minFreq maxFreq w;
    Returns (normalize st).

End Synthesis.

(** ** The parameter advisor: [analyzeImageForAudioSettings] *)

Record settingsPatch : Type := mkPatch {
  duration : num;
  minFreq : num;
  maxFreq : num
}.

Section Advisor.
Local Open Scope R_scope.

(** [Math.pow(a, 2)] *)
Definition Math_pow2 (a : num) : num := jmul a a.

(** The integer [n] that [toFixed] picks: nearest, ties away from zero. *)
Definition round_half_away (x : R) : Z :=
  if Rle_dec 0 x then Zfloor (x + 1 / 2) else (- Zfloor (- x + 1 / 2))%Z.

(** [parseFloat(a.toFixed(1))].  From [1e21] on [toFixed] prints the number
    itself and [parseFloat] reads it back. *)
Definition toFixed1_parseFloat (a : num) : num :=
  match a with
  | Fin x =>
      if Rlt_dec (Rabs x) (10 ^ 21)
      then Fin (IZR (round_half_away (x * 10)) / 10)
      else Fin x
  | other => other
  end.

(** [parseInt(a.toFixed(0))].  From [1e21] on [toFixed] prints exponent
    notation, of which [parseInt] reads the leading digit; ["Infinity"] and
    ["NaN"] parse to [NaN]. *)
Definition toFixed0_parseInt (a : num) : num :=
  match a with
  | Fin x =>
      if Rlt_dec (Rabs x) (10 ^ 21)
      then Fin (IZR (round_half_away x))
      else
        let e := Zfloor (ln (Rabs x) / ln 10) in
        let d := Zfloor (Rabs x / powerRZ 10 e) in
        Fin (IZR (if Rle_dec 0 x then d else - d))
  | _ => NaN
  end.

(** [None] is the empty patch [{}]. *)
Definition analyzeImageForAudioSettings (imageArray : list (list num))
    : option settingsPatch :=
  let height := length imageArray in
  if decide (height = 0%nat \/
             length (default [] (imageArray !! 0%nat)) = 0%nat)
  then None
  else
    let flatValues := concat imageArray in
    let sum := fold_left (fun a b => jadd a b) flatValues (Fin 0) in
    let brightness := jdiv sum (of_nat (length flatValues)) in
    let mean := brightness in
    let variance :=
      jdiv (fold_left (fun a b => jadd a (Math_pow2 (jsub b mean)))
                      flatValues (Fin 0))
           (of_nat (length flatValues)) in
    let contrast := Math_sqrt variance in
    let duration := jadd (Fin 3) (jmul brightness (Fin 9)) in
    let freqRange := jadd (Fin 2000) (jmul contrast (Fin 30000)) in
    let minFreq :=
      Math_max (Fin 20) (jsub (Fin 400) (jmul contrast (Fin 700))) in
    let maxFreq := Math_min (Fin 20000) (jadd minFreq freqRange) in
    Some {| duration := toFixed1_parseFloat duration;
            minFreq := toFixed0_parseInt minFreq;
            maxFreq := toFixed0_parseInt maxFreq |}.

End Advisor.

(** ** The spectrogram analyzer: [fft_radix2], [computeSpectrogramData] *)

Record Complex : Type := mkComplex {
  re : num;
  im : num
}.

(** [x.filter((_, i) => i % 2 === 0)] and [x.filter((_, i) => i % 2 !== 0)] *)
Fixpoint evens {A : Type} (l : list A) : list A :=
  match l with
  | a :: _ :: t => a :: evens t
  | other => other
  end.

Fixpoint odds {A : Type} (l : list A) : list A :=
  match l with
  | _ :: b :: t => b :: odds t
  | _ => []
  end.

Section Spectrogram.
Local Open Scope R_scope.

(** One pass of the butterfly loop: the pair [(result[k], result[k + N/2])].
    Reading [.re] of a missing [odd[k]] or [even[k]] is a TypeError. *)
Definition butterflyAt (N : nat) (even odd : list Complex) (k : nat)
    : option (Complex * Complex) :=
  match odd !! k, even !! k with
  | Some o, Some e =>
      let angle :=
        jdiv (jmul (jmul (Fin (- 2)) (Fin PI)) (of_nat k)) (of_nat N) in
      let t :=
        {| re := jsub (jmul (Math_cos angle) (re o))
                      (jmul (Math_sin angle) (im o));
           im := jadd (jmul (Math_cos angle) (im o))
                      (jmul (Math_sin angle) (re o)) |} in
      Some ({| re := jadd (re e) (re t); im := jadd (im e) (im t) |},
            {| re := jsub (re e) (re t); im := jsub (im e) (im t) |})
  | _, _ => None
  end.

(** The loop [for (let k = 0; k < N / 2; k++)]: it runs for
    [k = 0 .. ceil(N/2) - 1], filling [result] at [k] and [k + N/2]. *)
Definition butterfly (N : nat) (even odd : list Complex)
    : outcome (list Complex) :=
  match mapM (butterflyAt N even odd) (seq 0 (Nat.div2 (S N))) with
  | Some pairs => Returns (map fst pairs ++ map snd pairs)
  | None => Throws
  end.

End Spectrogram.

Equations? fft_radix2 (x : list Complex) : outcome (list Complex)
  by wf (length x) lt :=
fft_radix2 x with le_dec (length x) 1 := {
  | left _ => Returns x
  | right _ =>
      even ← fft_radix2 (evens x);
      odd ← fft_radix2 (odds x);
      butterfly (length x) even odd }.
Proof.
  all: assert (Hlen : forall (fuel : nat) (l : list Complex),
           (length l <= fuel)%nat ->
           (length (evens l) <= length l)%nat /\
           (length (odds l) <= length l)%nat)
    by (induction fuel as [|fuel IHn]; intros [|a [|b t]]; simpl; intros Hl;
        try lia; destruct (IHn t) as [? ?]; [lia|lia]).
  all: destruct x as [|a [|b t]]; simpl in *; try lia.
  all: destruct (Hlen (length t) t) as [? ?]; [lia|lia].
Qed.

Record spectrogramData : Type := mkSpectrogram {
  sg_data : list (list num);
  sg_freqs : list num;
  sg_times : list num
}.

Section SpectrogramData.
Local Open Scope R_scope.

(** The Hann window: [window[i] = 0.5 * (1 - cos(2 * PI * i / (fftSize - 1)))]. *)
Definition hannWindow (fftSize : nat) : list num :=
  map (fun i : nat =>
         jmul (Fin (1 / 2))
              (jsub (Fin 1)
                    (Math_cos (jdiv (jmul (jmul (Fin 2) (Fin PI)) (of_nat i))
                                    (jsub (of_nat fftSize) (Fin 1))))))
      (seq 0 fftSize).

(** The body of the frame loop for frame [i]: [None] is the [continue] of a
    short frame, otherwise the dB row and the time label that are pushed. *)
Definition frameAt (audioBuffer window : list num) (fftSize hopLength i : nat)
    : outcome (option (list num * num)) :=
  let start := (i * hopLength)%nat in
  let frame := take fftSize (drop start audioBuffer) in
  if decide (length frame < fftSize)%nat then Returns None
  else
    let windowedFrame :=
      map (fun j : nat =>
             {| re := jmul (default NaN (frame !! j)) (default NaN (window !! j));
                im := Fin 0 |})
          (seq 0 fftSize) in
    fftResult ← fft_radix2 windowedFrame;
    let magnitudes :=
      map (fun c => Math_sqrt (jadd (jmul (re c) (re c)) (jmul (im c) (im c))))
          (take (fftSize / 2)%nat fftResult) in
    let dbMagnitudes :=
      map (fun mag => jmul (Fin 20) (Math_log10 (jadd mag (Fin (1 / 10 ^ 10)))))
          magnitudes in
    Returns (Some (dbMagnitudes, jdiv (of_nat start) (Fin 44100))).

Definition frameStep (audioBuffer window : list num) (fftSize hopLength : nat)
    (acc : outcome (list (list num) * list num)) (i : nat)
    : outcome (list (list num) * list num) :=
  st ← acc;
  r ← frameAt audioBuffer window fftSize hopLength i;
  match r with
  | None => Returns st
  | Some (dbMagnitudes, t) => Returns (st.1 ++ [dbMagnitudes], st.2 ++ [t])
  end.

(** The frame-major matrix [spectrogram] and the array [times] after the
    frame loop.  [fftSize] is a non-negative integer.  When [numFrames] is
    [+Infinity] the hop is 0 and every pass repeats pass 0: the loop throws
    if that pass throws and otherwise never ends (it pushes rows until
    memory runs out). *)
Definition spectrogramFrames (audioBuffer : list num) (fftSize : nat)
    : outcome (list (list num) * list num) :=
  let hopLength := (fftSize / 4)%nat in
  let numFrames :=
    jadd (Math_floor (jdiv (jsub (of_nat (length audioBuffer)) (of_nat fftSize))
                           (of_nat hopLength)))
         (Fin 1) in
  let window := hannWindow fftSize in
  match trip_count numFrames with
  | Some n =>
      fold_left (frameStep audioBuffer window fftSize hopLength)
                (seq 0 n) (Returns ([], []))
  | None =>
      _ ← frameAt audioBuffer window fftSize hopLength 0; Diverges
  end.

(** [spectrogram[0] ? spectrogram[0].map((_, colIndex) =>
       spectrogram.map(row => row[colIndex])) : []] *)
Definition transpose (spectrogram : list (list num)) : list (list num) :=
  match spectrogram with
  | [] => []
  | row0 :: _ =>
      map (fun colIndex : nat =>
             map (fun row : list num => default NaN (row !! colIndex))
                 spectrogram)
          (seq 0 (length row0))
  end.

Definition computeSpectrogramData (audioBuffer : list num) (fftSize : nat)
    : outcome spectrogramData :=
  st ← spectrogramFrames audioBuffer fftSize;
  let freqs :=
    map (fun i : nat => jdiv (jmul (of_nat i) (Fin 44100)) (of_nat fftSize))
        (seq 0 (fftSize / 2)%nat) in
  let transposed := transpose st.1 in
  Returns {| sg_data := reverse transposed; sg_freqs := freqs; sg_times := st.2 |}.

End SpectrogramData.

(** ** The WAV codec: [encodeWAV] *)

Section Wav.
Local Open Scope Z_scope.

(** ToUint8 / ToUint16 / ToUint32: truncate, then wrap; not finite gives 0. *)
Definition ToUint (bits : Z) (v : num) : Z :=
  match v with
  | Fin x => Ztrunc x mod 2 ^ bits
  | _ => 0
  end.

Definition ToInt16 (v : num) : Z :=
  let u := ToUint 16 v in
  if Z_lt_dec u (2 ^ 15) then u else u - 2 ^ 16.

(** The [n] low bytes of [v], least significant first. *)
Fixpoint le_bytes (n : nat) (v : Z) : list Z :=
  match n with
  | O => []
  | S n' => v mod 256 :: le_bytes n' (v / 256)
  end.

Fixpoint le_value (bs : list Z) : Z :=
  match bs with
  | [] => 0
  | b :: rest => b + 256 * le_value rest
  end.

(** A [DataView] store of the bytes [bs] at [offset]; a store that does not
    fit in the buffer is a RangeError. *)
Definition storeBytes (view : list Z) (offset : nat) (bs : list Z)
    : outcome (list Z) :=
  if decide (offset + length bs <= length view)%nat
  then Returns (list_inserts offset bs view)
  else Throws.

Definition setUint8 (view : list Z) (offset : nat) (v : num) :=
  storeBytes view offset [ToUint 8 v].

(** The three multi-byte stores are always called with [littleEndian = true]. *)
Definition setUint16 (view : list Z) (offset : nat) (v : num) :=
  storeBytes view offset (le_bytes 2 (ToUint 16 v)).

Definition setUint32 (view : list Z) (offset : nat) (v : num) :=
  storeBytes view offset (le_bytes 4 (ToUint 32 v)).

Definition setInt16 (view : list Z) (offset : nat) (v : num) :=
  storeBytes view offset (le_bytes 2 (ToInt16 v mod 2 ^ 16)).

Fixpoint writeString (view : list Z) (offset : nat) (str : string)
    : outcome (list Z) :=
  match str with
  | EmptyString => Returns view
  | String c rest =>
      view' ← setUint8 view offset (of_nat (nat_of_ascii c));
      writeString view' (S offset) rest
  end.

(** [s < 0 ? s * 0x8000 : s * 0x7FFF] for [s = max(-1, min(1, input[i]))]. *)
Definition pcmValue (x : num) : num :=
  let s := Math_max (Fin (-1)) (Math_min (Fin 1) x) in
  if jlt s (Fin 0) then jmul s (Fin 32768) else jmul s (Fin 32767).

Fixpoint floatTo16BitPCM (output : list Z) (offset : nat) (input : list num)
    : outcome (list Z) :=
  match input with
  | [] => Returns output
  | x :: rest =>
      output' ← setInt16 output offset (pcmValue x);
      floatTo16BitPCM output' (offset + 2)%nat rest
  end.

(** The bytes of the returned [Blob]. *)
Definition encodeWAV (samples : list num) (sampleRate : num)
    : outcome (list Z) :=
  let len := of_nat (length samples) in
  let view := repeat 0 (44 + length samples * 2)%nat in
  view ← writeString view 0 "RIFF";
  view ← setUint32 view 4 (jadd (Fin 36) (jmul len (Fin 2)));
  view ← writeString view 8 "WAVE";
  view ← writeString view 12 "fmt ";
  view ← setUint32 view 16 (Fin 16);
  view ← setUint16 view 20 (Fin 1);
  view ← setUint16 view 22 (Fin 1);
  view ← setUint32 view 24 sampleRate;
  view ← setUint32 view 28 (jmul sampleRate (Fin 2));
  view ← setUint16 view 32 (Fin 2);
  view ← setUint16 view 34 (Fin 16);
  view ← writeString view 36 "data";
  view ← setUint32 view 40 (jmul len (Fin 2));
  floatTo16BitPCM view 44 samples.

(** ** Reading a buffer back *)

(** The [size] bytes at [offset]. *)
Definition field (bytes : list Z) (offset size : nat) : list Z :=
  take size (drop offset bytes).

(** The character codes of a four-character tag. *)
Definition tag (str : string) : list Z :=
  map (fun c => Z.of_nat (nat_of_ascii c)) (list_ascii_of_string str).

(** The signed reading of a 16-bit value (getInt16). *)
Definition int16_of (u : Z) : Z := if Z_lt_dec u (2 ^ 15) then u else u - 2 ^ 16.

(** ** A decoder for the round trip *)

(** Modelled from the spec: the result of the missing decoder, a format
    error or the pair (sampleRate, AudioSignal) of section 4.5. *)
Inductive decoded : Type :=
  | FormatError
  | Decoded (sampleRate : num) (signal : list num).

(** Modelled from the spec: the missing decoder rebuilds a sample as
    [int16 / 32768] or [int16 / 32767], "matching the encode's scaling":
    32768 for a negative value, 32767 otherwise. *)
Definition unscale (q : Z) : num :=
  if Z_lt_dec q 0 then Fin (IZR q / 32768)%R else Fin (IZR q / 32767)%R.

(** Modelled from the spec: the data part of the missing decoder, [count]
    little-endian int16 samples. *)
Fixpoint decodeSamples (count : nat) (data : list Z) : list num :=
  match count, data with
  | S n, lo :: hi :: rest =>
      unscale (int16_of (le_value [lo; hi])) :: decodeSamples n rest
  | _, _ => []
  end.

(** Modelled from the spec: the WAV decoder, which the repository does not
    have (the file ends with [encodeWAV]).  This one follows section 4.5 and
    the table of section 6: it parses the 44-byte header back, rejects a
    buffer that is not such a file or that is shorter than its header
    announces, and rebuilds the samples with [decodeSamples]. *)
Definition decodeWAV (bytes : list Z) : decoded :=
  let dataBytes := le_value (field bytes 40 4) in
  if decide ((44 <= length bytes)%nat /\
             Forall (fun b => 0 <= b < 256) bytes /\
             field bytes 0 4 = tag "RIFF" /\
             field bytes 8 4 = tag "WAVE" /\
             field bytes 12 4 = tag "fmt " /\
             le_value (field bytes 16 4) = 16 /\
             le_value (field bytes 20 2) = 1 /\
             le_value (field bytes 22 2) = 1 /\
             le_value (field bytes 34 2) = 16 /\
             field bytes 36 4 = tag "data" /\
             dataBytes mod 2 = 0 /\
             44 + dataBytes <= Z.of_nat (length bytes))
  then Decoded (of_Z (le_value (field bytes 24 4)))
               (decodeSamples (Z.to_nat (dataBytes / 2)) (drop 44 bytes))
  else FormatError.

End Wav.

(** ** The luminance extractor: [imageToGrayscaleArray] *)

Section Extractor.
Local Open Scope R_scope.

(** [data[i]] for a typed array and a number [i]: an element when [i] is an
    integer within the bounds, [undefined] ([None]) otherwise. *)
Definition typedArrayGet (data : list Z) (i : num) : option Z :=
  match i with
  | Fin x =>
      if Req_dec_T x (IZR (Zfloor x)) then
        if Rle_dec 0 x then data !! Z.to_nat (Zfloor x) else None
      else None
  | _ => None
  end.

(** A colour channel as it enters the arithmetic: [undefined] becomes [NaN]. *)
Definition channel (data : list Z) (i : num) : num :=
  match typedArrayGet data i with
  | Some v => of_Z v
  | None => NaN
  end.

(** The value pushed for the pixel at column [x] of row [y]. *)
Definition grayscaleAt (data : list Z) (width : num) (y x : nat) : num :=
  let i := jmul (jadd (jmul (of_nat y) width) (of_nat x)) (Fin 4) in
  let r := channel data i in
  let g := channel data (jadd i (Fin 1)) in
  let b := channel data (jadd i (Fin 2)) in
  let grayscale :=
    jdiv (jadd (jadd (jmul (Fin (299 / 1000)) r) (jmul (Fin (587 / 1000)) g))
               (jmul (Fin (114 / 1000)) b))
         (Fin 255) in
  jsub (Fin 1) grayscale.

(** [image width height] stands for what the browser does before the loops:
    it creates the canvas of that size, gets its 2d context (the function
    throws when there is none), draws the image and reads the RGBA bytes
    back with [getImageData(0, 0, width, height)].  The two loops then run
    over [y < height] and [x < width]; under an infinite bound a loop pushes
    until [push] throws the RangeError of an array that is full. *)
Definition imageToGrayscaleArray (image : num -> num -> outcome (list Z))
    (width height : num) : outcome (list (list num)) :=
  data ← image width height;
  match trip_count height with
  | None => Throws
  | Some h =>
      match trip_count width with
      | Some w =>
          Returns (map (fun y : nat =>
                          map (fun x : nat => grayscaleAt data width y x) (seq 0 w))
                       (seq 0 h))
      | None => if decide (h = 0%nat) then Returns [] else Throws
      end
  end.

End Extractor.

(** ** The application glue of [App.tsx] *)

Inductive ViewMode : Type :=
  | spectrogram
  | waveform
  | equation.

(** [str.split(sep)] for a one-character separator. *)
Fixpoint split (sep : ascii) (str : string) : list string :=
  match str with
  | EmptyString => [EmptyString]
  | String c rest =>
      if Ascii.eqb c sep then EmptyString :: split sep rest
      else
        match split sep rest with
        | piece :: pieces => String c piece :: pieces
        | [] => [String c EmptyString]
        end
  end.

(** [pieces.join(sep)] *)
Fixpoint join (sep : string) (pieces : list string) : string :=
  match pieces with
  | [] => EmptyString
  | [piece] => piece
  | piece :: rest => (piece ++ sep ++ join sep rest)%string
  end.

Module App.

Record Settings : Type := mkSettings {
  maxSize : num;
  density : num;
  duration : num;
  minFreq : num;
  maxFreq : num;
  waveShape : waveShape
}.

Definition sampleRate : num := Fin 44100.

(** [Math.max(1, Math.floor(settings.maxSize / settings.density))], the
    quotient being a binary64 number. *)
Definition imageWidth (settings : Settings) : num :=
  Math_max (Fin 1)
           (Math_floor (fl64 (jdiv (maxSize settings) (density settings)))).

(** [Math.max(1, Math.floor(settings.maxSize))] *)
Definition imageHeight (settings : Settings) : num :=
  Math_max (Fin 1) (Math_floor (maxSize settings)).

(** The audio buffer that [setAudioBuffer] receives.  A throw is caught by
    the [try] and leaves the buffer as it was.  [durationPerColumn] is the
    binary64 quotient. *)
Definition processAndUpdateAudio (limit : Z) (currentSettings : Settings)
    (image : num -> num -> outcome (list Z)) : outcome (list num) :=
  let width := imageWidth currentSettings in
  let height := imageHeight currentSettings in
  imageArray ← imageToGrayscaleArray image width height;
  let durationPerColumn := fl64 (jdiv (duration currentSettings) width) in
  generateAudioFromImage limit imageArray sampleRate durationPerColumn
                         (minFreq currentSettings) (maxFreq currentSettings)
                         (waveShape currentSettings).

(** [{ ...settings, ...newSettings }] for the patch of the advisor, which
    has either no field or the three of them. *)
Definition mergeSettings (settings : Settings) (newSettings : option settingsPatch)
    : Settings :=
  match newSettings with
  | None => settings
  | Some (mkPatch d lo hi) =>
      {| maxSize := maxSize settings; density := density settings;
         duration := d; minFreq := lo; maxFreq := hi;
         waveShape := waveShape settings |}
  end.

(** The settings that [setSettings] and the buffer that [setAudioBuffer]
    receive when an image is loaded. *)
Definition handleImageLoaded (limit : Z) (settings : Settings)
    (image : num -> num -> outcome (list Z)) : outcome (Settings * list num) :=
  let tempWidth := imageWidth settings in
  let tempHeight := imageHeight settings in
  imageArray ← imageToGrayscaleArray image tempWidth tempHeight;
  let newSettings := analyzeImageForAudioSettings imageArray in
  let finalSettings := mergeSettings settings newSettings in
  let width := imageWidth finalSettings in
  let durationPerColumn := fl64 (jdiv (duration finalSettings) width) in
  generatedAudio ← generateAudioFromImage limit imageArray sampleRate
                     durationPerColumn
                     (minFreq finalSettings) (maxFreq finalSettings)
                     (waveShape finalSettings);
  Returns (finalSettings, generatedAudio).

(** The name [handleSave] gives the download: [null] and the empty string
    are falsy. *)
Definition downloadName (fileName : option string) : string :=
  let baseName :=
    match fileName with
    | Some (String c rest) =>
        join "." (removelast (split "." (String c rest)))
    | _ => "generated_sound"%string
    end in
  (baseName ++ ".wav")%string.

(** The state update of [handleToggleView]. *)
Definition handleToggleView (currentView : ViewMode) : ViewMode :=
  match currentView with
  | spectrogram => waveform
  | waveform => equation
  | equation => spectrogram
  end.

(** What [handleSave] offers for download: nothing without a clip, and
    otherwise the WAV bytes of the clip under the name of the image. *)
Definition handleSave (audioBuffer : option (list num)) (fileName : option string)
    : option (outcome (string * list Z)) :=
  match audioBuffer with
  | None => None
  | Some buffer =>
      Some (wavBlob ← encodeWAV buffer sampleRate;
            Returns (downloadName fileName, wavBlob))
  end.

End App.

(** ** The controls and the visualizer *)

(** [getToggleViewTitle] of [PlaybackControls]. *)
Definition getToggleViewTitle (currentView : ViewMode) : string :=
  match currentView with
  | spectrogram => "Switch to Waveform View"
  | waveform => "Switch to Equation View"
  | equation => "Switch to Spectrogram View"
  end.

Inductive pathCommand : Type :=
  | moveTo (x y : num)
  | lineTo (x y : num).

Section Visualizer.
Local Open Scope R_scope.

(** The path [drawWaveform] builds on a canvas of size [width] by [height]:
    one vertex per sample, [x] growing by [sliceWidth], and a last line to
    the middle of the right edge. *)
Definition waveformStep (height sliceWidth : num)
    (st : list pathCommand * num) (iv : nat * num) : list pathCommand * num :=
  let x := st.2 in
  let v := iv.2 in
  let y := jadd (jdiv (jmul v height) (Fin 2)) (jdiv height (Fin 2)) in
  (st.1 ++ [if decide (iv.1 = 0%nat) then moveTo x y else lineTo x y],
   jadd x sliceWidth).

Definition drawWaveform (width height : num) (buffer : list num)
    : list pathCommand :=
  let sliceWidth := jdiv (jmul width (Fin 1)) (of_nat (length buffer)) in
  let st := fold_left (waveformStep height sliceWidth)
                      (zip (seq 0 (length buffer)) buffer) ([], Fin 0) in
  st.1 ++ [lineTo width (jdiv height (Fin 2))].

Definition Math_ceil (a : num) : num :=
  match a with
  | Fin x => Fin (IZR (Zceil x))
  | other => other
  end.

(** [Math.pow(a, e)] for a finite exponent [e > 0]: a negative base gives
    [NaN] unless [e] is an integer. *)
Definition Math_pow (a : num) (e : R) : num :=
  match a with
  | Fin x =>
      if Rlt_dec 0 x then Fin (Rpower x e)
      else if Req_dec_T x 0 then Fin 0
      else if Req_dec_T e (IZR (Zfloor e)) then Fin (powerRZ x (Zfloor e))
      else NaN
  | PInf => PInf
  | NInf =>
      if Req_dec_T e (IZR (Zfloor e))
      then if Z.odd (Zfloor e) then NInf else PInf
      else PInf
  | NaN => NaN
  end.

(** One [fillRect] of the spectrogram view, with the three numbers that are
    printed into its [rgb(...)] fill style. *)
Record fillCommand : Type := mkFill {
  red : num;
  green : num;
  blue : num;
  rect_x : num;
  rect_y : num;
  rect_w : num;
  rect_h : num
}.

(** The colour map [inferno]: the three numbers of the [rgb(...)] string. *)
Definition inferno (t : num) : num * num * num :=
  let r := jmul (Fin 255)
             (Math_pow (Math_sin (jadd (jmul (jmul t (Fin PI)) (Fin (9 / 10)))
                                       (Fin (1 / 10)))) (3 / 2)) in
  let g := jmul (Fin 255)
             (Math_pow (Math_sin (jadd (jmul (jmul t (Fin PI)) (Fin (6 / 10)))
                                       (Fin (9 / 10)))) 2) in
  let b := jmul (Fin 255)
             (Math_pow (Math_sin (jadd (jmul (jmul t (Fin PI)) (Fin (4 / 10)))
                                       (Fin (12 / 10)))) 3) in
  (Math_floor r, Math_floor g, Math_floor b).

(** One pass of the scan for the extreme values; the state is
    [(minDb, maxDb)].  A missing entry, [undefined], compares as [NaN]. *)
Definition scanStep (specData : list (list num)) (t : nat)
    (st : num * num) (f : nat) : num * num :=
  let value := default NaN (cell specData f t) in
  let maxDb := if jgt value st.2 then value else st.2 in
  let minDb := if jlt value st.1 then value else st.1 in
  (minDb, maxDb).

(** [(minDb, maxDb)] after the two nested loops, from [minDb = 0] and
    [maxDb = -100]. *)
Definition dbBounds (specData : list (list num)) (numFreqs numTimes : nat)
    : num * num :=
  fold_left (fun st t => fold_left (scanStep specData t) (seq 0 numFreqs) st)
            (seq 0 numTimes) (Fin 0, Fin (- 100)).

(** The rectangles [drawSpectrogram] fills on a canvas of [width] by
    [height], in the order of its loops. *)
Definition drawSpectrogram (width height : num) (specData : list (list num))
    : list fillCommand :=
  let numFreqs := length specData in
  let numTimes := length (default [] (specData !! 0%nat)) in
  if decide (numFreqs = 0%nat \/ numTimes = 0%nat) then []
  else
    let cellWidth := jdiv width (of_nat numTimes) in
    let cellHeight := jdiv height (of_nat numFreqs) in
    let bounds := dbBounds specData numFreqs numTimes in
    let dbRange := jsub bounds.2 bounds.1 in
    flat_map
      (fun t : nat =>
         map (fun f : nat =>
                let value := default NaN (cell specData f t) in
                let normalized := jdiv (jsub value bounds.1) dbRange in
                let colour := inferno normalized in
                {| red := colour.1.1; green := colour.1.2; blue := colour.2;
                   rect_x := jmul (of_nat t) cellWidth;
                   rect_y := jmul (of_nat f) cellHeight;
                   rect_w := Math_ceil cellWidth;
                   rect_h := Math_ceil cellHeight |})
             (seq 0 numFreqs))
      (seq 0 numTimes).

Inductive drawing : Type :=
  | Polyline (path : list pathCommand)
  | Cells (fills : list fillCommand).

(** What the effect of [AudioVisualizer] draws on a canvas of [width] by
    [height]: the polyline in the waveform view, and otherwise the cells of
    the spectrogram of the buffer, computed with the default window of 1024
    samples. *)
Definition AudioVisualizer (width height : num) (audioBuffer : list num)
    (viewMode : ViewMode) : outcome drawing :=
  match viewMode with
  | waveform => Returns (Polyline (drawWaveform width height audioBuffer))
  | _ =>
      r ← computeSpectrogramData audioBuffer 1024;
      Returns (Cells (drawSpectrogram width height (sg_data r)))
  end.

End Visualizer.

(** ** Vocabulary of the statements *)

Section Vocabulary.
Local Open Scope R_scope.

(** The peak update of the sample loop, [if (Math.abs(sample) > maxAmplitude)]. *)
Definition peakStep (m s : num) : num :=
  if jgt (Math_abs s) m then Math_abs s else m.

(** The samples of column [col], in the order the loop stores them. *)
Definition rawColumn (imageArray : list (list num)) (fr : list num)
    (sampleRate : num) (w : waveShape) (height n col : nat) : list num :=
  map (sampleAt imageArray fr sampleRate w height col) (seq 0 n).

(** The samples as the loops compute them, column after column; the
    signal before normalization holds them rounded to binary32. *)
Definition rawSamples (imageArray : list (list num)) (fr : list num)
    (sampleRate : num) (w : waveShape) (height width n : nat) : list num :=
  concat (map (rawColumn imageArray fr sampleRate w height n) (seq 0 width)).

(** How many samples per column the loops run for, from the value of
    [samplesPerColumn] and the number of columns; [None] when the allocation
    of [audio] throws. *)
Definition columnLength (limit : Z) (width : nat) (samplesPerColumn : num)
    : option nat :=
  match samplesPerColumn with
  | Fin x =>
      if Rlt_dec x 0 then None
      else if Z_lt_dec (maxLength limit) (Zfloor x * Z.of_nat width) then None
      else Some (Z.to_nat (Zfloor x))
  | NaN => Some 0%nat
  | PInf | NInf => None
  end.

Definition is_finite (a : num) : Prop := exists x : R, a = Fin x.


Definition all_zero (imageArray : list (list num)) : Prop :=
  Forall (Forall (fun c => c = Fin 0)) imageArray.

(** A cell of a LuminanceMatrix: a real in [[0, 1]]. *)
Definition unit_cell (c : num) : Prop := exists x : R, c = Fin x /\ 0 <= x <= 1.

(** The [H] by [W] matrix whose cells all hold [v]. *)
Definition uniformMatrix (H W : nat) (v : num) : list (list num) :=
  repeat (repeat v W) H.

(** The 44-byte header of section 6 for [sampleCount] samples. *)
Definition wavHeader (sampleCount : nat) (sampleRate : num) : list Z :=
  tag "RIFF"
  ++ le_bytes 4 (ToUint 32 (jadd (Fin 36) (jmul (of_nat sampleCount) (Fin 2))))
  ++ tag "WAVE" ++ tag "fmt "
  ++ le_bytes 4 16 ++ le_bytes 2 1 ++ le_bytes 2 1
  ++ le_bytes 4 (ToUint 32 sampleRate)
  ++ le_bytes 4 (ToUint 32 (jmul sampleRate (Fin 2)))
  ++ le_bytes 2 2 ++ le_bytes 2 16
  ++ tag "data"
  ++ le_bytes 4 (ToUint 32 (jmul (of_nat sampleCount) (Fin 2))).

(** The two bytes stored for one sample. *)
Definition pcmBytes (x : num) : list Z :=
  le_bytes 2 (ToInt16 (pcmValue x) mod 2 ^ 16)%Z.

(** The quantization in the words of section 4.5: clamp to [[-1, 1]], scale a
    negative value by 32768 and a non-negative one by 32767, truncate toward
    zero.  The infinities clamp to the ends of the range; [NaN] is stored
    as 0. *)
Definition pcm16_spec (x : num) : Z :=
  match x with
  | Fin v =>
      let s := Rmax (-1) (Rmin 1 v) in
      Ztrunc (if Rlt_dec s 0 then s * 32768 else s * 32767)
  | PInf => 32767%Z
  | NInf => (-32768)%Z
  | NaN => 0%Z
  end.

(** A sample of an AudioSignal: a real in [[-1, 1]]. *)
Definition unit_sample (x : num) : Prop := exists v : R, x = Fin v /\ -1 <= v <= 1.

End Vocabulary.

(** ** The transform the analyzer is measured against *)

Section Fourier.
Local Open Scope R_scope.

(** The sum of [f n x] over the entries [x] of [l], [n] being the index of
    [x] in [l]. *)
Fixpoint series {A : Type} (f : nat -> A -> R) (l : list A) : R :=
  match l with
  | [] => 0
  | a :: t => f 0%nat a + series (fun n => f (S n)) t
  end.

(** The discrete Fourier transform of a complex sequence [xs], given as
    pairs (real part, imaginary part): bin [k] is the sum over [n] of
    [xs[n] * exp (- 2 PI i k n / N)], where [N] is the length of [xs].  This
    is the mathematical reference, not a function of the program. *)
Definition dft (xs : list (R * R)) (k : nat) : R * R :=
  let theta (n : nat) := - 2 * PI * INR k * INR n / INR (length xs) in
  (series (fun n p => p.1 * cos (theta n) - p.2 * sin (theta n)) xs,
   series (fun n p => p.2 * cos (theta n) + p.1 * sin (theta n)) xs).

(** The [Complex] object of a pair of reals. *)
Definition toComplex (p : R * R) : Complex := {| re := Fin p.1; im := Fin p.2 |}.

End Fourier.

(** A colour channel a canvas accepts: a whole number from 0 to 255. *)
Definition colour_channel (c : num) : Prop :=
  exists z : Z, c = Fin (IZR z) /\ (0 <= z <= 255)%Z.

(** A string without a dot. *)
Definition dot_free (s : string) : Prop :=
  Forall (fun c : ascii => c <> "."%char) (list_ascii_of_string s).

(** * Properties *)

Section NumFacts.
Local Open Scope R_scope.

Lemma Zfloor_IZR (z : Z) : Zfloor (IZR z) = z.
Proof. apply ZfloorZ. Qed.

Lemma Zceil_IZR (z : Z) : Zceil (IZR z) = z.
Proof. unfold Zceil. rewrite <- opp_IZR, ZfloorZ. lia. Qed.

Lemma Ztrunc_IZR (z : Z) : Ztrunc (IZR z) = z.
Proof. unfold Ztrunc. destruct (Rle_dec 0 (IZR z)); [apply Zfloor_IZR | apply Zceil_IZR]. Qed.

Lemma Ztrunc_INR (n : nat) : Ztrunc (INR n) = Z.of_nat n.
Proof. rewrite INR_IZR_INZ. apply Ztrunc_IZR. Qed.

Lemma jgt_Fin (x y : R) : jgt (Fin x) (Fin y) = true <-> y < x.
Proof.
  unfold jgt, jlt. destruct (Rlt_dec y x); split; intros; try easy.
Qed.

Lemma jgt_zero_zero : jgt (Fin 0) (Fin 0) = false.
Proof. unfold jgt, jlt. destruct (Rlt_dec 0 0); [lra | reflexivity]. Qed.

End NumFacts.

(** ** Rounding to a binary format *)

(** Writes the powers of two with a literal exponent as numbers. *)
Ltac pow2_lit :=
  repeat match goal with
  | |- context [powerRZ 2 ?k] =>
      let v := eval vm_compute in k in
      let r := eval cbv in (Z.abs_nat v) in
      match v with
      | Z0 => change (powerRZ 2 k) with 1%R
      | Zpos _ => change (powerRZ 2 k) with (2 ^ r)%R
      | Zneg _ => change (powerRZ 2 k) with (/ 2 ^ r)%R
      end
  end.

Section BinaryFacts.
Local Open Scope R_scope.

Lemma rne_near (x : R) (m : Z) : Rabs (x - IZR m) < 1 / 2 -> rne x = m.
Proof.
  intros Hx. apply Rabs_def2 in Hx. destruct Hx as [Hhi Hlo]. unfold rne.
  destruct (Rle_dec (IZR m) x) as [Hle|Hgt].
  - assert (Hf : Zfloor x = m) by (apply Zfloor_eq; lra).
    rewrite Hf. destruct (Rlt_dec (x - IZR m) (1 / 2)) as [_|Hc]; [reflexivity | lra].
  - assert (Hf : Zfloor x = (m - 1)%Z).
    { apply Zfloor_eq. rewrite minus_IZR. lra. }
    rewrite Hf, minus_IZR.
    destruct (Rlt_dec (x - (IZR m - 1)) (1 / 2)) as [Hc|_]; [lra|].
    destruct (Rlt_dec (1 / 2) (x - (IZR m - 1))) as [_|Hc]; [lia | lra].
Qed.

Lemma rne_IZR (z : Z) : rne (IZR z) = z.
Proof. apply rne_near. rewrite Rminus_diag, Rabs_R0. lra. Qed.

Lemma rne_error (x : R) : Rabs (IZR (rne x) - x) <= 1 / 2.
Proof.
  unfold rne. pose proof (Zfloor_bound x) as [Hlo Hhi].
  destruct (Rlt_dec (x - IZR (Zfloor x)) (1 / 2)) as [H1|H1].
  - apply Rabs_le. lra.
  - destruct (Rlt_dec (1 / 2) (x - IZR (Zfloor x))) as [H2|H2].
    + rewrite plus_IZR. apply Rabs_le. lra.
    + destruct (Z.even (Zfloor x)).
      * apply Rabs_le. lra.
      * rewrite plus_IZR. apply Rabs_le. lra.
Qed.

Lemma rne_nonneg (x : R) : 0 <= x -> (0 <= rne x)%Z.
Proof.
  intros Hx. unfold rne.
  assert (Hf : (0 <= Zfloor x)%Z) by (apply Zfloor_lub; simpl; exact Hx).
  destruct (Rlt_dec _ _); [exact Hf|].
  destruct (Rlt_dec _ _); [lia|]. destruct (Z.even _); lia.
Qed.

Lemma rne_nonpos (x : R) : x <= 0 -> (rne x <= 0)%Z.
Proof.
  intros Hx. destruct (Req_dec x 0) as [->|Hne].
  - change 0 with (IZR 0). rewrite rne_IZR. lia.
  - unfold rne. pose proof (Zfloor_bound x) as [Hlo Hhi].
    assert (Hf : (Zfloor x <= -1)%Z).
    { assert (IZR (Zfloor x) < 0) by lra. apply lt_IZR in H. lia. }
    destruct (Rlt_dec _ _); [lia|].
    destruct (Rlt_dec _ _); [lia|]. destruct (Z.even _); lia.
Qed.

Lemma pow2_pos (e : Z) : 0 < powerRZ 2 e.
Proof. apply powerRZ_lt. lra. Qed.

Lemma pow2_add (a b : Z) : powerRZ 2 (a + b) = powerRZ 2 a * powerRZ 2 b.
Proof. apply powerRZ_add. lra. Qed.

Lemma pow2_succ (a : Z) : powerRZ 2 (a + 1) = 2 * powerRZ 2 a.
Proof. rewrite pow2_add. simpl. lra. Qed.

Lemma pow2_inv (a : Z) : / powerRZ 2 a = powerRZ 2 (- a).
Proof.
  pose proof (pow2_pos a) as Ha. pose proof (pow2_add a (- a)) as Hs.
  replace (a + - a)%Z with 0%Z in Hs by lia. simpl in Hs.
  apply (Rmult_eq_reg_l (powerRZ 2 a)); [|lra]. rewrite Rinv_r by lra. exact Hs.
Qed.

Lemma pow2_ge_1 (n : nat) : 1 <= powerRZ 2 (Z.of_nat n).
Proof.
  rewrite <- pow_powerRZ. induction n as [|n IH]; simpl; lra.
Qed.

Lemma pow2_le (a b : Z) : (a <= b)%Z -> powerRZ 2 a <= powerRZ 2 b.
Proof.
  intros Hab. replace b with (a + Z.of_nat (Z.to_nat (b - a)))%Z by lia.
  rewrite pow2_add. pose proof (pow2_pos a).
  pose proof (pow2_ge_1 (Z.to_nat (b - a))). nra.
Qed.

Lemma pow2_lt (a b : Z) : (a < b)%Z -> powerRZ 2 a < powerRZ 2 b.
Proof.
  intros Hab. apply Rlt_le_trans with (powerRZ 2 (a + 1)).
  - rewrite pow2_succ. pose proof (pow2_pos a). lra.
  - apply pow2_le. lia.
Qed.

Lemma pow2_exp (e : Z) : powerRZ 2 e = exp (IZR e * ln 2).
Proof. rewrite powerRZ_Rpower by lra. reflexivity. Qed.

Lemma ln2_pos : 0 < ln 2.
Proof. rewrite <- ln_1. apply ln_increasing; lra. Qed.

(** The binade of a number that is not subnormal. *)
Lemma binade_unique (emin e : Z) (x : R) :
  (emin <= e)%Z -> powerRZ 2 e <= Rabs x < powerRZ 2 (e + 1) ->
  binade emin x = e.
Proof.
  intros He [Hlo Hhi]. unfold binade.
  assert (Hx : 0 < Rabs x) by (pose proof (pow2_pos e); lra).
  pose proof ln2_pos as Hl2.
  assert (Hf : Zfloor (ln (Rabs x) / ln 2) = e).
  { apply Zfloor_eq. split.
    - apply (Rmult_le_reg_r (ln 2)); [exact Hl2|].
      unfold Rdiv. rewrite Rmult_assoc, Rinv_l, Rmult_1_r by lra.
      destruct Hlo as [Hlo|Heq].
      + left. rewrite pow2_exp in Hlo. rewrite <- (exp_ln (Rabs x) Hx) in Hlo.
        apply exp_lt_inv. exact Hlo.
      + right. rewrite <- Heq, pow2_exp, ln_exp. reflexivity.
    - apply (Rmult_lt_reg_r (ln 2)); [exact Hl2|].
      unfold Rdiv. rewrite Rmult_assoc, Rinv_l, Rmult_1_r by lra.
      rewrite pow2_exp in Hhi. rewrite <- (exp_ln (Rabs x) Hx) in Hhi.
      apply exp_lt_inv in Hhi. rewrite plus_IZR in Hhi. exact Hhi. }
  rewrite Hf. lia.
Qed.

Lemma binade_subnormal (emin : Z) (x : R) :
  0 < Rabs x < powerRZ 2 emin -> binade emin x = emin.
Proof.
  intros [Hx Hhi]. unfold binade. pose proof ln2_pos as Hl2.
  assert (Hf : (Zfloor (ln (Rabs x) / ln 2) < emin)%Z).
  { apply lt_IZR. pose proof (Zfloor_bound (ln (Rabs x) / ln 2)) as [Hb _].
    apply Rle_lt_trans with (1 := Hb).
    apply (Rmult_lt_reg_r (ln 2)); [exact Hl2|].
    unfold Rdiv. rewrite Rmult_assoc, Rinv_l, Rmult_1_r by lra.
    rewrite pow2_exp in Hhi. rewrite <- (exp_ln (Rabs x) Hx) in Hhi.
    apply exp_lt_inv in Hhi. exact Hhi. }
  lia.
Qed.

(** Every number that is not subnormal lies in its binade. *)
Lemma binade_spec (emin : Z) (x : R) :
  powerRZ 2 emin <= Rabs x ->
  (emin <= binade emin x)%Z /\
  powerRZ 2 (binade emin x) <= Rabs x < powerRZ 2 (binade emin x + 1).
Proof.
  intros Hlo. pose proof ln2_pos as Hl2.
  assert (Hx : 0 < Rabs x) by (pose proof (pow2_pos emin); lra).
  set (e := Zfloor (ln (Rabs x) / ln 2)).
  pose proof (Zfloor_bound (ln (Rabs x) / ln 2)) as [Hb1 Hb2]. fold e in Hb1, Hb2.
  assert (H1 : powerRZ 2 e <= Rabs x).
  { rewrite pow2_exp, <- (exp_ln (Rabs x) Hx) at 1.
    assert (IZR e * ln 2 <= ln (Rabs x)).
    { apply (Rmult_le_compat_r (ln 2)) in Hb1; [|lra].
      unfold Rdiv in Hb1. rewrite Rmult_assoc, Rinv_l, Rmult_1_r in Hb1 by lra.
      exact Hb1. }
    destruct H as [H|H]; [left; apply exp_increasing; exact H | right; rewrite H; reflexivity]. }
  assert (H2 : Rabs x < powerRZ 2 (e + 1)).
  { rewrite pow2_exp, <- (exp_ln (Rabs x) Hx) at 1. apply exp_increasing.
    rewrite plus_IZR.
    apply (Rmult_lt_compat_r (ln 2)) in Hb2; [|lra].
    unfold Rdiv in Hb2. rewrite Rmult_assoc, Rinv_l, Rmult_1_r in Hb2 by lra.
    exact Hb2. }
  assert (He : (emin <= e)%Z).
  { apply Z.nlt_ge. intros Hc.
    assert (powerRZ 2 (e + 1) <= powerRZ 2 emin) by (apply pow2_le; lia). lra. }
  unfold binade. fold e. rewrite Z.max_r by exact He.
  split; [exact He|]. split; assumption.
Qed.

Lemma roundR_0 (prec emin : Z) : roundR prec emin 0 = 0.
Proof.
  unfold roundR. unfold Rdiv. rewrite Rmult_0_l.
  change 0 with (IZR 0) at 1. rewrite rne_IZR. simpl. lra.
Qed.

Lemma roundR_nonneg (prec emin : Z) (x : R) : 0 <= x -> 0 <= roundR prec emin x.
Proof.
  intros Hx. unfold roundR.
  set (ulp := powerRZ 2 (binade emin x - prec + 1)).
  assert (Hu : 0 < ulp) by apply pow2_pos.
  apply Rmult_le_pos; [|lra]. apply (IZR_le 0). apply rne_nonneg.
  apply Rmult_le_pos; [exact Hx|]. left. apply Rinv_0_lt_compat. exact Hu.
Qed.

Lemma roundR_nonpos (prec emin : Z) (x : R) : x <= 0 -> roundR prec emin x <= 0.
Proof.
  intros Hx. unfold roundR.
  set (ulp := powerRZ 2 (binade emin x - prec + 1)).
  assert (Hu : 0 < ulp) by apply pow2_pos.
  assert (Hr : (rne (x / ulp) <= 0)%Z).
  { apply rne_nonpos. unfold Rdiv.
    assert (0 < / ulp) by (apply Rinv_0_lt_compat; exact Hu). nra. }
  apply IZR_le in Hr. nra.
Qed.

(** The error of rounding is at most half a unit in the last place. *)
Lemma roundR_half_ulp (prec emin : Z) (x : R) :
  Rabs (roundR prec emin x - x) <= powerRZ 2 (binade emin x - prec + 1) / 2.
Proof.
  unfold roundR. set (ulp := powerRZ 2 (binade emin x - prec + 1)).
  assert (Hu : 0 < ulp) by apply pow2_pos.
  pose proof (rne_error (x / ulp)) as He.
  replace (IZR (rne (x / ulp)) * ulp - x)
    with ((IZR (rne (x / ulp)) - x / ulp) * ulp) by (field; lra).
  rewrite Rabs_mult, (Rabs_pos_eq ulp) by lra. nra.
Qed.

(** The relative error in the normal range, the absolute one below it. *)
Lemma roundR_error (prec emin : Z) (x : R) :
  Rabs (roundR prec emin x - x)
  <= powerRZ 2 (- prec) * Rabs x + powerRZ 2 (emin - prec).
Proof.
  pose proof (roundR_half_ulp prec emin x) as Hh.
  pose proof (pow2_pos (- prec)) as Hp. pose proof (pow2_pos (emin - prec)) as Hq.
  pose proof (Rabs_pos x) as Hx.
  destruct (Rle_dec (powerRZ 2 emin) (Rabs x)) as [Hn|Hs].
  - destruct (binade_spec emin x Hn) as (_ & Hlo & _).
    replace (binade emin x - prec + 1)%Z with ((binade emin x + - prec) + 1)%Z in Hh by lia.
    rewrite pow2_succ, pow2_add in Hh. nra.
  - destruct (Req_dec x 0) as [->|Hne].
    + rewrite roundR_0, Rminus_diag, Rabs_R0. nra.
    + assert (Hb : binade emin x = emin).
      { apply binade_subnormal. split; [apply Rabs_pos_lt; exact Hne | lra]. }
      rewrite Hb in Hh.
      replace (emin - prec + 1)%Z with ((emin - prec) + 1)%Z in Hh by lia.
      rewrite pow2_succ in Hh. nra.
Qed.

(** Rounding a number whose binade and nearest multiple are known. *)
Lemma roundR_eval (prec emin e m : Z) (x : R) :
  (emin <= e)%Z -> powerRZ 2 e <= Rabs x < powerRZ 2 (e + 1) ->
  Rabs (x / powerRZ 2 (e - prec + 1) - IZR m) < 1 / 2 ->
  roundR prec emin x = IZR m * powerRZ 2 (e - prec + 1).
Proof.
  intros He Hx Hm. unfold roundR. rewrite (binade_unique emin e x He Hx).
  rewrite (rne_near _ m Hm). reflexivity.
Qed.

Lemma pow2_IZR (n : Z) : (0 <= n)%Z -> powerRZ 2 n = IZR (2 ^ n).
Proof.
  intros Hn. rewrite <- (Z2Nat.id n Hn), <- pow_powerRZ.
  rewrite <- (Z2Nat.id n Hn) at 1. 
  generalize (Z.to_nat n) as k. intros k. rewrite Nat2Z.id.
  induction k as [|k IH].
  - reflexivity.
  - rewrite Nat2Z.inj_succ, Z.pow_succ_r by lia. rewrite mult_IZR, <- IH. simpl. lra.
Qed.

(** A whole number of fewer than [prec] bits is not changed. *)
Lemma roundR_int (prec emin : Z) (z : Z) :
  (0 < prec)%Z -> (emin <= 0)%Z -> (Z.abs z < 2 ^ prec)%Z ->
  roundR prec emin (IZR z) = IZR z.
Proof.
  intros Hp Hemin Hz. destruct (Z.eq_dec z 0%Z) as [->|Hnz]; [apply roundR_0|].
  set (k := Z.log2 (Z.abs z)).
  assert (Hk : (0 <= k)%Z) by apply Z.log2_nonneg.
  assert (Hspec : (2 ^ k <= Z.abs z < 2 ^ (k + 1))%Z).
  { pose proof (Z.log2_spec (Z.abs z) ltac:(lia)) as Hs.
    fold k in Hs. replace (Z.succ k) with (k + 1)%Z in Hs by lia. exact Hs. }
  assert (Hkp : (k < prec)%Z).
  { apply Z.nle_gt. intros Hc.
    assert (2 ^ prec <= 2 ^ k)%Z by (apply Z.pow_le_mono_r; lia). lia. }
  assert (Hbin : powerRZ 2 k <= Rabs (IZR z) < powerRZ 2 (k + 1)).
  { rewrite <- abs_IZR, !pow2_IZR by lia. split; [apply IZR_le | apply IZR_lt]; lia. }
  rewrite (roundR_eval prec emin k (z * 2 ^ (prec - 1 - k)) (IZR z)).
  - rewrite mult_IZR, <- pow2_IZR by lia. rewrite Rmult_assoc, <- pow2_add.
    replace (prec - 1 - k + (k - prec + 1))%Z with 0%Z by lia. simpl. lra.
  - lia.
  - exact Hbin.
  - rewrite mult_IZR, <- pow2_IZR by lia.
    replace (IZR z / powerRZ 2 (k - prec + 1) - IZR z * powerRZ 2 (prec - 1 - k)) with 0.
    + rewrite Rabs_R0. lra.
    + replace (prec - 1 - k)%Z with (- (k - prec + 1))%Z by lia.
      rewrite <- pow2_inv. unfold Rdiv. lra.
Qed.

Lemma pow2_neg_IZR (n : Z) : (0 <= n)%Z -> powerRZ 2 (- n) = / IZR (2 ^ n).
Proof. intros Hn. rewrite <- pow2_inv, pow2_IZR by exact Hn. reflexivity. Qed.

Lemma pow2_0 : powerRZ 2 0 = 1.
Proof. reflexivity. Qed.

Lemma pow2_le_1 (a : Z) : (a <= 0)%Z -> powerRZ 2 a <= 1.
Proof. intros Ha. rewrite <- pow2_0. apply pow2_le. exact Ha. Qed.

Lemma roundR_abs_upper (prec emin : Z) (x : R) :
  Rabs (roundR prec emin x)
  <= (1 + powerRZ 2 (- prec)) * Rabs x + powerRZ 2 (emin - prec).
Proof.
  pose proof (roundR_error prec emin x) as He.
  pose proof (Rabs_triang (roundR prec emin x - x) x) as Ht.
  replace (roundR prec emin x - x + x) with (roundR prec emin x) in Ht by lra.
  lra.
Qed.

Lemma roundR_abs_lower (prec emin : Z) (x : R) :
  (1 - powerRZ 2 (- prec)) * Rabs x - powerRZ 2 (emin - prec)
  <= Rabs (roundR prec emin x).
Proof.
  pose proof (roundR_error prec emin x) as He.
  pose proof (Rabs_triang (x - roundR prec emin x) (roundR prec emin x)) as Ht.
  replace (x - roundR prec emin x + roundR prec emin x) with x in Ht by lra.
  rewrite (Rabs_minus_sym x) in Ht. lra.
Qed.

Lemma roundNum_Fin (prec emin emax : Z) (x : R) :
  Rabs (roundR prec emin x) < powerRZ 2 emax ->
  roundNum prec emin emax (Fin x) = Fin (roundR prec emin x).
Proof.
  intros Hlt. unfold roundNum.
  destruct (Rle_dec (powerRZ 2 emax) (Rabs (roundR prec emin x))) as [Hc|_];
    [exfalso; lra | reflexivity].
Qed.

Lemma roundNum_0 (prec emin emax : Z) : roundNum prec emin emax (Fin 0) = Fin 0.
Proof.
  rewrite roundNum_Fin; rewrite roundR_0; [reflexivity|].
  rewrite Rabs_R0. apply pow2_pos.
Qed.

(** No overflow two binades below the largest exponent. *)
Lemma roundNum_small (prec emin emax k : Z) (x : R) :
  (0 <= prec)%Z -> (emin <= prec)%Z -> (0 <= k)%Z -> (k + 2 <= emax)%Z ->
  Rabs x <= powerRZ 2 k ->
  roundNum prec emin emax (Fin x) = Fin (roundR prec emin x).
Proof.
  intros Hp He Hk Hke Hx. apply roundNum_Fin.
  pose proof (roundR_abs_upper prec emin x) as Hu.
  pose proof (pow2_le_1 (- prec) ltac:(lia)) as H1.
  pose proof (pow2_le_1 (emin - prec) ltac:(lia)) as H2.
  pose proof (pow2_pos (- prec)) as H3.
  pose proof (pow2_le 0 k Hk) as H4. rewrite pow2_0 in H4.
  pose proof (pow2_le (k + 1 + 1) emax ltac:(lia)) as H5.
  rewrite !pow2_succ in H5.
  pose proof (Rabs_pos x) as H6.
  apply Rle_lt_trans with (2 * Rabs x + 1); [nra|]. lra.
Qed.

Lemma fl64_Fin (x : R) :
  Rabs x <= powerRZ 2 1000 -> fl64 (Fin x) = Fin (round64 x).
Proof. intros Hx. apply (roundNum_small 53 (-1022) 1024 1000); [lia..|exact Hx]. Qed.

Lemma Math_fround_Fin (x : R) :
  Rabs x <= powerRZ 2 100 -> Math_fround (Fin x) = Fin (round32 x).
Proof. intros Hx. apply (roundNum_small 24 (-126) 128 100); [lia..|exact Hx]. Qed.

Lemma fl64_0 : fl64 (Fin 0) = Fin 0.
Proof. apply roundNum_0. Qed.

Lemma Math_fround_0 : Math_fround (Fin 0) = Fin 0.
Proof. apply roundNum_0. Qed.

Lemma round64_int (z : Z) : (Z.abs z < 2 ^ 53)%Z -> round64 (IZR z) = IZR z.
Proof. intros Hz. apply roundR_int; [lia | lia | exact Hz]. Qed.

Lemma pow2_ge_IZR (k : Z) (z : Z) : (0 <= k)%Z -> (z <= 2 ^ k)%Z -> IZR z <= powerRZ 2 k.
Proof. intros Hk Hz. rewrite pow2_IZR by exact Hk. apply IZR_le. exact Hz. Qed.

Lemma fl64_int (z : Z) : (Z.abs z < 2 ^ 53)%Z -> fl64 (Fin (IZR z)) = Fin (IZR z).
Proof.
  intros Hz. rewrite fl64_Fin, round64_int by
    first [exact Hz
          | rewrite <- abs_IZR; apply Rle_trans with (powerRZ 2 53);
            [apply pow2_ge_IZR; lia | apply pow2_le; lia]].
  reflexivity.
Qed.

(** A rounded number is finite or an infinity of the sign of the exact one. *)
Lemma roundNum_cases (prec emin emax : Z) (x : R) :
  (roundNum prec emin emax (Fin x) = Fin (roundR prec emin x)
   /\ Rabs (roundR prec emin x) < powerRZ 2 emax)
  \/ (roundNum prec emin emax (Fin x) = PInf /\ 0 < x
      /\ powerRZ 2 emax <= roundR prec emin x)
  \/ (roundNum prec emin emax (Fin x) = NInf /\ x <= 0
      /\ roundR prec emin x <= - powerRZ 2 emax).
Proof.
  unfold roundNum.
  destruct (Rle_dec (powerRZ 2 emax) (Rabs (roundR prec emin x))) as [Hc|Hc].
  - destruct (Rlt_dec 0 x) as [Hx|Hx].
    + right; left. split; [reflexivity|]. split; [exact Hx|].
      rewrite Rabs_pos_eq in Hc; [exact Hc|]. apply roundR_nonneg. lra.
    + right; right. split; [reflexivity|]. split; [lra|].
      pose proof (roundR_nonpos prec emin x ltac:(lra)) as Hn.
      rewrite Rabs_left1 in Hc by exact Hn. lra.
  - left. split; [reflexivity | lra].
Qed.

End BinaryFacts.

Section SynthesisFacts.
Local Open Scope nat_scope.

Variables (imageArray : list (list num)) (fr : list num) (sampleRate : num)
          (w : waveShape) (height : nat).

(** The sample loop of one column fills the next [n] cells in order, with
    the samples rounded to binary32, and tracks the peak of the samples as
    computed. *)
Lemma columnStep_fill (n col k : nat) (pre rest : list num) (m : num) :
  length pre = col * n ->
  k <= length rest ->
  fold_left (sampleStep imageArray fr sampleRate w height n col) (seq 0 k)
            {| audio := pre ++ rest; maxAmplitude := m |}
  = {| audio := pre ++ map Math_fround
                         (map (sampleAt imageArray fr sampleRate w height col)
                              (seq 0 k))
                    ++ drop k rest;
       maxAmplitude :=
         fold_left peakStep
                   (map (sampleAt imageArray fr sampleRate w height col) (seq 0 k)) m |}.
Proof.
  intros Hpre. induction k as [|k IH]; intros Hk.
  - simpl. rewrite drop_0. reflexivity.
  - rewrite seq_S, fold_left_app, IH by lia. simpl.
    rewrite !map_app, fold_left_app. simpl.
    unfold sampleStep at 1. simpl. f_equal.
    destruct (lookup_lt_is_Some_2 rest k ltac:(lia)) as [z Hz].
    rewrite (drop_S _ _ _ Hz).
    rewrite <- Hpre.
    replace (length pre + k) with
      (length (pre ++ map Math_fround
                        (map (sampleAt imageArray fr sampleRate w height col)
                             (seq 0 k))) + 0)
      by (rewrite length_app, !length_map, length_seq; lia).
    rewrite app_assoc, insert_app_r. simpl.
    rewrite <- !app_assoc. reflexivity.
Qed.

(** The two nested loops store [rawSamples], rounded, and track its peak. *)
Lemma columns_fill (n width c : nat) (rest : list num) :
  c <= width ->
  length rest = width * n ->
  fold_left (columnStep imageArray fr sampleRate w height n) (seq 0 c)
            {| audio := rest; maxAmplitude := Fin 0 |}
  = {| audio := map Math_fround (rawSamples imageArray fr sampleRate w height c n)
                  ++ drop (c * n) rest;
       maxAmplitude :=
         fold_left peakStep
                   (rawSamples imageArray fr sampleRate w height c n) (Fin 0) |}.
Proof.
  intros Hc Hlen. induction c as [|c IH].
  - simpl. rewrite drop_0. reflexivity.
  - rewrite seq_S, fold_left_app, IH by lia. simpl.
    unfold columnStep at 1.
    assert (Hraw : length (rawSamples imageArray fr sampleRate w height c n) = c * n).
    { clear. unfold rawSamples. induction c as [|c IH]; [reflexivity|].
      rewrite seq_S, map_app, concat_app, length_app, IH. simpl.
      unfold rawColumn. rewrite length_app, length_map, length_seq. simpl. lia. }
    rewrite columnStep_fill.
    + unfold rawSamples at 3 4. rewrite seq_S, map_app, concat_app. simpl.
      rewrite app_nil_r, fold_left_app, map_app, drop_drop, <- app_assoc.
      replace (c * n + n) with (n + c * n) by lia. reflexivity.
    + rewrite length_map. exact Hraw.
    + rewrite length_drop, Hlen. nia.
Qed.

Lemma length_rawSamples (n width : nat) :
  length (rawSamples imageArray fr sampleRate w height width n) = width * n.
Proof.
  unfold rawSamples. induction width as [|c IH]; [reflexivity|].
  rewrite seq_S, map_app, concat_app, length_app, IH. simpl.
  unfold rawColumn. rewrite length_app, length_map, length_seq. simpl. lia.
Qed.

End SynthesisFacts.

Section SynthesisOutcome.
Local Open Scope R_scope.

Lemma synthesize_spec (limit : Z) (imageArray : list (list num))
    (sampleRate durationPerColumn lo hi : num) (w : waveShape) :
  let height := length imageArray in
  let width := length (default [] (imageArray !! 0%nat)) in
  let fr := freqs height lo hi in
  (0 < width)%nat ->
  synthesize limit imageArray sampleRate durationPerColumn lo hi w
  = match columnLength limit width
            (Math_floor (fl64 (jmul sampleRate durationPerColumn))) with
    | Some n =>
        Returns {| audio :=
                     map Math_fround
                         (rawSamples imageArray fr sampleRate w height width n);
                   maxAmplitude :=
                     fold_left peakStep
                       (rawSamples imageArray fr sampleRate w height width n)
                       (Fin 0) |}
    | None => Throws
    end.
Proof.
  intros height width fr Hw. unfold synthesize.
  fold height. fold width. fold fr.
  destruct (fl64 (jmul sampleRate durationPerColumn)) as [p| | |] eqn:Hp; simpl.
  - set (z := Zfloor p).
    assert (Htr : Ztrunc (IZR z * INR width) = (z * Z.of_nat width)%Z).
    { rewrite INR_IZR_INZ, <- mult_IZR. apply Ztrunc_IZR. }
    rewrite Htr, Zceil_IZR, Zfloor_IZR.
    assert (Hwz : (0 < Z.of_nat width)%Z) by lia.
    destruct (Rlt_dec (IZR z) 0) as [Hneg|Hpos].
    + apply lt_IZR in Hneg.
      destruct (Z_lt_dec (z * Z.of_nat width) 0) as [_|Hc]; [reflexivity | nia].
    + assert (Hz : (0 <= z)%Z) by (apply le_IZR; lra).
      destruct (Z_lt_dec (z * Z.of_nat width) 0) as [Hc|_]; [nia|].
      destruct (Z_lt_dec (maxLength limit) (z * Z.of_nat width)) as [_|Hfit];
        [reflexivity|]. simpl.
      rewrite (columns_fill _ _ _ _ _ _ width); [| lia |].
      * rewrite drop_ge, app_nil_r; [reflexivity|].
        rewrite repeat_length. nia.
      * rewrite repeat_length. nia.
  - unfold signed_inf.
    destruct (Rlt_dec 0 (INR width)) as [_|Hc]; [reflexivity|].
    exfalso. apply Hc. apply lt_0_INR. exact Hw.
  - unfold signed_inf.
    assert (0 < INR width) by (apply lt_0_INR; exact Hw).
    destruct (Rlt_dec 0 (- INR width)) as [Hc|_]; [lra|].
    destruct (Rlt_dec (- INR width) 0) as [_|Hc]; [reflexivity | lra].
  - rewrite (columns_fill _ _ _ _ _ _ width); [| lia | simpl; lia].
    rewrite drop_nil, app_nil_r. reflexivity.
Qed.

(** The number of samples of a column for finite settings: the floor of the
    binary64 product, when it is not negative and the signal fits. *)
Lemma columnLength_product (limit : Z) (width : nat) (s dd : R) :
  0 <= s * dd ->
  (0 < width)%nat ->
  (Zfloor (round64 (s * dd)) * Z.of_nat width <= maxLength limit)%Z ->
  columnLength limit width (Math_floor (fl64 (jmul (Fin s) (Fin dd))))
  = Some (Z.to_nat (Zfloor (round64 (s * dd)))).
Proof.
  intros Hp Hw Hfit.
  assert (Hr : 0 <= round64 (s * dd)) by (apply roundR_nonneg; exact Hp).
  assert (Hz : (0 <= Zfloor (round64 (s * dd)))%Z) by (apply Zfloor_lub; simpl; lra).
  assert (Hfl : fl64 (jmul (Fin s) (Fin dd)) = Fin (round64 (s * dd))).
  { change (jmul (Fin s) (Fin dd)) with (Fin (s * dd)).
    apply roundNum_Fin. fold (round64 (s * dd)).
    rewrite Rabs_pos_eq by exact Hr.
    assert (Hb : (Zfloor (round64 (s * dd)) <= 2 ^ 53 - 1)%Z)
      by (unfold maxLength in Hfit; nia).
    pose proof (Zfloor_bound (round64 (s * dd))) as Hub.
    apply IZR_le in Hb. rewrite minus_IZR in Hb.
    pose proof (pow2_le 53 1024 ltac:(lia)) as H53.
    rewrite (pow2_IZR 53) in H53 by lia. lra. }
  rewrite Hfl. simpl.
  destruct (Rlt_dec (IZR (Zfloor (round64 (s * dd)))) 0) as [Hc|_].
  - apply lt_IZR in Hc. lia.
  - rewrite Zfloor_IZR.
    destruct (Z_lt_dec (maxLength limit) (Zfloor (round64 (s * dd)) * Z.of_nat width))
      as [Hc|_]; [lia | reflexivity].
Qed.

Lemma length_normalize (st : synthState) :
  length (normalize st) = length (audio st).
Proof.
  unfold normalize. destruct (jgt _ _); [apply length_map | reflexivity].
Qed.

End SynthesisOutcome.

Section SignalLength.
Local Open Scope R_scope.

(** The length of the signal, once the number of samples of a column is
    known. *)
Lemma generate_returns (limit : Z) (imageArray : list (list num))
    (sr d lo hi : num) (w : waveShape) (n : nat) :
  (0 < length imageArray)%nat ->
  (0 < length (default [] (imageArray !! 0%nat)))%nat ->
  columnLength limit (length (default [] (imageArray !! 0%nat)))
               (Math_floor (fl64 (jmul sr d))) = Some n ->
  exists signal : list num,
    generateAudioFromImage limit imageArray sr d lo hi w = Returns signal /\
    length signal = (length (default [] (imageArray !! 0%nat)) * n)%nat.
Proof.
  intros HH HW Hn. unfold generateAudioFromImage.
  destruct (decide (length (default [] (imageArray !! 0%nat)) = 0%nat
                    \/ length imageArray = 0%nat)) as [[?|?]|_]; [lia|lia|].
  rewrite synthesize_spec by exact HW. rewrite Hn. simpl.
  eexists. split; [reflexivity|].
  rewrite length_normalize. simpl. rewrite length_map. apply length_rawSamples.
Qed.

(** The allocation throws, and the engine with it, when no number of
    samples is possible. *)
Lemma generate_throws (limit : Z) (imageArray : list (list num))
    (sr d lo hi : num) (w : waveShape) :
  (0 < length imageArray)%nat ->
  (0 < length (default [] (imageArray !! 0%nat)))%nat ->
  columnLength limit (length (default [] (imageArray !! 0%nat)))
               (Math_floor (fl64 (jmul sr d))) = None ->
  generateAudioFromImage limit imageArray sr d lo hi w = Throws.
Proof.
  intros HH HW Hn. unfold generateAudioFromImage.
  destruct (decide (length (default [] (imageArray !! 0%nat)) = 0%nat
                    \/ length imageArray = 0%nat)) as [[?|?]|_]; [lia|lia|].
  rewrite synthesize_spec by exact HW. rewrite Hn. reflexivity.
Qed.

Lemma generate_length (limit : Z) (imageArray : list (list num))
    (s dd : R) (lo hi : num) (w : waveShape) :
  let W := length (default [] (imageArray !! 0%nat)) in
  let n := Zfloor (round64 (s * dd)) in
  (0 < length imageArray)%nat -> (0 < W)%nat ->
  0 <= s * dd ->
  (Z.of_nat W * n <= maxLength limit)%Z ->
  exists signal : list num,
    generateAudioFromImage limit imageArray (Fin s) (Fin dd) lo hi w
    = Returns signal /\
    length signal = (W * Z.to_nat n)%nat.
Proof.
  intros W n HH HW Hp Hfit. apply generate_returns; [exact HH | exact HW |].
  apply columnLength_product; [exact Hp | exact HW | fold W n; lia].
Qed.

(** The double nearest [0.3], [5404319552844595 * 2^-54], times 10 is
    [3 - 2^-53 * 10 / 4] in the reals and rounds to 3. *)
Lemma round64_ten_times_three_tenths :
  round64 (10 * (5404319552844595 / 18014398509481984)) = 3.
Proof.
  unfold round64.
  rewrite (roundR_eval 53 (-1022) 1 6755399441055744).
  - change (1 - 53 + 1)%Z with (Z.opp 51). rewrite pow2_neg_IZR by lia.
    change (2 ^ 51)%Z with 2251799813685248%Z. lra.
  - lia.
  - rewrite Rabs_pos_eq by lra.
    change (1 + 1)%Z with 2%Z. rewrite !pow2_IZR by lia.
    change (2 ^ 1)%Z with 2%Z. change (2 ^ 2)%Z with 4%Z. lra.
  - change (1 - 53 + 1)%Z with (Z.opp 51). rewrite pow2_neg_IZR by lia.
    change (2 ^ 51)%Z with 2251799813685248%Z.
    replace (10 * (5404319552844595 / 18014398509481984) / / 2251799813685248
             - 6755399441055744) with (- (1 / 4)) by lra.
    rewrite Rabs_Ropp, Rabs_pos_eq by lra. lra.
Qed.

(** A product of at least [2^54] stays at least [2^53] when rounded. *)
Lemma round64_large (x : R) : IZR (2 ^ 54) <= x -> IZR (2 ^ 53) <= round64 x.
Proof.
  intros Hx. pose proof (roundR_abs_lower 53 (-1022) x) as Hl.
  assert (H0 : 0 <= x) by (apply Rle_trans with (IZR (2 ^ 54)); [apply IZR_le; lia | exact Hx]).
  rewrite (Rabs_pos_eq x) in Hl by exact H0.
  rewrite (Rabs_pos_eq (roundR 53 (-1022) x)) in Hl by (apply roundR_nonneg; exact H0).
  pose proof (pow2_le_1 (-1022 - 53) ltac:(lia)) as H1.
  assert (H2 : powerRZ 2 (Z.opp 53) <= 1 / 4).
  { apply Rle_trans with (powerRZ 2 (Z.opp 2)); [apply pow2_le; lia|].
    rewrite pow2_neg_IZR by lia. change (2 ^ 2)%Z with 4%Z. lra. }
  pose proof (pow2_pos (Z.opp 53)) as H3.
  change (2 ^ 54)%Z with 18014398509481984%Z in Hx.
  change (2 ^ 53)%Z with 9007199254740992%Z.
  unfold round64. nra.
Qed.

End SignalLength.

(** C2: with [H] rows and a first row of [W] cells, [H > 0] and [W > 0], a
    finite sample rate and column duration whose product is not negative,
    the engine returns a signal of [W * n] samples, where [n] is the floor
    of the binary64 product [sampleRate * durationPerColumn], provided an
    array of [W * n] elements can be allocated; when [W = 0] or [H = 0] it
    returns the empty signal and no error, whatever the settings. *)
Theorem generateAudioFromImage_length (limit : Z) (imageArray : list (list num))
    (sampleRate durationPerColumn : R) (lo hi : num) (w : waveShape) :
  let H := length imageArray in
  let W := length (default [] (imageArray !! 0%nat)) in
  let n := Zfloor (round64 (sampleRate * durationPerColumn)) in
  ((0 < H)%nat -> (0 < W)%nat ->
   (0 <= sampleRate * durationPerColumn)%R ->
   (Z.of_nat W * n <= maxLength limit)%Z ->
   exists signal : list num,
     generateAudioFromImage limit imageArray (Fin sampleRate)
                            (Fin durationPerColumn) lo hi w = Returns signal /\
     length signal = (W * Z.to_nat n)%nat) /\
  (W = 0%nat \/ H = 0%nat ->
   forall sr d : num,
     generateAudioFromImage limit imageArray sr d lo hi w = Returns []).
Proof.
  intros H W n. split.
  - intros HH HW Hprod Hfit. apply generate_length; assumption.
  - intros Hz sr d. unfold generateAudioFromImage. fold H. fold W.
    destruct (decide (W = 0%nat \/ H = 0%nat)) as [_|Hc]; [reflexivity | tauto].
Qed.

Lemma generateAudioFromImage_length_witness :
  exists signal : list num,
    generateAudioFromImage 1000 [[Fin 1; Fin 0]; [Fin 0; Fin 1]] (Fin 8) (Fin (1 / 4))
                           (Fin 1) (Fin 3) ws_sin = Returns signal /\
    length signal = 4%nat.
Proof.
  assert (Hn : Zfloor (round64 (8 * (1 / 4))) = 2%Z).
  { replace (8 * (1 / 4))%R with (IZR 2) by lra.
    rewrite round64_int by (simpl; lia). apply Zfloor_IZR. }
  destruct (generateAudioFromImage_length 1000 [[Fin 1; Fin 0]; [Fin 0; Fin 1]]
              8 (1 / 4) (Fin 1) (Fin 3) ws_sin) as [Hlen _].
  destruct Hlen as (signal & Hs & Hl).
  - simpl; lia.
  - simpl; lia.
  - lra.
  - rewrite Hn. vm_compute. discriminate.
  - exists signal. split; [exact Hs|]. rewrite Hl, Hn. reflexivity.
Defined.

(** C2, the cases the claim leaves out.  A duration of [2^100] seconds at
    44100 Hz asks for more samples than any array holds, and the engine
    throws; so it does for a negative duration; and at 10 Hz with the
    double nearest [0.3] for a duration the signal has 3 samples per column,
    the floor of the rounded product, where the floor of the product of the
    two numbers is 2. *)
Lemma generateAudioFromImage_length_counterexample :
  (forall limit : Z,
     generateAudioFromImage limit [[Fin 1]; [Fin 1]] (Fin 44100) (Fin (IZR (2 ^ 100)))
                            (Fin 400) (Fin 2400) ws_sin = Throws) /\
  (forall limit : Z,
     generateAudioFromImage limit [[Fin 1]; [Fin 1]] (Fin 44100) (Fin (-1))
                            (Fin 400) (Fin 2400) ws_sin = Throws) /\
  (exists signal : list num,
     generateAudioFromImage 1000 [[Fin 1]; [Fin 1]] (Fin 10)
                            (Fin (5404319552844595 / 18014398509481984))
                            (Fin 1) (Fin 3) ws_sin = Returns signal /\
     length signal = 3%nat /\
     Zfloor (10 * (5404319552844595 / 18014398509481984)) = 2%Z).
Proof.
  split; [|split].
  - intros limit. apply generate_throws; [simpl; lia | simpl; lia |].
    change (jmul (Fin 44100) (Fin (IZR (2 ^ 100))))
      with (Fin (44100 * IZR (2 ^ 100))).
    assert (Hbig : (IZR (2 ^ 54) <= 44100 * IZR (2 ^ 100))%R).
    { apply Rle_trans with (1 * IZR (2 ^ 100))%R; [|apply Rmult_le_compat_r;
        [apply IZR_le; lia | lra]].
      rewrite Rmult_1_l. apply IZR_le. lia. }
    pose proof (round64_large _ Hbig) as Hr.
    destruct (roundNum_cases 53 (-1022) 1024 (44100 * IZR (2 ^ 100)))
      as [[Hfl _]|[[Hfl _]|[Hfl [Hneg _]]]].
    + unfold fl64. rewrite Hfl. fold (round64 (44100 * IZR (2 ^ 100))).
      cbn [Math_floor columnLength].
      assert (Hz : (2 ^ 53 <= Zfloor (round64 (44100 * IZR (2 ^ 100))))%Z)
        by (apply Zfloor_lub; exact Hr).
      destruct (Rlt_dec _ 0) as [_|_]; [reflexivity|].
      rewrite Zfloor_IZR.
      destruct (Z_lt_dec _ _) as [_|Hc]; [reflexivity|].
      exfalso. apply Hc. unfold maxLength. cbn [length default lookup]. simpl length. lia.
    + unfold fl64. rewrite Hfl. reflexivity.
    + exfalso.
      assert (0 < IZR (2 ^ 54))%R by (apply IZR_lt; lia). lra.
  - intros limit. apply generate_throws; [simpl; lia | simpl; lia |].
    replace (jmul (Fin 44100) (Fin (-1))) with (Fin (IZR (- 44100)))
      by (simpl; f_equal; lra).
    rewrite fl64_int by (simpl; lia).
    cbn [Math_floor columnLength]. rewrite Zfloor_IZR.
    destruct (Rlt_dec _ 0) as [_|Hc]; [reflexivity|].
    exfalso. apply Hc. apply IZR_lt. lia.
  - assert (Hn : Zfloor (round64 (10 * (5404319552844595 / 18014398509481984))) = 3%Z).
    { rewrite round64_ten_times_three_tenths. apply Zfloor_IZR. }
    destruct (generate_length 1000 [[Fin 1]; [Fin 1]] 10
                (5404319552844595 / 18014398509481984) (Fin 1) (Fin 3) ws_sin)
      as (signal & Hs & Hl).
    + simpl; lia.
    + simpl; lia.
    + lra.
    + rewrite Hn. vm_compute. discriminate.
    + exists signal. split; [exact Hs|]. split.
      * rewrite Hl, Hn. reflexivity.
      * apply Zfloor_eq. simpl. lra.
Qed.

Section SilentImage.
Local Open Scope R_scope.

Lemma cell_all_zero (imageArray : list (list num)) (row col : nat) (a : num) :
  all_zero imageArray -> cell imageArray row col = Some a -> a = Fin 0.
Proof.
  unfold all_zero, cell. intros Hall Hc.
  destruct (imageArray !! row) as [r|] eqn:Hr; [|discriminate].
  rewrite Forall_lookup in Hall. specialize (Hall _ _ Hr).
  rewrite Forall_lookup in Hall. exact (Hall _ _ Hc).
Qed.

Lemma sampleAt_all_zero (imageArray : list (list num)) (fr : list num)
    (sampleRate : num) (w : waveShape) (height col t_idx : nat) :
  all_zero imageArray ->
  sampleAt imageArray fr sampleRate w height col t_idx = Fin 0.
Proof.
  intros Hall. unfold sampleAt.
  generalize (jdiv (of_nat t_idx) sampleRate) as time. intros time.
  generalize (seq 0 height) as rows.
  induction rows as [|row rows IH]; [reflexivity|]. cbn [fold_left].
  replace (rowStep imageArray fr w time col (Fin 0) row)
    with (Fin 0); [exact IH|].
  unfold rowStep.
  destruct (cell imageArray row col) as [a|] eqn:Hc; [|reflexivity].
  rewrite (cell_all_zero _ _ _ _ Hall Hc), jgt_zero_zero. reflexivity.
Qed.

Lemma rawSamples_all_zero (imageArray : list (list num)) (fr : list num)
    (sampleRate : num) (w : waveShape) (height width n : nat) :
  all_zero imageArray ->
  rawSamples imageArray fr sampleRate w height width n
  = repeat (Fin 0) (width * n).
Proof.
  intros Hall. unfold rawSamples.
  assert (Hcol : forall col,
             rawColumn imageArray fr sampleRate w height n col = repeat (Fin 0) n).
  { intros col. unfold rawColumn.
    generalize 0%nat as start. induction n as [|n IH]; intros start; [reflexivity|].
    simpl. rewrite sampleAt_all_zero by exact Hall. f_equal. apply IH. }
  generalize 0%nat as start. induction width as [|c IH]; intros start; [reflexivity|].
  simpl. rewrite Hcol, IH, <- repeat_app. reflexivity.
Qed.

Lemma peak_of_zeros (k : nat) :
  fold_left peakStep (repeat (Fin 0) k) (Fin 0) = Fin 0.
Proof.
  induction k as [|k IH]; [reflexivity|]. simpl.
  replace (peakStep (Fin 0) (Fin 0)) with (Fin 0); [exact IH|].
  unfold peakStep, Math_abs. rewrite Rabs_R0, jgt_zero_zero. reflexivity.
Qed.

Lemma fround_zeros (k : nat) :
  map Math_fround (repeat (Fin 0) k) = repeat (Fin 0) k.
Proof.
  induction k as [|k IH]; [reflexivity|].
  cbn [repeat map]. rewrite Math_fround_0, IH. reflexivity.
Qed.

End SilentImage.

(** C9: for an image whose cells are all 0 the engine never diverges, every
    sample of a returned signal is exactly 0 (so no [NaN]), the peak the
    loops track is 0, so that the normalization pass and its division are
    skipped, and with a finite non-negative [sampleRate * durationPerColumn]
    whose samples fit an array the signal is returned: [W * n] zeros, [n]
    the floor of the binary64 product. *)
Theorem all_zero_image_is_silent (limit : Z) (imageArray : list (list num))
    (sampleRate durationPerColumn lo hi : num) (w : waveShape) :
  all_zero imageArray ->
  let W := length (default [] (imageArray !! 0%nat)) in
  generateAudioFromImage limit imageArray sampleRate durationPerColumn lo hi w
    <> Diverges /\
  (forall signal : list num,
     generateAudioFromImage limit imageArray sampleRate durationPerColumn lo hi w
       = Returns signal ->
     Forall (fun s => s = Fin 0) signal) /\
  ((0 < W)%nat ->
   forall st : synthState,
     synthesize limit imageArray sampleRate durationPerColumn lo hi w
       = Returns st ->
     maxAmplitude st = Fin 0 /\ jgt (maxAmplitude st) (Fin 0) = false /\
     normalize st = audio st) /\
  (forall s dd : R,
     sampleRate = Fin s -> durationPerColumn = Fin dd -> (0 <= s * dd)%R ->
     (0 < length imageArray)%nat ->
     (Z.of_nat W * Zfloor (round64 (s * dd)) <= maxLength limit)%Z ->
     generateAudioFromImage limit imageArray sampleRate durationPerColumn lo hi w
       = Returns (repeat (Fin 0) (W * Z.to_nat (Zfloor (round64 (s * dd)))))).
Proof.
  intros Hall W.
  assert (Hsyn : (0 < W)%nat ->
            forall st : synthState,
              synthesize limit imageArray sampleRate durationPerColumn lo hi w
                = Returns st ->
              (exists k : nat, audio st = repeat (Fin 0) k) /\
              maxAmplitude st = Fin 0).
  { intros HW st. rewrite synthesize_spec by exact HW.
    destruct (columnLength _ _ _) as [n|]; [|discriminate].
    intros [= <-]. simpl. rewrite rawSamples_all_zero by exact Hall.
    split; [eexists; apply fround_zeros | apply peak_of_zeros]. }
  assert (Hnorm : forall st : synthState,
            maxAmplitude st = Fin 0 -> normalize st = audio st).
  { intros st Hm. unfold normalize. rewrite Hm, jgt_zero_zero. reflexivity. }
  unfold generateAudioFromImage. fold W.
  destruct (decide (W = 0%nat \/ length imageArray = 0%nat)) as [Hz|Hnz].
  - assert (HW0 : W = 0%nat).
    { destruct Hz as [Hz|Hz]; [exact Hz|].
      subst W. destruct imageArray; [reflexivity | discriminate]. }
    split; [discriminate|]. split; [intros signal [= <-]; constructor|].
    split; [intros HW; lia|]. intros s dd _ _ _ HH _.
    rewrite HW0. reflexivity.
  - assert (HW : (0 < W)%nat) by lia. specialize (Hsyn HW).
    destruct (synthesize limit imageArray sampleRate durationPerColumn lo hi w)
      as [st| |] eqn:Hst.
    + destruct (Hsyn st eq_refl) as [[k Hk] Hm]. simpl.
      split; [discriminate|]. split.
      { intros signal [= <-]. rewrite (Hnorm st Hm), Hk.
        apply Forall_forall. intros x Hx.
        apply list_elem_of_In, repeat_spec in Hx. exact Hx. }
      split.
      { intros _ st' [= <-]. rewrite Hm. split; [reflexivity|].
        split; [apply jgt_zero_zero | apply Hnorm, Hm]. }
      intros s dd -> -> Hp _ Hfit. rewrite synthesize_spec in Hst by exact HW.
      rewrite columnLength_product in Hst by (first [exact Hp | exact HW | fold W; lia]).
      injection Hst as <-. rewrite Hnorm by (simpl; rewrite rawSamples_all_zero by exact Hall; apply peak_of_zeros).
      simpl. rewrite rawSamples_all_zero by exact Hall. rewrite fround_zeros.
      reflexivity.
    + simpl. split; [discriminate|]. split; [discriminate|].
      split; [intros _ st [=]|].
      intros s dd -> -> Hp _ Hfit. rewrite synthesize_spec in Hst by exact HW.
      rewrite columnLength_product in Hst by (first [exact Hp | exact HW | fold W; lia]).
      discriminate.
    + exfalso. rewrite synthesize_spec in Hst by exact HW.
      destruct (columnLength _ _ _); discriminate.
Qed.

Lemma all_zero_image_is_silent_witness :
  generateAudioFromImage 1000 [[Fin 0; Fin 0]; [Fin 0; Fin 0]] (Fin 8) (Fin (1 / 4))
                         (Fin 1) (Fin 3) ws_sin
  = Returns (repeat (Fin 0) (2 * Z.to_nat (Zfloor (round64 (8 * (1 / 4)))))).
Proof.
  refine (proj2 (proj2 (proj2
    (all_zero_image_is_silent 1000 [[Fin 0; Fin 0]; [Fin 0; Fin 0]] (Fin 8)
       (Fin (1 / 4)) (Fin 1) (Fin 3) ws_sin _))) 8%R (1 / 4)%R eq_refl eq_refl _ _ _).
  - repeat constructor.
  - lra.
  - simpl. lia.
  - replace (8 * (1 / 4))%R with (IZR 2) by lra.
    rewrite round64_int by (simpl; lia). rewrite Zfloor_IZR.
    vm_compute. discriminate.
Defined.

Section FrequencyMapping.
Local Open Scope R_scope.

(** With at least two rows, row [r] gets
    [maxFreq - (r / (H - 1)) * (maxFreq - minFreq)]. *)
Lemma freqs_lookup (H r : nat) (lo hi : R) :
  (2 <= H)%nat -> (r < H)%nat ->
  freqs H (Fin lo) (Fin hi) !! r
  = Some (Fin (hi - INR r / (INR H - 1) * (hi - lo))).
Proof.
  intros HH Hr. unfold freqs.
  rewrite list_lookup_fmap, lookup_seq_lt by exact Hr. simpl.
  assert (2 <= INR H) by (apply (le_INR 2 H); exact HH).
  destruct (Req_dec_T (INR H + - (1)) 0) as [Hc|_]; [lra|]. reflexivity.
Qed.

Lemma freqs_ends (H : nat) (lo hi : R) :
  (2 <= H)%nat ->
  freqs H (Fin lo) (Fin hi) !! 0%nat = Some (Fin hi) /\
  freqs H (Fin lo) (Fin hi) !! (H - 1)%nat = Some (Fin lo).
Proof.
  intros HH.
  assert (2 <= INR H) by (apply (le_INR 2 H); exact HH).
  rewrite !freqs_lookup by lia. split; f_equal; f_equal.
  - simpl. lra.
  - rewrite minus_INR by lia. simpl. field. lra.
Qed.

End FrequencyMapping.

(** C7: for a single-row image the frequency table is [[NaN]], whatever
    [minFreq] and [maxFreq] are (the division [0 / (1 - 1)]), not
    [[maxFreq]]; the one-row image [[[1]]] at 8 Hz with a quarter second
    per column is synthesized to two [NaN] samples, wherever an array of two
    elements can be allocated. *)
Theorem freqs_single_row (lo hi : num) :
  freqs 1 lo hi = [NaN] /\
  forall limit : Z,
    (2 <= maxLength limit)%Z ->
    generateAudioFromImage limit [[Fin 1]] (Fin 8) (Fin (1 / 4)) (Fin 1) (Fin 3)
                           ws_sin
    = Returns [NaN; NaN].
Proof.
  assert (Hfr : forall a b : num, freqs 1 a b = [NaN]).
  { intros a b. unfold freqs. simpl. f_equal.
    destruct (Req_dec_T (1 + - (1)) 0) as [_|Hc]; [|exfalso; apply Hc; lra].
    unfold signed_inf.
    destruct (Rlt_dec 0 0) as [Hc|_]; [exfalso; lra|].
    destruct a, b; reflexivity. }
  split; [apply Hfr|]. intros limit Hlimit.
  assert (Hn : Zfloor (round64 (8 * (1 / 4))) = 2%Z).
  { replace (8 * (1 / 4))%R with (IZR 2) by lra.
    rewrite round64_int by (simpl; lia). apply Zfloor_IZR. }
  unfold generateAudioFromImage.
  destruct (decide _) as [[Hc|Hc]|_]; [discriminate Hc | discriminate Hc |].
  rewrite synthesize_spec by (simpl; lia).
  rewrite columnLength_product by
    first [lra | simpl; lia | rewrite Hn; simpl length; lia].
  rewrite Hn.
  change (Z.to_nat 2) with 2%nat. simpl length. rewrite Hfr.
  assert (Hs : forall t : nat,
            sampleAt [[Fin 1]] [NaN] (Fin 8) ws_sin 1 0 t = NaN).
  { intros t. unfold sampleAt. cbn [seq fold_left]. unfold rowStep. simpl.
    destruct (Rlt_dec 0 1) as [_|Hc]; [|exfalso; apply Hc; lra].
    destruct (Req_dec_T 8 0) as [Hc|_]; [exfalso; lra | reflexivity]. }
  unfold rawSamples, rawColumn. cbn [seq map concat app]. rewrite !Hs.
  unfold normalize. simpl.
  destruct (Rlt_dec 0 0) as [Hc|_]; [exfalso; lra | reflexivity].
Qed.

Lemma freqs_single_row_witness :
  generateAudioFromImage 1000 [[Fin 1]] (Fin 8) (Fin (1 / 4)) (Fin 1) (Fin 3) ws_sin
  = Returns [NaN; NaN].
Proof.
  apply (proj2 (freqs_single_row (Fin 1) (Fin 3)) 1000%Z).
  vm_compute. discriminate.
Defined.

Section PeakNormalization.
Local Open Scope R_scope.





Section RowLoop.

Variables (imageArray : list (list num)) (fr : list num) (w : waveShape)
          (time : R) (col : nat).

Hypothesis Hcells : Forall (Forall unit_cell) imageArray.
Hypothesis Hfr : forall row : nat,
  (row < length imageArray)%nat -> is_finite (default NaN (fr !! row)).



Hypothesis Hwave : forall row : nat,
  (row < length imageArray)%nat ->
  exists f u : R,
    fr !! row = Some (Fin f) /\ waveSample w (Fin f) (Fin time) = Fin u /\ 0 <= u.




End RowLoop.

Section Tolerance.

Lemma pow2_m24 : powerRZ 2 (Z.opp 24) = / 16777216.
Proof. rewrite pow2_neg_IZR by lia. reflexivity. Qed.

Lemma pow2_m50 : powerRZ 2 (Z.opp 50) = / 1125899906842624.
Proof. rewrite pow2_neg_IZR by lia. reflexivity. Qed.

Lemma pow2_m22 : powerRZ 2 (-22) = / 4194304.
Proof. change (-22)%Z with (Z.opp 22). rewrite pow2_neg_IZR by lia. reflexivity. Qed.

Lemma pow2_m150 : powerRZ 2 (-126 - 24) = / 16777216 * powerRZ 2 (-126).
Proof.
  replace (-126 - 24)%Z with (Z.opp 24 + -126)%Z by lia.
  rewrite pow2_add, pow2_m24. reflexivity.
Qed.

Lemma round32_abs_upper (x : R) :
  Rabs (round32 x) <= (1 + / 16777216) * Rabs x + / 16777216 * powerRZ 2 (-126).
Proof.
  pose proof (roundR_abs_upper 24 (-126) x) as Hu.
  rewrite pow2_m24, pow2_m150 in Hu. exact Hu.
Qed.

Lemma round32_abs_lower (x : R) :
  (1 - / 16777216) * Rabs x - / 16777216 * powerRZ 2 (-126) <= Rabs (round32 x).
Proof.
  pose proof (roundR_abs_lower 24 (-126) x) as Hl.
  rewrite pow2_m24, pow2_m150 in Hl. exact Hl.
Qed.

Lemma round64_abs_upper (x : R) :
  Rabs (round64 x) <= (1 + / 1125899906842624) * Rabs x + / 1125899906842624.
Proof.
  pose proof (roundR_abs_upper 53 (-1022) x) as Hu.
  pose proof (pow2_le (Z.opp 53) (Z.opp 50) ltac:(lia)) as H1.
  pose proof (pow2_le (-1022 - 53) (Z.opp 50) ltac:(lia)) as H2.
  rewrite pow2_m50 in H1, H2. pose proof (Rabs_pos x) as Hx.
  unfold round64.
  apply Rle_trans with (1 := Hu).
  apply Rplus_le_compat; [|exact H2].
  apply Rmult_le_compat_r; [exact Hx | lra].
Qed.

Lemma round64_abs_lower (x : R) :
  (1 - / 1125899906842624) * Rabs x - / 1125899906842624 <= Rabs (round64 x).
Proof.
  pose proof (roundR_abs_lower 53 (-1022) x) as Hl.
  pose proof (pow2_le (Z.opp 53) (Z.opp 50) ltac:(lia)) as H1.
  pose proof (pow2_le (-1022 - 53) (Z.opp 50) ltac:(lia)) as H2.
  rewrite pow2_m50 in H1, H2. pose proof (Rabs_pos x) as Hx.
  unfold round64.
  apply Rle_trans with (2 := Hl).
  apply Rplus_le_compat; [|lra].
  apply Rmult_le_compat_r; [exact Hx | lra].
Qed.

Lemma pow2_m126_small : powerRZ 2 (-126) <= / 1125899906842624.
Proof. rewrite <- pow2_m50. apply pow2_le. lia. Qed.

(** One sample through the store and the normalization pass: the sample
    [x] is stored in binary32, divided by the peak [m] in binary64 and
    stored again.  With a peak in the normal range of binary32 the result
    is within [2^-22] of [x / m] in magnitude. *)
Lemma normalized_sample (x m : R) :
  powerRZ 2 (-126) <= m -> m <= powerRZ 2 100 -> Rabs x <= m ->
  exists z : R,
    Math_fround (fl64 (jdiv (Math_fround (Fin x)) (Fin m))) = Fin z /\
    Rabs z <= 1 + powerRZ 2 (-22) /\
    (Rabs x = m -> 1 - powerRZ 2 (-22) <= Rabs z) /\
    (0 <= x -> 0 <= z).
Proof.
  intros Hlow Hhigh Hx.
  pose proof (pow2_pos (-126)) as Hp126. pose proof pow2_m126_small as Hsmall.
  assert (Hm : 0 < m) by lra.
  rewrite Math_fround_Fin by lra.
  set (y := round32 x).
  pose proof (round32_abs_upper x) as Hyu. pose proof (round32_abs_lower x) as Hyl.
  fold y in Hyu, Hyl.
  assert (Hdiv : jdiv (Fin y) (Fin m) = Fin (y / m)).
  { simpl. destruct (Req_dec_T m 0) as [Hc|_]; [lra | reflexivity]. }
  rewrite Hdiv. set (q := y / m).
  assert (Hqabs : Rabs q * m = Rabs y).
  { unfold q, Rdiv. rewrite Rabs_mult, (Rabs_pos_eq (/ m))
      by (left; apply Rinv_0_lt_compat; exact Hm).
    rewrite Rmult_assoc, Rinv_l by lra. lra. }
  assert (Hqu : Rabs q <= 1 + 2 * / 16777216).
  { apply (Rmult_le_reg_r m); [exact Hm|]. rewrite Hqabs. lra. }
  assert (H2 : powerRZ 2 1 = 2) by (rewrite pow2_IZR by lia; reflexivity).
  rewrite fl64_Fin
    by (apply Rle_trans with (powerRZ 2 1); [rewrite H2; lra | apply pow2_le; lia]).
  set (q' := round64 q).
  pose proof (round64_abs_upper q) as Hq'u. pose proof (round64_abs_lower q) as Hq'l.
  fold q' in Hq'u, Hq'l.
  assert (Hq'2 : Rabs q' <= 2) by lra.
  rewrite Math_fround_Fin
    by (apply Rle_trans with (powerRZ 2 1); [rewrite H2; lra | apply pow2_le; lia]).
  exists (round32 q'). split; [reflexivity|].
  pose proof (round32_abs_upper q') as Hzu. pose proof (round32_abs_lower q') as Hzl.
  rewrite pow2_m22. split; [lra|]. split.
  - intros Hpeak. rewrite Hpeak in Hyl.
    assert (Hql : 1 - 2 * / 16777216 <= Rabs q).
    { apply (Rmult_le_reg_r m); [exact Hm|]. rewrite Hqabs. lra. }
    lra.
  - intros Hx0. apply roundR_nonneg. apply roundR_nonneg.
    apply Rmult_le_pos; [apply roundR_nonneg; exact Hx0|].
    left. apply Rinv_0_lt_compat. exact Hm.
Qed.

(** A sample that is 0 is still 0 after the normalization pass. *)
Lemma normalized_zero (m : R) :
  m <> 0 -> Math_fround (fl64 (jdiv (Fin 0) (Fin m))) = Fin 0.
Proof.
  intros Hm. unfold jdiv. destruct (Req_dec_T m 0) as [Hc|_]; [contradiction|].
  replace (0 / m) with 0 by (field; exact Hm).
  rewrite fl64_0. apply Math_fround_0.
Qed.

End Tolerance.

Lemma rawSamples_lookup (imageArray : list (list num)) (fr : list num)
    (sampleRate : num) (w : waveShape) (height width n col t : nat) :
  (col < width)%nat -> (t < n)%nat ->
  rawSamples imageArray fr sampleRate w height width n !! (col * n + t)%nat
  = Some (sampleAt imageArray fr sampleRate w height col t).
Proof.
  intros Hcol Ht. induction width as [|c IH]; [lia|].
  unfold rawSamples in *. rewrite seq_S, map_app, concat_app. cbn [map concat].
  rewrite app_nil_r.
  pose proof (length_rawSamples imageArray fr sampleRate w height n c) as Hlen.
  unfold rawSamples in Hlen.
  destruct (decide (col < c)%nat) as [Hlt|Hge].
  - rewrite lookup_app_l by (rewrite Hlen; nia). apply IH. exact Hlt.
  - assert (col = c) by lia. subst col.
    rewrite lookup_app_r by (rewrite Hlen; lia). rewrite Hlen.
    replace (c * n + t - c * n)%nat with t by lia.
    unfold rawColumn. rewrite list_lookup_fmap, lookup_seq_lt by exact Ht.
    reflexivity.
Qed.





Lemma peakStep_keep (m x : R) : Rabs x <= m -> peakStep (Fin m) (Fin x) = Fin m.
Proof.
  intros Hx. unfold peakStep, Math_abs, jgt, jlt.
  destruct (Rlt_dec m (Rabs x)); [lra | reflexivity].
Qed.

Lemma peakStep_raise (m x : R) : m < Rabs x -> peakStep (Fin m) (Fin x) = Fin (Rabs x).
Proof.
  intros Hx. unfold peakStep, Math_abs, jgt, jlt.
  destruct (Rlt_dec m (Rabs x)); [reflexivity | lra].
Qed.

End PeakNormalization.

Section SineAtTimeZero.
Local Open Scope R_scope.



End SineAtTimeZero.



Section PeakCounterexamples.
Local Open Scope R_scope.





End PeakCounterexamples.


(** A worked example: the 2 by 2 scenario of section 8. *)

Section Scenario.
Local Open Scope R_scope.

Lemma scenario_freqs : freqs 2 (Fin 1) (Fin 3) = [Fin 3; Fin 1].
Proof.
  unfold freqs. simpl.
  destruct (Req_dec_T (1 + 1 + - (1)) 0) as [Hc|_]; [exfalso; lra|].
  f_equal; [|f_equal]; f_equal; field.
Qed.

Lemma scenario_sample (col t : nat) (f : R) :
  (col < 2)%nat ->
  default NaN ([Fin 3; Fin 1] !! col) = Fin f ->
  sampleAt [[Fin 1; Fin 0]; [Fin 0; Fin 1]] [Fin 3; Fin 1] (Fin 8) ws_sin 2 col t
  = Fin (sin (2 * PI * f * (INR t / 8))).
Proof.
  intros Hcol Hf. unfold sampleAt. cbn [seq fold_left]. unfold rowStep, cell.
  assert (Ht : jdiv (of_nat t) (Fin 8) = Fin (INR t / 8)).
  { simpl. destruct (Req_dec_T 8 0) as [Hc|_]; [exfalso; lra | reflexivity]. }
  rewrite Ht.
  destruct col as [|[|col]]; [| |lia]; simpl in Hf; injection Hf as <-;
    cbn [lookup list_lookup default from_option mbind option_bind];
    rewrite !(proj2 (jgt_Fin 1 0)) by lra; rewrite !jgt_zero_zero;
    cbn [lookup list_lookup default from_option waveSample Math_sin jmul jadd];
    f_equal; ring.
Qed.

(** The scenario of section 8: the 2 by 2 image [[[1, 0], [0, 1]]] at 8 Hz,
    a quarter second per column, frequencies from 1 to 3, sine: four
    samples, the first of each column 0 and the second at the peak, which
    is 1 within [2^-22]. *)
Example scenario_2x2 :
  exists y : R,
    generateAudioFromImage 1000 [[Fin 1; Fin 0]; [Fin 0; Fin 1]] (Fin 8)
                           (Fin (1 / 4)) (Fin 1) (Fin 3) ws_sin
    = Returns [Fin 0; Fin y; Fin 0; Fin y] /\
    Rabs (y - 1) <= powerRZ 2 (-22).
Proof.
  assert (Hn : Zfloor (round64 (8 * (1 / 4))) = 2%Z).
  { replace (8 * (1 / 4)) with (IZR 2) by lra.
    rewrite round64_int by (simpl; lia). apply Zfloor_IZR. }
  unfold generateAudioFromImage.
  destruct (decide _) as [[Hc|Hc]|_]; [discriminate Hc | discriminate Hc |].
  rewrite synthesize_spec by (simpl; lia).
  rewrite columnLength_product by
    first [lra | simpl; lia | rewrite Hn; vm_compute; discriminate].
  rewrite Hn.
  change (Z.to_nat 2) with 2%nat. simpl length. rewrite scenario_freqs.
  unfold rawSamples, rawColumn. cbn [seq map concat app].
  rewrite !(scenario_sample 0 _ 3), !(scenario_sample 1 _ 1) by (reflexivity || lia).
  simpl INR.
  replace (2 * PI * 3 * (0 / 8)) with 0 by field.
  replace (2 * PI * 1 * (0 / 8)) with 0 by field.
  replace (2 * PI * 3 * (1 / 8)) with (3 * (PI / 4)) by field.
  replace (2 * PI * 1 * (1 / 8)) with (PI / 4) by field.
  rewrite sin_0, sin_PI4, sin_3PI4.
  assert (Hs : 0 < sqrt 2 <= 2).
  { split; [apply sqrt_lt_R0; lra|].
    rewrite <- (sqrt_square 2) at 2 by lra. apply sqrt_le_1; lra. }
  assert (Ha : 1 / 2 <= 1 / sqrt 2 <= 1).
  { split.
    - apply (Rmult_le_reg_r (sqrt 2)); [lra|].
      replace (1 / sqrt 2 * sqrt 2) with 1 by (field; lra). lra.
    - apply (Rmult_le_reg_r (sqrt 2)); [lra|].
      replace (1 / sqrt 2 * sqrt 2) with 1 by (field; lra).
      assert (1 <= sqrt 2); [|lra].
      rewrite <- sqrt_1 at 1. apply sqrt_le_1; lra. }
  set (a := 1 / sqrt 2) in *.
  cbn [fold_left].
  rewrite (peakStep_keep 0 0) by (rewrite Rabs_R0; lra).
  rewrite (peakStep_raise 0 a) by (rewrite Rabs_pos_eq; lra).
  rewrite (Rabs_pos_eq a) by lra.
  rewrite (peakStep_keep a 0) by (rewrite Rabs_R0; lra).
  rewrite (peakStep_keep a a) by (rewrite Rabs_pos_eq; lra).
  unfold normalize. cbn [mbind outcome_bind audio maxAmplitude].
  rewrite (proj2 (jgt_Fin a 0)) by lra.
  cbn [map]. rewrite Math_fround_0, normalized_zero by lra.
  destruct (normalized_sample a a) as (z & -> & Hu & Hl & Hpos).
  - apply Rle_trans with (powerRZ 2 (Z.opp 1)); [apply pow2_le; lia|].
    rewrite pow2_neg_IZR by lia. change (2 ^ 1)%Z with 2%Z. lra.
  - apply Rle_trans with (powerRZ 2 0); [rewrite pow2_0; lra | apply pow2_le; lia].
  - rewrite Rabs_pos_eq; lra.
  - exists z. split; [reflexivity|].
    specialize (Hl ltac:(rewrite Rabs_pos_eq; lra)). specialize (Hpos ltac:(lra)).
    rewrite Rabs_pos_eq in Hu, Hl by exact Hpos.
    apply Rabs_le. lra.
Qed.
End Scenario.

Section AdvisorFacts.
Local Open Scope R_scope.

Lemma fold_jadd_Fin (xs : list R) (a : R) :
  fold_left (fun a b => jadd a b) (map Fin xs) (Fin a)
  = Fin (fold_left Rplus xs a).
Proof.
  revert a. induction xs as [|x xs IH]; intros a; [reflexivity|].
  simpl. apply IH.
Qed.

Lemma fold_variance_Fin (xs : list R) (mean a : R) :
  fold_left (fun a b => jadd a (Math_pow2 (jsub b (Fin mean)))) (map Fin xs) (Fin a)
  = Fin (fold_left (fun a x => a + (x + - mean) * (x + - mean)) xs a).
Proof.
  revert a. induction xs as [|x xs IH]; intros a; [reflexivity|].
  simpl. apply IH.
Qed.

Lemma fold_Rplus_bounds (xs : list R) (a : R) :
  Forall (fun x => 0 <= x <= 1) xs ->
  a <= fold_left Rplus xs a <= a + INR (length xs).
Proof.
  intros Hxs. revert a. induction Hxs as [|x xs Hx _ IH]; intros a.
  - simpl. lra.
  - cbn [fold_left]. specialize (IH (a + x)).
    change (length (x :: xs)) with (S (length xs)). rewrite S_INR. lra.
Qed.

Lemma fold_variance_nonneg (xs : list R) (mean a : R) :
  a <= fold_left (fun a x => a + (x + - mean) * (x + - mean)) xs a.
Proof.
  revert a. induction xs as [|x xs IH]; intros a; [simpl; lra|].
  cbn [fold_left]. specialize (IH (a + (x + - mean) * (x + - mean))).
  pose proof (Rle_0_sqr (x + - mean)) as Hsq. unfold Rsqr in Hsq. lra.
Qed.

Lemma fold_Rplus_repeat (x : R) (n : nat) (a : R) :
  fold_left Rplus (repeat x n) a = a + INR n * x.
Proof.
  revert a. induction n as [|n IH]; intros a.
  - simpl. lra.
  - cbn [repeat fold_left]. rewrite IH, S_INR. lra.
Qed.

Lemma fold_variance_repeat (x : R) (n : nat) (a : R) :
  fold_left (fun a y => a + (y + - x) * (y + - x)) (repeat x n) a = a.
Proof.
  revert a. induction n as [|n IH]; intros a; [reflexivity|].
  cbn [repeat fold_left]. rewrite IH. lra.
Qed.

Lemma unit_cells_values (l : list num) :
  Forall unit_cell l ->
  exists xs : list R, l = map Fin xs /\ Forall (fun x => 0 <= x <= 1) xs.
Proof.
  induction 1 as [|c l (x & -> & Hx) _ (xs & -> & Hxs)].
  - exists []. split; [reflexivity | constructor].
  - exists (x :: xs). split; [reflexivity | constructor; assumption].
Qed.

Lemma bound_below_1e21 (x : R) : Rabs x <= 20000 -> Rabs x < 10 ^ 21.
Proof.
  intros Hx. apply Rle_lt_trans with (1 := Hx).
  replace (10 ^ 21) with 1000000000000000000000 by (simpl; lra). lra.
Qed.

Lemma toFixed0_parseInt_Fin (x : R) :
  0 <= x <= 20000 ->
  toFixed0_parseInt (Fin x) = Fin (IZR (Zfloor (x + 1 / 2))).
Proof.
  intros Hx. unfold toFixed0_parseInt, round_half_away.
  destruct (Rlt_dec (Rabs x) (10 ^ 21)) as [_|Hc].
  - destruct (Rle_dec 0 x) as [_|Hc]; [reflexivity | lra].
  - exfalso. apply Hc, bound_below_1e21. rewrite Rabs_pos_eq; lra.
Qed.

Lemma toFixed1_parseFloat_Fin (x : R) :
  0 <= x <= 20000 ->
  toFixed1_parseFloat (Fin x) = Fin (IZR (Zfloor (x * 10 + 1 / 2)) / 10).
Proof.
  intros Hx. unfold toFixed1_parseFloat, round_half_away.
  destruct (Rlt_dec (Rabs x) (10 ^ 21)) as [_|Hc].
  - destruct (Rle_dec 0 (x * 10)) as [_|Hc]; [reflexivity | lra].
  - exfalso. apply Hc, bound_below_1e21. rewrite Rabs_pos_eq; lra.
Qed.

Lemma Zfloor_half (z : Z) : Zfloor (IZR z + 1 / 2) = z.
Proof. apply Zfloor_eq. lra. Qed.

Lemma Zfloor_between (lo hi : Z) (x : R) :
  IZR lo <= x <= IZR hi -> (lo <= Zfloor (x + 1 / 2) <= hi)%Z.
Proof.
  intros [Hlo Hhi]. split.
  - apply Zfloor_lub. lra.
  - rewrite <- (Zfloor_half hi). apply Zfloor_le. lra.
Qed.

Lemma length_concat_pos (imageArray : list (list num)) :
  (0 < length (default [] (imageArray !! 0%nat)))%nat ->
  (0 < length (concat imageArray))%nat.
Proof.
  destruct imageArray as [|row rest]; simpl; [lia|].
  rewrite length_app. lia.
Qed.

(** The patch computed from the flattened cells [xs]: the three values before
    rounding are [3 + 9 b], [max(20, 400 - 700 c)] and
    [min(20000, minFreq + 2000 + 30000 c)] for the mean [b] and the standard
    deviation [c] of [xs]. *)
Lemma analyze_values (imageArray : list (list num)) (xs : list R) :
  (0 < length imageArray)%nat ->
  (0 < length (default [] (imageArray !! 0%nat)))%nat ->
  concat imageArray = map Fin xs ->
  let N := INR (length xs) in
  let b := fold_left Rplus xs 0 / N in
  let c := sqrt (fold_left (fun a x => a + (x + - b) * (x + - b)) xs 0 / N) in
  analyzeImageForAudioSettings imageArray
  = Some {| duration := toFixed1_parseFloat (Fin (3 + b * 9));
            minFreq := toFixed0_parseInt (Math_max (Fin 20) (Fin (400 + - (c * 700))));
            maxFreq :=
              toFixed0_parseInt
                (Math_min (Fin 20000)
                   (jadd (Math_max (Fin 20) (Fin (400 + - (c * 700))))
                         (Fin (2000 + c * 30000)))) |}.
Proof.
  intros HH HW Hflat N b c. unfold analyzeImageForAudioSettings.
  destruct (decide _) as [[Hc|Hc]|_]; [lia | lia |].
  assert (HN : 0 < N).
  { subst N. apply lt_0_INR. pose proof (length_concat_pos _ HW) as Hl.
    rewrite Hflat, length_map in Hl. exact Hl. }
  rewrite Hflat, length_map, fold_jadd_Fin.
  assert (Hb : jdiv (Fin (fold_left Rplus xs 0)) (of_nat (length xs)) = Fin b).
  { unfold jdiv, of_nat. fold N.
    destruct (Req_dec_T N 0) as [Hc|_]; [lra | reflexivity]. }
  rewrite Hb, fold_variance_Fin.
  assert (Hv : Math_sqrt
                 (jdiv (Fin (fold_left (fun a x => a + (x + - b) * (x + - b)) xs 0))
                       (of_nat (length xs))) = Fin c).
  { unfold jdiv, of_nat. fold N.
    destruct (Req_dec_T N 0) as [Hc|_]; [lra|]. unfold Math_sqrt.
    destruct (Rle_dec 0 _) as [_|Hc]; [reflexivity|].
    exfalso. apply Hc. apply Rmult_le_pos.
    - apply fold_variance_nonneg.
    - left. apply Rinv_0_lt_compat. exact HN. }
  rewrite Hv. reflexivity.
Qed.

End AdvisorFacts.

Section AdvisorBounds.
Local Open Scope R_scope.

Lemma Math_max_20 (y : R) :
  exists mi : R, Math_max (Fin 20) (Fin y) = Fin mi /\ 20 <= mi /\ y <= mi /\
                 (y <= 400 -> mi <= 400).
Proof.
  unfold Math_max, jlt. destruct (Rlt_dec 20 y).
  - exists y. repeat split; lra.
  - exists 20. repeat split; lra.
Qed.

Lemma Math_min_20000 (y : R) :
  exists ma : R, Math_min (Fin 20000) (Fin y) = Fin ma /\ ma <= 20000 /\ ma <= y /\
                 forall lo : R, lo <= 20000 -> lo <= y -> lo <= ma.
Proof.
  unfold Math_min, jlt. destruct (Rlt_dec y 20000).
  - exists y. repeat split; try lra. intros; lra.
  - exists 20000. repeat split; try lra. intros; lra.
Qed.

End AdvisorBounds.

(** C10: for a non-empty matrix whose cells all lie in [[0, 1]] the advisor
    returns a patch of three finite values with
    [20 <= minFreq <= maxFreq <= 20000] and [3 <= duration <= 12]. *)
Theorem analyzeImageForAudioSettings_bounds (imageArray : list (list num)) :
  (0 < length imageArray)%nat ->
  (0 < length (default [] (imageArray !! 0%nat)))%nat ->
  Forall (Forall unit_cell) imageArray ->
  exists du mi ma : R,
    analyzeImageForAudioSettings imageArray
    = Some {| duration := Fin du; minFreq := Fin mi; maxFreq := Fin ma |} /\
    (20 <= mi)%R /\ (mi <= ma)%R /\ (ma <= 20000)%R /\
    (3 <= du)%R /\ (du <= 12)%R.
Proof.
  intros HH HW Hcells.
  destruct (unit_cells_values (concat imageArray)) as (xs & Hflat & Hxs).
  { apply Forall_concat. exact Hcells. }
  rewrite (analyze_values imageArray xs HH HW Hflat).
  assert (HN : (0 < INR (length xs))%R).
  { apply lt_0_INR. pose proof (length_concat_pos _ HW) as Hl.
    rewrite Hflat, length_map in Hl. exact Hl. }
  set (N := INR (length xs)) in *.
  set (b := (fold_left Rplus xs 0 / N)%R).
  set (c := sqrt (fold_left (fun a x => a + (x + - b) * (x + - b)) xs 0 / N)%R).
  assert (Hb : (0 <= b <= 1)%R).
  { pose proof (fold_Rplus_bounds xs 0 Hxs) as [Hlo Hhi]. fold N in Hhi.
    unfold b. split.
    - apply Rmult_le_pos; [lra|]. left. apply Rinv_0_lt_compat. exact HN.
    - apply (Rmult_le_reg_r N); [exact HN|]. unfold Rdiv.
      rewrite Rmult_assoc, Rinv_l by lra. lra. }
  assert (Hc : (0 <= c)%R) by apply sqrt_pos.
  destruct (Math_max_20 (400 + - (c * 700))) as (mi & -> & Hmi1 & Hmi2 & Hmi3).
  assert (Hmi4 : (mi <= 400)%R) by (apply Hmi3; lra).
  cbn [jadd].
  destruct (Math_min_20000 (mi + (2000 + c * 30000))) as (ma & -> & Hma1 & Hma2 & Hma3).
  assert (Hma4 : (mi <= ma)%R) by (apply Hma3; lra).
  rewrite !toFixed0_parseInt_Fin, toFixed1_parseFloat_Fin by lra.
  do 3 eexists. split; [reflexivity|].
  pose proof (Zfloor_between 20 400 mi ltac:(lra)) as [Hz1 _].
  pose proof (Zfloor_between 20 20000 ma ltac:(lra)) as [_ Hz2].
  pose proof (Zfloor_le (mi + 1 / 2) (ma + 1 / 2) ltac:(lra)) as Hz3.
  pose proof (Zfloor_between 30 120 ((3 + b * 9) * 10) ltac:(lra)) as [Hz4 Hz5].
  apply IZR_le in Hz1, Hz2, Hz3, Hz4, Hz5.
  repeat split; lra.
Qed.

Lemma analyzeImageForAudioSettings_bounds_witness :
  exists du mi ma : R,
    analyzeImageForAudioSettings [[Fin 1; Fin 0]; [Fin 0; Fin 1]]
    = Some {| duration := Fin du; minFreq := Fin mi; maxFreq := Fin ma |} /\
    (20 <= mi)%R /\ (mi <= ma)%R /\ (ma <= 20000)%R /\
    (3 <= du)%R /\ (du <= 12)%R.
Proof.
  apply (analyzeImageForAudioSettings_bounds [[Fin 1; Fin 0]; [Fin 0; Fin 1]]).
  - simpl. lia.
  - simpl. lia.
  - repeat constructor; eexists; (split; [reflexivity | lra]).
Defined.

Section UniformImage.
Local Open Scope R_scope.

Lemma concat_uniformMatrix (H W : nat) (x : R) :
  concat (uniformMatrix H W (Fin x)) = map Fin (repeat x (H * W)).
Proof.
  unfold uniformMatrix. induction H as [|H IH]; [reflexivity|].
  cbn [repeat concat]. rewrite IH.
  change (S H * W)%nat with (W + H * W)%nat.
  rewrite repeat_app, map_app. f_equal.
  clear. induction W as [|W IH]; [reflexivity|]. simpl. f_equal. exact IH.
Qed.

(** On a uniform matrix of value 0.5 the advisor computes brightness 0.5 and
    contrast 0 and returns duration 7.5, minFreq 400 and maxFreq
    [400 + 2000 = 2400]. *)
Lemma analyze_uniform_half (H W : nat) :
  (0 < H)%nat -> (0 < W)%nat ->
  analyzeImageForAudioSettings (uniformMatrix H W (Fin (1 / 2)))
  = Some {| duration := Fin (15 / 2); minFreq := Fin 400; maxFreq := Fin 2400 |}.
Proof.
  intros HH HW.
  assert (HN : 0 < INR (H * W)).
  { apply lt_0_INR. nia. }
  pose proof (analyze_values (uniformMatrix H W (Fin (1 / 2)))
                (repeat (1 / 2) (H * W))) as Hv.
  cbv zeta in Hv. rewrite repeat_length, fold_Rplus_repeat in Hv.
  replace ((0 + INR (H * W) * (1 / 2)) / INR (H * W)) with (1 / 2) in Hv
    by (field; lra).
  rewrite fold_variance_repeat in Hv.
  replace (0 / INR (H * W)) with 0 in Hv by (field; lra).
  rewrite sqrt_0 in Hv.
  rewrite Hv; clear Hv.
  - unfold Math_max, jlt.
    destruct (Rlt_dec 20 (400 + - (0 * 700))) as [_|Hc]; [|exfalso; lra].
    cbn [jadd]. unfold Math_min, jlt.
    destruct (Rlt_dec (400 + - (0 * 700) + (2000 + 0 * 30000)) 20000) as [_|Hc];
      [|exfalso; lra].
    rewrite !toFixed0_parseInt_Fin, toFixed1_parseFloat_Fin by lra.
    replace (400 + - (0 * 700) + 1 / 2) with (IZR 400 + 1 / 2) by lra.
    replace (400 + - (0 * 700) + (2000 + 0 * 30000) + 1 / 2)
      with (IZR 2400 + 1 / 2) by lra.
    replace ((3 + 1 / 2 * 9) * 10 + 1 / 2) with (IZR 75 + 1 / 2) by lra.
    rewrite !Zfloor_half. do 2 f_equal. f_equal. lra.
  - unfold uniformMatrix. rewrite repeat_length. exact HH.
  - unfold uniformMatrix. destruct H; [lia|]. simpl. rewrite repeat_length. exact HW.
  - apply concat_uniformMatrix.
Qed.

End UniformImage.

(** C8, as the code has it: on every non-empty uniform matrix of value 0.5
    the advisor returns exactly duration 7.5, minFreq 400 and maxFreq 2400
    (brightness 0.5, contrast 0, so [freqRange] is 2000). *)
Theorem analyzeImageForAudioSettings_mid_gray (H W : nat) :
  (0 < H)%nat -> (0 < W)%nat ->
  analyzeImageForAudioSettings (uniformMatrix H W (Fin (1 / 2)))
  = Some {| duration := Fin (15 / 2); minFreq := Fin 400; maxFreq := Fin 2400 |}.
Proof. apply analyze_uniform_half. Qed.

Lemma analyzeImageForAudioSettings_mid_gray_witness :
  analyzeImageForAudioSettings (uniformMatrix 2 3 (Fin (1 / 2)))
  = Some {| duration := Fin (15 / 2); minFreq := Fin 400; maxFreq := Fin 2400 |}.
Proof.
  apply (analyzeImageForAudioSettings_mid_gray 2 3); lia.
Defined.

(** C8 fails as stated: on the one-cell matrix [[[0.5]]] the advisor returns
    maxFreq 2400, which is not 6400. *)
Lemma analyzeImageForAudioSettings_mid_gray_counterexample :
  exists p : settingsPatch,
    analyzeImageForAudioSettings [[Fin (1 / 2)]] = Some p /\
    duration p = Fin (15 / 2) /\ minFreq p = Fin 400 /\
    maxFreq p = Fin 2400 /\ maxFreq p <> Fin 6400.
Proof.
  eexists. split; [exact (analyze_uniform_half 1 1 ltac:(lia) ltac:(lia))|].
  simpl. repeat split. intros [= Hc]. lra.
Qed.

Section WavFacts.
Local Open Scope Z_scope.

Lemma length_le_bytes (n : nat) (v : Z) : length (le_bytes n v) = n.
Proof. revert v. induction n as [|n IH]; intros v; simpl; [reflexivity | f_equal; apply IH]. Qed.

Lemma le_value_le_bytes (n : nat) (v : Z) :
  le_value (le_bytes n v) = v mod 2 ^ (8 * Z.of_nat n).
Proof.
  revert v. induction n as [|n IH]; intros v.
  - simpl. rewrite Z.mod_1_r. reflexivity.
  - cbn [le_bytes le_value]. rewrite IH.
    replace (8 * Z.of_nat (S n)) with (8 + 8 * Z.of_nat n) by lia.
    rewrite Z.pow_add_r by lia. change (2 ^ 8) with 256.
    rewrite Z.rem_mul_r by lia. reflexivity.
Qed.

Lemma le_bytes_range (n : nat) (v : Z) :
  Forall (fun b => 0 <= b < 256) (le_bytes n v).
Proof.
  revert v. induction n as [|n IH]; intros v; simpl; constructor.
  - apply Z.mod_pos_bound. lia.
  - apply IH.
Qed.

Lemma storeBytes_fits (view : list Z) (offset : nat) (bs : list Z) :
  (offset + length bs <= length view)%nat ->
  storeBytes view offset bs = Returns (list_inserts offset bs view).
Proof.
  intros Hfit. unfold storeBytes.
  destruct (decide _) as [_|Hc]; [reflexivity | contradiction].
Qed.

Lemma ToUint_of_nat (bits : Z) (k : nat) :
  ToUint bits (of_nat k) = Z.of_nat k mod 2 ^ bits.
Proof. unfold ToUint, of_nat. rewrite Ztrunc_INR. reflexivity. Qed.

Lemma ToUint_of_Z (bits : Z) (z : Z) :
  ToUint bits (of_Z z) = z mod 2 ^ bits.
Proof. unfold ToUint, of_Z. rewrite Ztrunc_IZR. reflexivity. Qed.

Lemma length_tag (str : string) : length (tag str) = String.length str.
Proof.
  unfold tag. rewrite length_map.
  induction str as [|c str IH]; simpl; [reflexivity | f_equal; exact IH].
Qed.

Lemma writeString_fits (str : string) (view : list Z) (offset : nat) :
  (offset + String.length str <= length view)%nat ->
  writeString view offset str = Returns (list_inserts offset (tag str) view).
Proof.
  revert view offset. induction str as [|c str IH]; intros view offset Hfit.
  - reflexivity.
  - cbn [writeString]. unfold setUint8.
    rewrite storeBytes_fits by (simpl in *; lia).
    cbn [mbind outcome_bind list_inserts].
    rewrite IH by (rewrite length_insert; simpl in *; lia).
    f_equal. unfold tag. cbn [list_ascii_of_string map list_inserts].
    rewrite <- list_insert_inserts_lt by lia. f_equal.
    rewrite ToUint_of_nat. apply Z.mod_small.
    pose proof (nat_ascii_bounded c). change (2 ^ 8) with 256. lia.
Qed.

Lemma floatTo16BitPCM_append (input : list num) (pre rest : list Z) :
  length rest = (2 * length input)%nat ->
  floatTo16BitPCM (pre ++ rest) (length pre) input
  = Returns (pre ++ concat (map pcmBytes input)).
Proof.
  revert pre rest. induction input as [|x input IH]; intros pre rest Hlen.
  - destruct rest; [|discriminate]. reflexivity.
  - destruct rest as [|a [|b rest]]; simpl in Hlen; try lia.
    cbn [floatTo16BitPCM]. unfold setInt16.
    rewrite storeBytes_fits
      by (rewrite length_le_bytes, length_app; simpl; lia).
    cbn [mbind outcome_bind].
    replace (list_inserts (length pre) (le_bytes 2 (ToInt16 (pcmValue x) mod 2 ^ 16))
               (pre ++ a :: b :: rest))
      with ((pre ++ pcmBytes x) ++ rest).
    + replace (length pre + 2)%nat with (length (pre ++ pcmBytes x))
        by (rewrite length_app; unfold pcmBytes; rewrite length_le_bytes; reflexivity).
      rewrite IH by (simpl in Hlen; lia).
      cbn [map concat]. rewrite <- app_assoc. reflexivity.
    + replace (length pre) with (length pre + 0)%nat at 1 by lia.
      rewrite list_inserts_app_r, <- app_assoc. reflexivity.
Qed.

(** The buffer the encoder returns: header, then two bytes per sample. *)
Lemma encodeWAV_bytes (samples : list num) (sampleRate : num) :
  encodeWAV samples sampleRate
  = Returns (wavHeader (length samples) sampleRate ++ concat (map pcmBytes samples)).
Proof.
  unfold encodeWAV, setUint32, setUint16.
  set (n := length samples).
  set (chunkSize := ToUint 32 (jadd (Fin 36) (jmul (of_nat n) (Fin 2)))).
  set (rate := ToUint 32 sampleRate).
  set (byteRate := ToUint 32 (jmul sampleRate (Fin 2))).
  set (dataSize := ToUint 32 (jmul (of_nat n) (Fin 2))).
  assert (H16 : ToUint 32 (Fin 16) = 16).
  { change (Fin 16) with (of_Z 16). rewrite ToUint_of_Z. reflexivity. }
  assert (H1 : ToUint 16 (Fin 1) = 1).
  { change (Fin 1) with (of_Z 1). rewrite ToUint_of_Z. reflexivity. }
  assert (H2 : ToUint 16 (Fin 2) = 2).
  { change (Fin 2) with (of_Z 2). rewrite ToUint_of_Z. reflexivity. }
  assert (H16' : ToUint 16 (Fin 16) = 16).
  { change (Fin 16) with (of_Z 16). rewrite ToUint_of_Z. reflexivity. }
  rewrite H16, H1, H2, H16'.
  repeat (first
    [ rewrite writeString_fits
        by (rewrite ?length_inserts, repeat_length; simpl; lia)
    | rewrite storeBytes_fits
        by (rewrite ?length_inserts, repeat_length, length_le_bytes; simpl; lia) ];
    cbn [mbind outcome_bind]).
  replace (44 + n * 2)%nat with (44 + 2 * n)%nat by lia.
  change (repeat 0 (44 + 2 * n)) with (repeat 0 44 ++ repeat 0 (2 * n)).
  match goal with
  | |- floatTo16BitPCM ?v 44 samples = _ =>
      replace v with (wavHeader n sampleRate ++ repeat 0 (2 * n)%nat)
  end.
  - change 44%nat with (length (wavHeader n sampleRate)).
    apply floatTo16BitPCM_append. apply repeat_length.
  - unfold wavHeader. fold chunkSize rate byteRate dataSize.
    generalize (repeat 0 (2 * n)) as rest. intros rest.
    generalize chunkSize rate byteRate dataSize. intros c r b d.
    reflexivity.
Qed.

End WavFacts.

Section Quantization.
Local Open Scope R_scope.

Lemma Ztrunc_between (a b : Z) (y : R) :
  (a <= 0)%Z -> (0 <= b)%Z -> IZR a <= y <= IZR b -> (a <= Ztrunc y <= b)%Z.
Proof.
  intros Ha Hb [Hlo Hhi]. unfold Ztrunc.
  assert (H0 : IZR 0 = 0) by reflexivity.
  destruct (Rle_dec 0 y) as [Hy|Hy].
  - pose proof (Zfloor_bound y) as [Hf _].
    assert ((0 <= Zfloor y)%Z) by (apply Zfloor_lub; lra).
    assert ((Zfloor y <= b)%Z) by (apply le_IZR; lra). lia.
  - pose proof (Zceil_bound y) as [_ Hc].
    assert ((a <= Zceil y)%Z) by (apply le_IZR; lra).
    assert ((Zceil y <= 0)%Z).
    { unfold Zceil. assert ((0 <= Zfloor (- y))%Z) by (apply Zfloor_lub; lra). lia. }
    lia.
Qed.

Lemma int16_wrap (q : Z) :
  (-32768 <= q <= 32767)%Z -> int16_of (q mod 2 ^ 16) = q.
Proof.
  intros Hq. unfold int16_of. change (2 ^ 16)%Z with 65536%Z.
  change (2 ^ 15)%Z with 32768%Z.
  destruct (Z_lt_dec q 0) as [Hneg|Hpos].
  - replace (q mod 65536)%Z with (q + 65536)%Z.
    + destruct (Z_lt_dec (q + 65536) 32768); lia.
    + rewrite <- (Z_mod_plus_full q 1 65536). rewrite Z.mod_small; lia.
  - rewrite Z.mod_small by lia. destruct (Z_lt_dec q 32768); lia.
Qed.

Lemma ToInt16_int16_of (v : num) : ToInt16 v = int16_of (ToUint 16 v).
Proof. reflexivity. Qed.

Lemma pcm16_spec_range (x : num) : (-32768 <= pcm16_spec x <= 32767)%Z.
Proof.
  destruct x as [v| | |]; simpl; try lia.
  assert (Hs : -1 <= Rmax (-1) (Rmin 1 v) <= 1).
  { unfold Rmax, Rmin. destruct (Rle_dec 1 v); destruct (Rle_dec _ _); lra. }
  set (s := Rmax (-1) (Rmin 1 v)) in *.
  apply Ztrunc_between; [lia | lia |].
  destruct (Rlt_dec s 0); lra.
Qed.

(** The value the code stores is the value of section 4.5. *)
Lemma ToInt16_pcmValue (x : num) : ToInt16 (pcmValue x) = pcm16_spec x.
Proof.
  pose proof (pcm16_spec_range x) as Hr.
  destruct x as [v| | |].
  - assert (Hv : pcmValue (Fin v)
               = Fin (if Rlt_dec (Rmax (-1) (Rmin 1 v)) 0
                      then Rmax (-1) (Rmin 1 v) * 32768
                      else Rmax (-1) (Rmin 1 v) * 32767)).
    { unfold pcmValue, Math_min, Math_max, jlt, Rmax, Rmin.
      destruct (Rlt_dec v 1); destruct (Rle_dec 1 v); try lra.
      - destruct (Rlt_dec (-1) v); destruct (Rle_dec (-1) v); try lra.
        + destruct (Rlt_dec v 0); reflexivity.
        + assert (v = -1) by lra. subst v.
          destruct (Rlt_dec (-1) 0); [reflexivity | lra].
        + destruct (Rlt_dec (-1) 0); [reflexivity | lra].
      - destruct (Rlt_dec (-1) 1); destruct (Rle_dec (-1) 1); try lra.
        destruct (Rlt_dec 1 0); [lra | reflexivity]. }
    rewrite Hv. simpl in Hr. rewrite ToInt16_int16_of. unfold ToUint.
    apply int16_wrap. exact Hr.
  - unfold pcmValue, Math_min, Math_max, jlt.
    destruct (Rlt_dec (-1) 1) as [_|Hc]; [|exfalso; lra].
    destruct (Rlt_dec 1 0) as [Hc|_]; [exfalso; lra|].
    simpl jmul. rewrite ToInt16_int16_of. unfold ToUint.
    replace (1 * 32767) with (IZR 32767) by lra. rewrite Ztrunc_IZR.
    reflexivity.
  - unfold pcmValue, Math_min, Math_max, jlt.
    destruct (Rlt_dec (-1) 0) as [_|Hc]; [|exfalso; lra].
    simpl jmul. rewrite ToInt16_int16_of. unfold ToUint.
    replace (-1 * 32768) with (IZR (-32768)) by lra. rewrite Ztrunc_IZR.
    reflexivity.
  - reflexivity.
Qed.

Lemma int16_of_pcmBytes (x : num) :
  int16_of (le_value (pcmBytes x)) = pcm16_spec x.
Proof.
  unfold pcmBytes. rewrite le_value_le_bytes, Z.mod_mod by (simpl; lia).
  rewrite ToInt16_pcmValue. apply int16_wrap. apply pcm16_spec_range.
Qed.

End Quantization.

Section WavLayout.
Local Open Scope Z_scope.

Lemma ToUint_range (bits : Z) (v : num) : 0 <= bits -> 0 <= ToUint bits v < 2 ^ bits.
Proof.
  intros Hb. assert (0 < 2 ^ bits) by (apply Z.pow_pos_nonneg; lia).
  destruct v; simpl; try lia. apply Z.mod_pos_bound. lia.
Qed.

Lemma chunkSize_value (n : nat) :
  ToUint 32 (jadd (Fin 36) (jmul (of_nat n) (Fin 2)))
  = (36 + 2 * Z.of_nat n) mod 2 ^ 32.
Proof.
  replace (jadd (Fin 36) (jmul (of_nat n) (Fin 2))) with (of_Z (36 + 2 * Z.of_nat n)).
  - apply ToUint_of_Z.
  - unfold of_Z, of_nat. simpl. f_equal.
    rewrite plus_IZR, mult_IZR, <- INR_IZR_INZ. lra.
Qed.

Lemma dataSize_value (n : nat) :
  ToUint 32 (jmul (of_nat n) (Fin 2)) = (2 * Z.of_nat n) mod 2 ^ 32.
Proof.
  replace (jmul (of_nat n) (Fin 2)) with (of_Z (2 * Z.of_nat n)).
  - apply ToUint_of_Z.
  - unfold of_Z, of_nat. simpl. f_equal.
    rewrite mult_IZR, <- INR_IZR_INZ. lra.
Qed.

Lemma length_wavHeader (n : nat) (sampleRate : num) :
  length (wavHeader n sampleRate) = 44%nat.
Proof. reflexivity. Qed.

Lemma length_pcm_body (samples : list num) :
  length (concat (map pcmBytes samples)) = (2 * length samples)%nat.
Proof.
  induction samples as [|x samples IH]; [reflexivity|].
  cbn [map concat]. rewrite length_app, IH. simpl. lia.
Qed.

(** The fields of a buffer that starts with the header. *)
Lemma wavHeader_fields (n : nat) (sampleRate : num) (body : list Z) :
  let bytes := wavHeader n sampleRate ++ body in
  field bytes 0 4 = tag "RIFF" /\
  field bytes 4 4
    = le_bytes 4 (ToUint 32 (jadd (Fin 36) (jmul (of_nat n) (Fin 2)))) /\
  field bytes 8 4 = tag "WAVE" /\
  field bytes 12 4 = tag "fmt " /\
  field bytes 16 4 = le_bytes 4 16 /\
  field bytes 20 2 = le_bytes 2 1 /\
  field bytes 22 2 = le_bytes 2 1 /\
  field bytes 24 4 = le_bytes 4 (ToUint 32 sampleRate) /\
  field bytes 28 4 = le_bytes 4 (ToUint 32 (jmul sampleRate (Fin 2))) /\
  field bytes 32 2 = le_bytes 2 2 /\
  field bytes 34 2 = le_bytes 2 16 /\
  field bytes 36 4 = tag "data" /\
  field bytes 40 4 = le_bytes 4 (ToUint 32 (jmul (of_nat n) (Fin 2))) /\
  drop 44 bytes = body.
Proof.
  unfold wavHeader.
  generalize (ToUint 32 (jadd (Fin 36) (jmul (of_nat n) (Fin 2)))) as c.
  generalize (ToUint 32 sampleRate) as r.
  generalize (ToUint 32 (jmul sampleRate (Fin 2))) as b.
  generalize (ToUint 32 (jmul (of_nat n) (Fin 2))) as d.
  intros d b r c. repeat split.
Qed.

Lemma le_value_uint32 (v : num) : le_value (le_bytes 4 (ToUint 32 v)) = ToUint 32 v.
Proof.
  rewrite le_value_le_bytes. apply Z.mod_small.
  change (8 * Z.of_nat 4) with 32. apply ToUint_range. lia.
Qed.

Lemma sample_field (samples : list num) (header : list Z) (i : nat) (x : num) :
  length header = 44%nat ->
  samples !! i = Some x ->
  field (header ++ concat (map pcmBytes samples)) (44 + 2 * i) 2 = pcmBytes x.
Proof.
  intros Hh Hx. unfold field. rewrite drop_app_add' by (symmetry; exact Hh).
  revert i Hx. induction samples as [|y samples IH]; intros i Hx; [discriminate|].
  destruct i as [|i].
  - injection Hx as ->. reflexivity.
  - cbn [map concat].
    replace (2 * S i)%nat with (length (pcmBytes y) + 2 * i)%nat by (simpl; lia).
    rewrite drop_app_add. apply IH. exact Hx.
Qed.

Lemma tag_range (str : string) : Forall (fun b => 0 <= b < 256) (tag str).
Proof.
  unfold tag. apply Forall_map, Forall_forall. intros c _.
  pose proof (nat_ascii_bounded c). simpl. lia.
Qed.

Lemma encoded_bytes_range (samples : list num) (sampleRate : num) :
  Forall (fun b => 0 <= b < 256)
         (wavHeader (length samples) sampleRate ++ concat (map pcmBytes samples)).
Proof.
  apply Forall_app. split.
  - unfold wavHeader.
    repeat (apply Forall_app; split);
      first [apply tag_range | apply le_bytes_range].
  - apply Forall_concat, Forall_map, Forall_forall. intros x _.
    apply le_bytes_range.
Qed.

Lemma samples_decoded (samples : list num) (header : list Z) :
  length header = 44%nat ->
  map (fun k : nat =>
         int16_of (le_value (field (header ++ concat (map pcmBytes samples))
                                   (44 + 2 * k) 2)))
      (seq 0 (length samples))
  = map pcm16_spec samples.
Proof.
  intros Hh. apply list_eq. intros i. rewrite !list_lookup_fmap.
  destruct (samples !! i) as [x|] eqn:Hx.
  - rewrite lookup_seq_lt by (apply lookup_lt_Some in Hx; exact Hx).
    rewrite Nat.add_0_l. cbn [fmap option_fmap option_map].
    rewrite (sample_field _ _ _ _ Hh Hx), int16_of_pcmBytes. reflexivity.
  - rewrite lookup_seq_ge by (apply lookup_ge_None in Hx; exact Hx).
    reflexivity.
Qed.

End WavLayout.

(** C3: for every signal and sample rate the encoder returns (never throws)
    exactly [44 + 2 * sampleCount] bytes laid out as the table of section 6
    says: "RIFF", ChunkSize [36 + dataBytes], "WAVE", "fmt " of size 16, PCM
    format 1, 1 channel, the sample rate, the byte rate [sampleRate * 2],
    block align 2, 16 bits per sample, "data" of size [2 * sampleCount]
    (each 32-bit field holding its value as a little-endian uint32, that is
    modulo [2^32]: [r] and [2 r] for an integer rate [r]), then
    one little-endian int16 per sample: the sample clamped to [[-1, 1]],
    scaled by 32768 when negative and by 32767 otherwise, truncated toward
    zero.  Encoding [[1.0, -1.0]] at 8000 Hz gives the 48 bytes written
    out below, with 32767 in bytes 44-45 and -32768 in bytes 46-47. *)
Theorem encodeWAV_layout (samples : list num) (sampleRate : num) :
  (exists bytes : list Z,
     encodeWAV samples sampleRate = Returns bytes /\
     length bytes = (44 + 2 * length samples)%nat /\
     Forall (fun b => 0 <= b < 256)%Z bytes /\
     field bytes 0 4 = tag "RIFF" /\
     le_value (field bytes 4 4)
       = ((36 + 2 * Z.of_nat (length samples)) mod 2 ^ 32)%Z /\
     field bytes 8 4 = tag "WAVE" /\
     field bytes 12 4 = tag "fmt " /\
     le_value (field bytes 16 4) = 16%Z /\
     le_value (field bytes 20 2) = 1%Z /\
     le_value (field bytes 22 2) = 1%Z /\
     le_value (field bytes 24 4) = ToUint 32 sampleRate /\
     le_value (field bytes 28 4) = ToUint 32 (jmul sampleRate (Fin 2)) /\
     le_value (field bytes 32 2) = 2%Z /\
     le_value (field bytes 34 2) = 16%Z /\
     field bytes 36 4 = tag "data" /\
     le_value (field bytes 40 4)
       = ((2 * Z.of_nat (length samples)) mod 2 ^ 32)%Z /\
     map (fun k : nat => int16_of (le_value (field bytes (44 + 2 * k) 2)))
         (seq 0 (length samples))
     = map pcm16_spec samples) /\
  (forall r : Z,
     ToUint 32 (of_Z r) = (r mod 2 ^ 32)%Z /\
     ToUint 32 (jmul (of_Z r) (Fin 2)) = ((r * 2) mod 2 ^ 32)%Z) /\
  encodeWAV [Fin 1; Fin (-1)] (Fin 8000)
  = Returns [82; 73; 70; 70; 40; 0; 0; 0; 87; 65; 86; 69;
             102; 109; 116; 32; 16; 0; 0; 0; 1; 0; 1; 0;
             64; 31; 0; 0; 128; 62; 0; 0; 2; 0; 16; 0;
             100; 97; 116; 97; 4; 0; 0; 0;
             255; 127; 0; 128]%Z /\
  pcm16_spec (Fin 1) = 32767%Z /\ pcm16_spec (Fin (-1)) = (-32768)%Z /\
  int16_of (le_value [255; 127]%Z) = 32767%Z /\
  int16_of (le_value [0; 128]%Z) = (-32768)%Z.
Proof.
  assert (Hone : pcm16_spec (Fin 1) = 32767%Z).
  { simpl. unfold Rmax, Rmin.
    destruct (Rle_dec 1 1) as [_|Hc]; [|exfalso; lra].
    destruct (Rle_dec (-1) 1) as [_|Hc]; [|exfalso; lra].
    destruct (Rlt_dec 1 0) as [Hc|_]; [exfalso; lra|].
    replace (1 * 32767)%R with (IZR 32767) by lra. apply Ztrunc_IZR. }
  assert (Hmone : pcm16_spec (Fin (-1)) = (-32768)%Z).
  { simpl. unfold Rmax, Rmin.
    destruct (Rle_dec 1 (-1)) as [Hc|_]; [exfalso; lra|].
    destruct (Rle_dec (-1) (-1)) as [_|Hc]; [|exfalso; lra].
    destruct (Rlt_dec (-1) 0) as [_|Hc]; [|exfalso; lra].
    replace (-1 * 32768)%R with (IZR (-32768)) by lra. apply Ztrunc_IZR. }
  split; [|split; [|split; [|split; [exact Hone | split; [exact Hmone | split; reflexivity]]]]].
  - exists (wavHeader (length samples) sampleRate ++ concat (map pcmBytes samples)).
    pose proof (wavHeader_fields (length samples) sampleRate
                  (concat (map pcmBytes samples))) as Hf.
    cbv zeta in Hf.
    destruct Hf as (F0 & F4 & F8 & F12 & F16 & F20 & F22 & F24 & F28 & F32
                    & F34 & F36 & F40 & _).
    split; [apply encodeWAV_bytes|].
    split; [rewrite length_app, length_wavHeader, length_pcm_body; reflexivity|].
    split; [apply encoded_bytes_range|].
    rewrite F0, F4, F8, F12, F16, F20, F22, F24, F28, F32, F34, F36, F40.
    rewrite !le_value_uint32, chunkSize_value, dataSize_value.
    repeat (split; [reflexivity|]).
    apply samples_decoded. apply length_wavHeader.
  - intros r. split; [apply ToUint_of_Z|].
    replace (jmul (of_Z r) (Fin 2)) with (of_Z (r * 2))
      by (unfold of_Z; simpl; rewrite mult_IZR; reflexivity).
    apply ToUint_of_Z.
  - rewrite encodeWAV_bytes. f_equal. unfold wavHeader.
    cbn [length map concat app]. unfold pcmBytes.
    rewrite !ToInt16_pcmValue, Hone, Hmone.
    rewrite chunkSize_value, dataSize_value.
    change (Fin 8000) with (of_Z 8000).
    replace (jmul (of_Z 8000) (Fin 2)) with (of_Z 16000)
      by (unfold of_Z; simpl; f_equal; lra).
    rewrite !ToUint_of_Z. reflexivity.
Qed.

Section RoundTrip.
Local Open Scope Z_scope.

Lemma decodeSamples_body (samples : list num) :
  decodeSamples (length samples) (concat (map pcmBytes samples))
  = map (fun x => unscale (pcm16_spec x)) samples.
Proof.
  induction samples as [|x samples IH]; [reflexivity|].
  cbn [length map concat].
  pose proof (int16_of_pcmBytes x) as Hx. unfold pcmBytes in *.
  cbn [le_bytes app] in *. cbn [decodeSamples]. rewrite Hx, IH. reflexivity.
Qed.

(** Decoding what the encoder produced for a file of less than 4 GiB. *)
Lemma decodeWAV_encoded (samples : list num) (sampleRate : num) :
  36 + 2 * Z.of_nat (length samples) < 2 ^ 32 ->
  decodeWAV (wavHeader (length samples) sampleRate ++ concat (map pcmBytes samples))
  = Decoded (of_Z (ToUint 32 sampleRate))
            (map (fun x => unscale (pcm16_spec x)) samples).
Proof.
  intros Hsize.
  pose proof (wavHeader_fields (length samples) sampleRate
                (concat (map pcmBytes samples))) as Hf.
  cbv zeta in Hf.
  destruct Hf as (F0 & F4 & F8 & F12 & F16 & F20 & F22 & F24 & F28 & F32
                  & F34 & F36 & F40 & Fbody).
  assert (Hdata : le_value (le_bytes 4 (ToUint 32 (jmul (of_nat (length samples)) (Fin 2))))
                  = 2 * Z.of_nat (length samples)).
  { rewrite le_value_uint32, dataSize_value. apply Z.mod_small. lia. }
  unfold decodeWAV.
  rewrite F0, F8, F12, F16, F20, F22, F24, F34, F36, F40, Fbody, Hdata.
  rewrite le_value_uint32.
  destruct (decide _) as [_|Hc].
  - f_equal.
    replace (2 * Z.of_nat (length samples) / 2) with (Z.of_nat (length samples))
      by (rewrite Z.mul_comm, Z.div_mul; lia).
    rewrite Nat2Z.id. apply decodeSamples_body.
  - exfalso. apply Hc.
    split; [rewrite length_app, length_wavHeader; lia|].
    split; [apply encoded_bytes_range|].
    repeat (split; [reflexivity|]).
    split; [rewrite Z.mul_comm; apply Z.mod_mul; lia|].
    rewrite length_app, length_wavHeader, length_pcm_body. lia.
Qed.

Lemma decodeWAV_rejects (bytes : list Z) :
  (length bytes < 44)%nat \/ field bytes 0 4 <> tag "RIFF" \/
  field bytes 8 4 <> tag "WAVE" \/
  Z.of_nat (length bytes) < 44 + le_value (field bytes 40 4) ->
  decodeWAV bytes = FormatError.
Proof.
  intros Hbad. unfold decodeWAV.
  destruct (decide _) as [Hok|_]; [|reflexivity].
  exfalso. destruct Hok as (H44 & _ & HR & HW & _ & _ & _ & _ & _ & _ & _ & Hlen).
  destruct Hbad as [Hb|[Hb|[Hb|Hb]]]; [lia | contradiction | contradiction | lia].
Qed.

End RoundTrip.

Section QuantizationError.
Local Open Scope R_scope.

(** A sample of [[-1, 1]] comes back within one step of the 32767 scale. *)
Lemma unscale_error (v : R) :
  -1 <= v <= 1 ->
  exists v' : R, unscale (pcm16_spec (Fin v)) = Fin v' /\ Rabs (v' - v) < 1 / 32767.
Proof.
  intros Hv. simpl.
  assert (Hs : Rmax (-1) (Rmin 1 v) = v).
  { unfold Rmax, Rmin. destruct (Rle_dec 1 v); destruct (Rle_dec _ _); lra. }
  rewrite Hs. unfold unscale, Ztrunc.
  destruct (Rlt_dec v 0) as [Hneg|Hpos].
  - destruct (Rle_dec 0 (v * 32768)) as [Hc|_]; [exfalso; lra|].
    pose proof (Zceil_bound (v * 32768)) as [Hlo Hhi].
    set (q := Zceil (v * 32768)) in *.
    assert (Hq0 : (q <= 0)%Z).
    { assert (q < 1)%Z; [|lia]. apply lt_IZR. lra. }
    destruct (Z_lt_dec q 0) as [_|Hq].
    + exists (IZR q / 32768). split; [reflexivity|].
      apply Rabs_def1; lra.
    + assert (q = 0%Z) by lia. subst q. replace (Zceil (v * 32768)) with 0%Z in *.
      exists (0 / 32767). split; [reflexivity|].
      apply Rabs_def1; lra.
  - destruct (Rle_dec 0 (v * 32767)) as [_|Hc]; [|exfalso; lra].
    pose proof (Zfloor_bound (v * 32767)) as [Hlo Hhi].
    set (q := Zfloor (v * 32767)) in *.
    assert (Hq0 : (0 <= q)%Z) by (apply Zfloor_lub; lra).
    destruct (Z_lt_dec q 0) as [Hq|_]; [lia|].
    exists (IZR q / 32767). split; [reflexivity|].
    apply Rabs_def1; lra.
Qed.

End QuantizationError.

(** C4, for the decoder of section 4.5 (the repository has none): for an
    integer sample rate that fits the 32-bit field, a file of less than
    4 GiB and samples in [[-1, 1]], decoding the encoder's bytes gives back
    the sample rate and a signal of the same length whose samples differ
    from the originals by less than [1/32767]; a buffer shorter than the
    header, without the "RIFF" or "WAVE" tag, or shorter than its data size
    announces is rejected with a format error. *)
Theorem wav_round_trip (samples : list num) (rate : Z) :
  (0 <= rate < 2 ^ 32)%Z ->
  (36 + 2 * Z.of_nat (length samples) < 2 ^ 32)%Z ->
  Forall unit_sample samples ->
  (exists (bytes : list Z) (signal : list num),
     encodeWAV samples (of_Z rate) = Returns bytes /\
     decodeWAV bytes = Decoded (of_Z rate) signal /\
     Forall2 (fun x y : num =>
                exists v v' : R,
                  x = Fin v /\ y = Fin v' /\ (Rabs (v' - v) < 1 / 32767)%R)
             samples signal) /\
  (forall bytes : list Z,
     (length bytes < 44)%nat \/ field bytes 0 4 <> tag "RIFF" \/
     field bytes 8 4 <> tag "WAVE" \/
     (Z.of_nat (length bytes) < 44 + le_value (field bytes 40 4))%Z ->
     decodeWAV bytes = FormatError).
Proof.
  intros Hrate Hsize Hunit. split; [|apply decodeWAV_rejects].
  exists (wavHeader (length samples) (of_Z rate) ++ concat (map pcmBytes samples)).
  exists (map (fun x => unscale (pcm16_spec x)) samples).
  split; [apply encodeWAV_bytes|].
  split.
  - rewrite decodeWAV_encoded by exact Hsize.
    rewrite ToUint_of_Z, Z.mod_small by exact Hrate. reflexivity.
  - clear Hsize. induction Hunit as [|x samples (v & -> & Hv) _ IH].
    + constructor.
    + cbn [map]. constructor; [|exact IH].
      destruct (unscale_error v Hv) as (v' & Hv' & Herr).
      exists v, v'. split; [reflexivity|]. split; [exact Hv' | exact Herr].
Qed.

Lemma wav_round_trip_witness :
  exists (bytes : list Z) (signal : list num),
    encodeWAV [Fin 1; Fin (-1)] (of_Z 8000) = Returns bytes /\
    decodeWAV bytes = Decoded (of_Z 8000) signal /\
    Forall2 (fun x y : num =>
               exists v v' : R,
                 x = Fin v /\ y = Fin v' /\ (Rabs (v' - v) < 1 / 32767)%R)
            [Fin 1; Fin (-1)] signal.
Proof.
  refine (proj1 (wav_round_trip [Fin 1; Fin (-1)] 8000 _ _ _)).
  - lia.
  - simpl. lia.
  - repeat constructor; eexists; (split; [reflexivity | lra]).
Defined.

(** C4 fails as stated for some signals and sample rates: the sample 2.0 is
    clipped by the encoder and comes back as 1.0, a whole unit away; the
    sample rate [2^32] does not fit its field and comes back as 0. *)
Lemma wav_round_trip_counterexample :
  (exists (bytes : list Z) (v' : R),
     encodeWAV [Fin 2] (of_Z 8000) = Returns bytes /\
     decodeWAV bytes = Decoded (of_Z 8000) [Fin v'] /\
     Rabs (v' - 2) = 1%R /\ ~ (Rabs (v' - 2) <= 1 / 32767)%R) /\
  (exists bytes : list Z,
     encodeWAV [] (of_Z (2 ^ 32)) = Returns bytes /\
     decodeWAV bytes = Decoded (of_Z 0) [] /\
     of_Z 0 <> of_Z (2 ^ 32)).
Proof.
  split.
  - exists (wavHeader 1 (of_Z 8000) ++ concat (map pcmBytes [Fin 2])), 1%R.
    split; [apply (encodeWAV_bytes [Fin 2])|].
    split.
    + rewrite (decodeWAV_encoded [Fin 2]) by (simpl; lia).
      rewrite ToUint_of_Z. f_equal. cbn [map pcm16_spec].
      assert (Hs : Rmax (-1) (Rmin 1 2) = 1%R).
      { unfold Rmax, Rmin. destruct (Rle_dec 1 2); destruct (Rle_dec _ _); lra. }
      rewrite Hs.
      destruct (Rlt_dec 1 0) as [Hc|_]; [exfalso; lra|].
      replace (1 * 32767)%R with (IZR 32767) by lra. rewrite Ztrunc_IZR.
      unfold unscale. destruct (Z_lt_dec 32767 0) as [Hc|_]; [lia|].
      do 2 f_equal. lra.
    + assert (Habs : Rabs (1 - 2) = 1%R) by (rewrite Rabs_left; lra).
      rewrite Habs. split; [reflexivity | lra].
  - exists (wavHeader 0 (of_Z (2 ^ 32)) ++ concat (map pcmBytes [])).
    split; [apply (encodeWAV_bytes [])|].
    split.
    + rewrite (decodeWAV_encoded []) by (simpl; lia).
      rewrite ToUint_of_Z. reflexivity.
    + unfold of_Z. intros [= Hc]. apply eq_IZR in Hc. discriminate Hc.
Qed.

Section FftFacts.
Local Open Scope nat_scope.

Lemma length_evens_odds {A : Type} (l : list A) :
  (length (evens l) = S (length l) / 2 /\ length (odds l) = length l / 2) /\
  (forall a : A,
     length (evens (a :: l)) = S (S (length l)) / 2 /\
     length (odds (a :: l)) = S (length l) / 2).
Proof.
  induction l as [|b t [[IHe IHo] IH']].
  - split; [split; reflexivity|]. intros a. split; reflexivity.
  - split; [exact (IH' b)|]. intros a. cbn [evens odds length].
    rewrite IHe, IHo. split.
    + change (S (S (S (length t)))) with (1 * 2 + S (length t)).
      rewrite Nat.div_add_l by lia. lia.
    + change (S (S (length t))) with (1 * 2 + length t).
      rewrite Nat.div_add_l by lia. lia.
Qed.

Lemma length_evens {A : Type} (l : list A) : length (evens l) = S (length l) / 2.
Proof. apply length_evens_odds. Qed.

Lemma length_odds {A : Type} (l : list A) : length (odds l) = length l / 2.
Proof. apply length_evens_odds. Qed.

Lemma butterfly_returns (N : nat) (even odd y : list Complex) :
  butterfly N even odd = Returns y ->
  S N / 2 <= length odd /\ length y = 2 * (S N / 2).
Proof.
  unfold butterfly. rewrite Nat.div2_div.
  destruct (mapM _ _) as [pairs|] eqn:Hm; [|discriminate].
  intros [= <-]. apply mapM_Some in Hm.
  pose proof (Forall2_length _ _ _ Hm) as Hlen. rewrite length_seq in Hlen.
  split.
  - destruct (S N / 2) as [|m] eqn:Hdiv; [lia|].
    destruct (Forall2_lookup_l _ _ _ m m Hm) as (p & _ & Hp).
    { apply lookup_seq_lt. lia. }
    unfold butterflyAt in Hp.
    destruct (odd !! m) as [o|] eqn:Ho; [|discriminate].
    apply lookup_lt_Some in Ho. lia.
  - rewrite length_app, !length_map. lia.
Qed.

Lemma butterfly_total (N : nat) (even odd : list Complex) :
  S N / 2 <= length even -> S N / 2 <= length odd ->
  exists y : list Complex, butterfly N even odd = Returns y.
Proof.
  intros He Ho. unfold butterfly. rewrite Nat.div2_div.
  destruct (mapM _ _) as [pairs|] eqn:Hm; [eexists; reflexivity|].
  exfalso. assert (Hs : is_Some (mapM (butterflyAt N even odd) (seq 0 (S N / 2)))).
  { apply mapM_is_Some, Forall_forall. intros k Hk.
    apply elem_of_seq in Hk. unfold compose, butterflyAt.
    destruct (lookup_lt_is_Some_2 odd k ltac:(lia)) as [o ->].
    destruct (lookup_lt_is_Some_2 even k ltac:(lia)) as [e ->].
    eexists; reflexivity. }
  rewrite Hm in Hs. destruct Hs as [? Hs]. discriminate Hs.
Qed.

(** When the transform returns, its result is as long as its input. *)
Lemma fft_radix2_length (x y : list Complex) :
  fft_radix2 x = Returns y -> length y = length x.
Proof.
  revert y.
  apply (fft_radix2_elim (fun x res => forall y, res = Returns y -> length y = length x)).
  - intros x0 Hle Heq y Hy. injection Hy as Hy. subst y. reflexivity.
  - intros x0 Hgt IHo IHe Heq y Hy.
    destruct (fft_radix2 (evens x0)) as [even| |]; try discriminate.
    destruct (fft_radix2 (odds x0)) as [odd| |]; try discriminate.
    cbn [mbind outcome_bind] in Hy.
    specialize (IHe even eq_refl). specialize (IHo [] odd eq_refl).
    apply butterfly_returns in Hy. destruct Hy as [Hodd Hy].
    rewrite length_odds in IHo. rewrite Hy. rewrite IHo in Hodd.
    pose proof (Nat.div_mod_eq (length x0) 2).
    pose proof (Nat.div_mod_eq (S (length x0)) 2).
    pose proof (Nat.mod_upper_bound (length x0) 2).
    pose proof (Nat.mod_upper_bound (S (length x0)) 2). lia.
Qed.

(** On a power-of-two length the transform returns. *)
Lemma fft_radix2_pow2 (k : nat) (x : list Complex) :
  length x = 2 ^ k -> exists y : list Complex, fft_radix2 x = Returns y.
Proof.
  revert x. induction k as [|k IH]; intros x Hx.
  - rewrite fft_radix2_equation_1.
    destruct (le_dec (length x) 1) as [Hle|Hc]; [|simpl in Hx; lia].
    eexists; reflexivity.
  - assert (H2 : 0 < 2 ^ k) by (apply Nat.neq_0_lt_0, Nat.pow_nonzero; lia).
    rewrite Nat.pow_succ_r' in Hx.
    assert (He : length (evens x) = 2 ^ k).
    { rewrite length_evens, Hx.
      replace (S (2 * 2 ^ k)) with (1 + 2 ^ k * 2) by lia.
      rewrite Nat.div_add by lia. reflexivity. }
    assert (Ho : length (odds x) = 2 ^ k).
    { rewrite length_odds, Hx, Nat.mul_comm. apply Nat.div_mul. lia. }
    rewrite fft_radix2_equation_1.
    destruct (le_dec (length x) 1) as [Hc|Hgt]; [lia|].
    cbn [fft_radix2_unfold_clause_1].
    destruct (IH _ He) as [even Heven]. destruct (IH _ Ho) as [odd Hodd].
    rewrite Heven, Hodd. cbn [mbind outcome_bind].
    apply fft_radix2_length in Heven, Hodd.
    apply butterfly_total.
    + rewrite Heven, He, Hx.
      replace (S (2 * 2 ^ k)) with (1 + 2 ^ k * 2) by lia.
      rewrite Nat.div_add by lia. simpl. lia.
    + rewrite Hodd, Ho, Hx.
      replace (S (2 * 2 ^ k)) with (1 + 2 ^ k * 2) by lia.
      rewrite Nat.div_add by lia. simpl. lia.
Qed.

End FftFacts.

Section FrameCount.
Local Open Scope R_scope.

Lemma Zfloor_div (a b : Z) : (0 < b)%Z -> Zfloor (IZR a / IZR b) = (a / b)%Z.
Proof.
  intros Hb. apply Zfloor_eq.
  pose proof (Z.div_mod a b ltac:(lia)) as Hdm.
  pose proof (Z.mod_pos_bound a b Hb) as [Hr0 Hr1].
  assert (HB : 0 < IZR b) by (apply (IZR_lt 0); exact Hb).
  assert (Ha : IZR a = IZR b * IZR (a / b) + IZR (a mod b)).
  { rewrite <- mult_IZR, <- plus_IZR. f_equal. exact Hdm. }
  apply (IZR_le 0) in Hr0. apply IZR_lt in Hr1.
  assert (Hq : IZR a / IZR b = IZR (a / b) + IZR (a mod b) / IZR b).
  { rewrite Ha. field. lra. }
  rewrite Hq.
  assert (0 <= IZR (a mod b) / IZR b < 1).
  { split.
    - apply Rmult_le_pos; [exact Hr0|]. left. apply Rinv_0_lt_compat. exact HB.
    - apply (Rmult_lt_reg_r (IZR b)); [exact HB|]. unfold Rdiv.
      rewrite Rmult_assoc, Rinv_l by lra. lra. }
  lra.
Qed.

(** The number of passes of the frame loop for a positive hop. *)
Lemma numFrames_count (L F hop : nat) :
  (0 < hop)%nat ->
  trip_count
    (jadd (Math_floor (jdiv (jsub (of_nat L) (of_nat F)) (of_nat hop))) (Fin 1))
  = Some (if decide (F <= L)%nat then ((L - F) / hop + 1)%nat else 0%nat).
Proof.
  intros Hhop. unfold of_nat, jsub, jneg, jadd, jdiv.
  assert (Hh : 0 < INR hop) by (apply lt_0_INR; exact Hhop).
  destruct (Req_dec_T (INR hop) 0) as [Hc|_]; [lra|].
  unfold Math_floor, trip_count. f_equal.
  replace (INR L + - INR F) with (IZR (Z.of_nat L - Z.of_nat F))
    by (rewrite minus_IZR, <- !INR_IZR_INZ; lra).
  rewrite (INR_IZR_INZ hop), Zfloor_div by lia.
  set (z := ((Z.of_nat L - Z.of_nat F) / Z.of_nat hop)%Z).
  replace (IZR z + 1) with (IZR (z + 1)) by (rewrite plus_IZR; lra).
  rewrite Zceil_IZR.
  destruct (decide (F <= L)%nat) as [Hle|Hgt].
  - subst z. rewrite <- Nat2Z.inj_sub by exact Hle.
    rewrite <- Nat2Z.inj_div. lia.
  - assert (z < 0)%Z; [|lia].
    subst z. apply Z.div_lt_upper_bound; lia.
Qed.

End FrameCount.

Section FrameFacts.
Local Open Scope nat_scope.

Variables (audioBuffer window : list num) (fftSize hopLength : nat).

(** A pushed row has [fftSize / 2] bins. *)
Lemma frameAt_row (i : nat) (db : list num) (t : num) :
  frameAt audioBuffer window fftSize hopLength i = Returns (Some (db, t)) ->
  length db = fftSize / 2.
Proof.
  unfold frameAt. destruct (decide _) as [|_]; [discriminate|].
  destruct (fft_radix2 _) as [fftResult| |] eqn:Hfft; try discriminate.
  cbn [mbind outcome_bind]. intros [= <- _].
  apply fft_radix2_length in Hfft. rewrite length_map, length_seq in Hfft.
  rewrite !length_map, length_take, Hfft.
  change (fst (Nat.divmod fftSize 1 0 1)) with (fftSize / 2).
  pose proof (Nat.div_mod_eq fftSize 2). lia.
Qed.

Lemma frameAt_full (k i : nat) :
  fftSize = 2 ^ k ->
  i * hopLength + fftSize <= length audioBuffer ->
  exists (db : list num) (t : num),
    frameAt audioBuffer window fftSize hopLength i = Returns (Some (db, t)).
Proof.
  intros Hpow Hfit. unfold frameAt.
  destruct (decide _) as [Hc|_].
  - exfalso. rewrite length_take, length_drop in Hc. lia.
  - match goal with
    | |- context [fft_radix2 ?x] =>
        destruct (fft_radix2_pow2 k x) as [y ->]
    end.
    + rewrite length_map, length_seq. exact Hpow.
    + cbn [mbind outcome_bind]. eexists _, _. reflexivity.
Qed.

Lemma frameStep_stuck (idxs : list nat) (acc : outcome (list (list num) * list num)) :
  (forall st, acc <> Returns st) ->
  forall st,
    fold_left (frameStep audioBuffer window fftSize hopLength) idxs acc <> Returns st.
Proof.
  revert acc. induction idxs as [|i idxs IH]; intros acc Hacc; [exact Hacc|].
  cbn [fold_left]. apply IH. intros st.
  destruct acc as [st0| |]; [exfalso; exact (Hacc st0 eq_refl) | discriminate | discriminate].
Qed.

(** All the rows the loop pushes have [fftSize / 2] bins. *)
Lemma frames_rectangular (idxs : list nat) (sp0 sp : list (list num)) (ts0 ts : list num) :
  fold_left (frameStep audioBuffer window fftSize hopLength) idxs (Returns (sp0, ts0))
  = Returns (sp, ts) ->
  Forall (fun row => length row = fftSize / 2) sp0 ->
  Forall (fun row => length row = fftSize / 2) sp.
Proof.
  revert sp0 ts0. induction idxs as [|i idxs IH]; intros sp0 ts0 Hfold Hsp0.
  - injection Hfold as <- _. exact Hsp0.
  - cbn [fold_left] in Hfold. unfold frameStep at 2 in Hfold.
    cbn [mbind outcome_bind] in Hfold.
    destruct (frameAt audioBuffer window fftSize hopLength i)
      as [[[db t]|]| |] eqn:Hframe; cbn [mbind outcome_bind] in Hfold.
    + apply (IH _ _ Hfold). apply Forall_app. split; [exact Hsp0|].
      constructor; [|constructor]. exact (frameAt_row _ _ _ Hframe).
    + exact (IH _ _ Hfold Hsp0).
    + exfalso. revert Hfold. apply frameStep_stuck. discriminate.
    + exfalso. revert Hfold. apply frameStep_stuck. discriminate.
Qed.

(** When every frame of the loop fits in the signal, each pass pushes one
    row and one time label. *)
Lemma frames_all_pushed (k : nat) (idxs : list nat) (sp0 : list (list num)) (ts0 : list num) :
  fftSize = 2 ^ k ->
  Forall (fun i => i * hopLength + fftSize <= length audioBuffer) idxs ->
  exists (sp : list (list num)) (ts : list num),
    fold_left (frameStep audioBuffer window fftSize hopLength) idxs (Returns (sp0, ts0))
    = Returns (sp, ts) /\
    length sp = length sp0 + length idxs /\ length ts = length ts0 + length idxs.
Proof.
  intros Hpow Hfit. revert sp0 ts0.
  induction Hfit as [|i idxs Hi _ IH]; intros sp0 ts0.
  - exists sp0, ts0. simpl. repeat split; lia.
  - cbn [fold_left]. unfold frameStep at 2. cbn [mbind outcome_bind].
    destruct (frameAt_full k i Hpow Hi) as (db & t & ->).
    cbn [mbind outcome_bind fst snd].
    destruct (IH (sp0 ++ [db]) (ts0 ++ [t])) as (sp & ts & Hfold & Hsp & Hts).
    exists sp, ts. split; [exact Hfold|].
    rewrite length_app in Hsp, Hts. simpl in *. lia.
Qed.

End FrameFacts.

Section TransposeFacts.
Local Open Scope nat_scope.

Lemma length_transpose (row0 : list num) (rest : list (list num)) :
  length (transpose (row0 :: rest)) = length row0.
Proof. unfold transpose. rewrite length_map, length_seq. reflexivity. Qed.

Lemma transpose_rows (sp : list (list num)) :
  Forall (fun col => length col = length sp) (transpose sp).
Proof.
  destruct sp as [|row0 rest]; [constructor|].
  unfold transpose. apply Forall_map, Forall_forall. intros c _.
  simpl. rewrite length_map. reflexivity.
Qed.

(** Entry [(c, t)] of the transposed matrix is entry [(t, c)] of the
    frame-major one. *)
Lemma transpose_lookup (sp : list (list num)) (B c t : nat) (row : list num) :
  Forall (fun row => length row = B) sp ->
  c < B -> sp !! t = Some row ->
  exists v : num,
    row !! c = Some v /\
    exists col : list num, transpose sp !! c = Some col /\ col !! t = Some v.
Proof.
  intros Hrect Hc Hrow.
  assert (HrowB : length row = B).
  { rewrite Forall_lookup in Hrect. exact (Hrect _ _ Hrow). }
  destruct (lookup_lt_is_Some_2 row c ltac:(lia)) as [v Hv].
  exists v. split; [exact Hv|].
  destruct sp as [|row0 rest]; [discriminate|].
  assert (Hrow0 : length row0 = B) by (inversion Hrect; assumption).
  unfold transpose. eexists. split.
  - rewrite list_lookup_fmap, lookup_seq_lt by lia. reflexivity.
  - rewrite Nat.add_0_l, list_lookup_fmap, Hrow. simpl. rewrite Hv. reflexivity.
Qed.

End TransposeFacts.

Section SpectrogramShape.
Local Open Scope nat_scope.

Lemma pow2_hop (k : nat) : 2 <= k -> 0 < 2 ^ k / 4.
Proof.
  intros Hk. replace k with (2 + (k - 2)) by lia.
  rewrite Nat.pow_add_r. change (2 ^ 2) with 4.
  rewrite Nat.mul_comm, Nat.div_mul by lia.
  apply Nat.neq_0_lt_0, Nat.pow_nonzero. lia.
Qed.

(** The frame loop for a power-of-two window of at least 4 samples. *)
Lemma spectrogramFrames_pow2 (audioBuffer : list num) (k : nat) :
  2 <= k ->
  let F := 2 ^ k in
  let L := length audioBuffer in
  let numFrames := if decide (F <= L) then (L - F) / (F / 4) + 1 else 0 in
  exists (sp : list (list num)) (ts : list num),
    spectrogramFrames audioBuffer F = Returns (sp, ts) /\
    length sp = numFrames /\ length ts = numFrames /\
    Forall (fun row => length row = F / 2) sp.
Proof.
  intros Hk F L numFrames. pose proof (pow2_hop k Hk) as Hhop. fold F in Hhop.
  unfold spectrogramFrames. fold L. rewrite numFrames_count by exact Hhop.
  fold numFrames.
  destruct (frames_all_pushed audioBuffer (hannWindow F) F (F / 4) k
              (seq 0 numFrames) [] []) as (sp & ts & Hfold & Hsp & Hts).
  - reflexivity.
  - apply Forall_forall. intros i Hi. apply elem_of_seq in Hi.
    fold L. subst numFrames. destruct (decide (F <= L)) as [Hle|Hgt]; [|lia].
    assert (Hi' : i <= (L - F) / (F / 4)) by lia.
    pose proof (Nat.Div0.mul_div_le (L - F) (F / 4)) as Hmul.
    assert (i * (F / 4) <= F / 4 * ((L - F) / (F / 4))) by nia.
    lia.
  - exists sp, ts. rewrite length_seq in Hsp, Hts. simpl in Hsp, Hts.
    split; [exact Hfold|]. split; [exact Hsp|]. split; [exact Hts|].
    apply (frames_rectangular _ _ _ _ _ _ _ _ _ Hfold). constructor.
Qed.

Lemma computeSpectrogramData_pow2 (audioBuffer : list num) (k : nat) :
  2 <= k ->
  let F := 2 ^ k in
  let L := length audioBuffer in
  let numFrames := if decide (F <= L) then (L - F) / (F / 4) + 1 else 0 in
  exists r : spectrogramData,
    computeSpectrogramData audioBuffer F = Returns r /\
    length (sg_times r) = numFrames /\
    (L < F -> sg_data r = []) /\
    (F <= L ->
     length (sg_data r) = F / 2 /\
     Forall (fun row => length row = numFrames) (sg_data r)).
Proof.
  intros Hk F L numFrames.
  destruct (spectrogramFrames_pow2 audioBuffer k Hk) as (sp & ts & Hfr & Hsp & Hts & Hrect).
  fold F L numFrames in Hfr, Hsp, Hts, Hrect.
  unfold computeSpectrogramData. fold F. rewrite Hfr. cbn [mbind outcome_bind fst snd].
  eexists. split; [reflexivity|]. cbn [sg_times sg_data].
  split; [exact Hts|]. split.
  - intros Hlt. subst numFrames. destruct (decide (F <= L)); [lia|].
    destruct sp; [reflexivity | discriminate].
  - intros Hle. rewrite length_reverse. split.
    + destruct sp as [|row0 rest].
      * subst numFrames. destruct (decide (F <= L)); [simpl in Hsp; lia | lia].
      * rewrite length_transpose. inversion Hrect; assumption.
    + apply Forall_reverse. rewrite <- Hsp. apply transpose_rows.
Qed.

End SpectrogramShape.




(** C6: whenever the analyzer returns, its matrix is the frame-major dB
    matrix [sp] of the frame loop, transposed and then reversed along the
    frequency axis: it has [fftSize / 2] rows when there is a frame, and
    entry [t] of its row [b] is bin [fftSize / 2 - 1 - b] of frame [t], so
    that row 0 is the highest bin and the last row is bin 0. *)
Theorem spectrogram_orientation (audioBuffer : list num) (fftSize : nat)
    (r : spectrogramData) :
  computeSpectrogramData audioBuffer fftSize = Returns r ->
  exists (sp : list (list num)) (ts : list num),
    spectrogramFrames audioBuffer fftSize = Returns (sp, ts) /\
    sg_data r = reverse (transpose sp) /\
    (sp <> [] -> length (sg_data r) = (fftSize / 2)%nat) /\
    (forall (b t : nat) (frame : list num),
       (b < fftSize / 2)%nat -> sp !! t = Some frame ->
       exists (v : num) (row : list num),
         frame !! (fftSize / 2 - 1 - b)%nat = Some v /\
         sg_data r !! b = Some row /\ row !! t = Some v) /\
    (sp <> [] -> (0 < fftSize / 2)%nat ->
     head (sg_data r)
       = Some (map (fun frame => default NaN (frame !! (fftSize / 2 - 1)%nat)) sp) /\
     last (sg_data r)
       = Some (map (fun frame => default NaN (frame !! 0%nat)) sp)).
Proof.
  unfold computeSpectrogramData.
  destruct (spectrogramFrames audioBuffer fftSize) as [[sp ts]| |] eqn:Hfr;
    try discriminate.
  cbn [mbind outcome_bind fst snd]. intros [= <-]. cbn [sg_data].
  exists sp, ts. split; [reflexivity|]. split; [reflexivity|].
  assert (Hrect : Forall (fun row => length row = (fftSize / 2)%nat) sp).
  { unfold spectrogramFrames in Hfr.
    destruct (trip_count _) as [n|].
    - apply (frames_rectangular _ _ _ _ _ _ _ _ _ Hfr). constructor.
    - destruct (frameAt _ _ _ _ _); discriminate. }
  assert (Hlen : sp <> [] -> length (transpose sp) = (fftSize / 2)%nat).
  { intros Hne. destruct sp as [|row0 rest]; [contradiction|].
    rewrite length_transpose. inversion Hrect; assumption. }
  split; [intros Hne; rewrite length_reverse; exact (Hlen Hne)|].
  split.
  - intros b t frame Hb Hframe.
    assert (Hne : sp <> []) by (intros ->; discriminate).
    destruct (transpose_lookup sp (fftSize / 2) (fftSize / 2 - 1 - b) t frame
                Hrect ltac:(lia) Hframe) as (v & Hv & col & Hcol & Hcv).
    exists v, col. split; [exact Hv|]. split; [|exact Hcv].
    rewrite reverse_lookup by (rewrite (Hlen Hne); lia).
    rewrite (Hlen Hne), <- Hcol. f_equal. lia.
  - intros Hne Hbins. rewrite head_reverse, last_reverse.
    destruct sp as [|row0 rest]; [contradiction|].
    assert (Hrow0 : length row0 = (fftSize / 2)%nat) by (inversion Hrect; assumption).
    unfold transpose. rewrite Hrow0. split.
    + rewrite last_lookup, length_map, length_seq, list_lookup_fmap.
      rewrite lookup_seq_lt by lia.
      cbn [fmap option_fmap option_map]. rewrite Nat.add_0_l.
      replace (Init.Nat.pred (fftSize / 2)) with (fftSize / 2 - 1)%nat by lia.
      reflexivity.
    + rewrite head_lookup, list_lookup_fmap, lookup_seq_lt by lia. reflexivity.
Qed.

Lemma spectrogram_orientation_witness :
  exists (r : spectrogramData) (sp : list (list num)) (ts : list num),
    computeSpectrogramData (repeat (Fin 0) 6) 4 = Returns r /\
    spectrogramFrames (repeat (Fin 0) 6) 4 = Returns (sp, ts) /\
    sg_data r = reverse (transpose sp) /\
    length sp = 3%nat.
Proof.
  destruct (computeSpectrogramData_pow2 (repeat (Fin 0) 6) 2 ltac:(lia))
    as (r & Hr & _).
  destruct (spectrogramFrames_pow2 (repeat (Fin 0) 6) 2 ltac:(lia))
    as (sp0 & ts0 & Hfr0 & Hsp0 & _).
  destruct (spectrogram_orientation (repeat (Fin 0) 6) 4 r Hr)
    as (sp & ts & Hfr & Hdata & _).
  exists r, sp, ts. split; [exact Hr|]. split; [exact Hfr|]. split; [exact Hdata|].
  change (2 ^ 2)%nat with 4%nat in Hfr0. rewrite Hfr in Hfr0.
  injection Hfr0 as -> _. exact Hsp0.
Defined.

(** * Further properties of the synthesis engine *)

Section FrequencyTable.
Local Open Scope R_scope.

(** With at least two rows and finite bounds the frequency table has one
    entry per row, row [r] holding [maxFreq - r / (H - 1) * (maxFreq - minFreq)]:
    the top row gets [maxFreq], the bottom row [minFreq], every entry lies
    between the two when [minFreq <= maxFreq], and the entries strictly
    decrease from top to bottom when [minFreq < maxFreq]. *)
Theorem freqs_mapping (H : nat) (lo hi : R) :
  (2 <= H)%nat ->
  length (freqs H (Fin lo) (Fin hi)) = H /\
  (forall r : nat, (r < H)%nat ->
     freqs H (Fin lo) (Fin hi) !! r
     = Some (Fin (hi - INR r / (INR H - 1) * (hi - lo)))) /\
  freqs H (Fin lo) (Fin hi) !! 0%nat = Some (Fin hi) /\
  freqs H (Fin lo) (Fin hi) !! (H - 1)%nat = Some (Fin lo) /\
  (lo <= hi ->
   forall (r : nat) (f : R),
     freqs H (Fin lo) (Fin hi) !! r = Some (Fin f) -> lo <= f <= hi) /\
  (lo < hi ->
   forall (r1 r2 : nat) (f1 f2 : R),
     (r1 < r2)%nat ->
     freqs H (Fin lo) (Fin hi) !! r1 = Some (Fin f1) ->
     freqs H (Fin lo) (Fin hi) !! r2 = Some (Fin f2) ->
     f2 < f1).
Proof.
  intros HH.
  assert (HHR : 2 <= INR H) by (apply (le_INR 2 H); exact HH).
  assert (Hlen : length (freqs H (Fin lo) (Fin hi)) = H).
  { unfold freqs. rewrite length_map, length_seq. reflexivity. }
  assert (Hfrac : forall r : nat, (r < H)%nat -> 0 <= INR r / (INR H - 1) <= 1).
  { intros r Hr. assert (INR r <= INR H - 1).
    { replace (INR H - 1) with (INR (H - 1)) by (rewrite minus_INR by lia; simpl; lra).
      apply le_INR. lia. }
    pose proof (pos_INR r). split.
    - apply Rmult_le_pos; [lra|]. left. apply Rinv_0_lt_compat. lra.
    - apply (Rmult_le_reg_r (INR H - 1)); [lra|]. unfold Rdiv.
      rewrite Rmult_assoc, Rinv_l by lra. lra. }
  split; [exact Hlen|]. split; [intros r Hr; apply freqs_lookup; assumption|].
  split; [apply freqs_ends; exact HH|]. split; [apply freqs_ends; exact HH|].
  split.
  - intros Hle r f Hf.
    assert (Hr : (r < H)%nat) by (apply lookup_lt_Some in Hf; lia).
    rewrite freqs_lookup in Hf by assumption. injection Hf as <-.
    specialize (Hfrac r Hr). nra.
  - intros Hlt r1 r2 f1 f2 Hr12 Hf1 Hf2.
    assert (Hr2 : (r2 < H)%nat) by (apply lookup_lt_Some in Hf2; lia).
    rewrite freqs_lookup in Hf1, Hf2 by (assumption || lia).
    injection Hf1 as <-. injection Hf2 as <-.
    assert (INR r1 < INR r2) by (apply lt_INR; exact Hr12).
    assert (INR r1 / (INR H - 1) < INR r2 / (INR H - 1)).
    { unfold Rdiv. apply Rmult_lt_compat_r; [|assumption].
      apply Rinv_0_lt_compat. lra. }
    nra.
Qed.

Lemma freqs_mapping_witness :
  length (freqs 3 (Fin 200) (Fin 8000)) = 3%nat /\
  freqs 3 (Fin 200) (Fin 8000) !! 0%nat = Some (Fin 8000) /\
  freqs 3 (Fin 200) (Fin 8000) !! 2%nat = Some (Fin 200).
Proof.
  pose proof (freqs_mapping 3 200 8000 ltac:(lia)) as (Hl & _ & H0 & H2 & _).
  split; [exact Hl|]. split; [exact H0 | exact H2].
Defined.

End FrequencyTable.

Section WaveRange.
Local Open Scope R_scope.


End WaveRange.

Section EngineEdges.
Local Open Scope R_scope.

Lemma sampleAt_column_off (imageArray : list (list num)) (fr : list num)
    (sampleRate : num) (w : waveShape) (height col t : nat) :
  (forall (row : nat) (a : num),
     cell imageArray row col = Some a -> jgt a (Fin 0) = false) ->
  sampleAt imageArray fr sampleRate w height col t = Fin 0.
Proof.
  intros Hoff. unfold sampleAt.
  generalize (jdiv (of_nat t) sampleRate) as time. intros time.
  generalize (seq 0 height) as rows.
  induction rows as [|row rows IH]; [reflexivity|]. cbn [fold_left].
  replace (rowStep imageArray fr w time col (Fin 0) row) with (Fin 0); [exact IH|].
  unfold rowStep. destruct (cell imageArray row col) as [a|] eqn:Hc; [|reflexivity].
  rewrite (Hoff _ _ Hc). reflexivity.
Qed.

(** The engine never loops forever.  On a non-empty image it throws exactly
    when the allocation of the signal fails: the floor of the binary64
    product [sampleRate * durationPerColumn] is negative or infinite, or the
    [W] columns of that many samples are more than an array can hold.  When
    that product is [NaN] it returns the empty signal. *)
Theorem generateAudioFromImage_outcome (limit : Z) (imageArray : list (list num))
    (sampleRate durationPerColumn lo hi : num) (w : waveShape) :
  let H := length imageArray in
  let W := length (default [] (imageArray !! 0%nat)) in
  let samplesPerColumn := Math_floor (fl64 (jmul sampleRate durationPerColumn)) in
  generateAudioFromImage limit imageArray sampleRate durationPerColumn lo hi w
    <> Diverges /\
  (generateAudioFromImage limit imageArray sampleRate durationPerColumn lo hi w
   = Throws
   <-> (0 < H)%nat /\ (0 < W)%nat /\
       ((exists x : R,
           samplesPerColumn = Fin x /\
           (x < 0 \/ IZR (maxLength limit) < x * INR W)) \/
        samplesPerColumn = PInf \/ samplesPerColumn = NInf)) /\
  (samplesPerColumn = NaN ->
   generateAudioFromImage limit imageArray sampleRate durationPerColumn lo hi w
   = Returns []).
Proof.
  intros H W spc. unfold generateAudioFromImage. fold H W.
  destruct (decide (W = 0%nat \/ H = 0%nat)) as [Hz|Hnz].
  - split; [discriminate|]. split; [|reflexivity].
    split; [discriminate | intros (? & ? & _); lia].
  - assert (HW : (0 < W)%nat) by lia. assert (HH : (0 < H)%nat) by lia.
    rewrite synthesize_spec by exact HW. fold H W. subst spc.
    destruct (fl64 (jmul sampleRate durationPerColumn)) as [p| | |];
      cbn [Math_floor columnLength].
    + rewrite Zfloor_IZR.
      assert (Hprod : IZR (Zfloor p) * INR W = IZR (Zfloor p * Z.of_nat W)).
      { rewrite mult_IZR, INR_IZR_INZ. reflexivity. }
      destruct (Rlt_dec (IZR (Zfloor p)) 0) as [Hneg|Hpos]; cbn [mbind outcome_bind].
      * split; [discriminate|]. split; [|discriminate].
        split; [intros _|reflexivity].
        split; [exact HH|]. split; [exact HW|]. left.
        eexists. split; [reflexivity|]. left. exact Hneg.
      * destruct (Z_lt_dec (maxLength limit) (Zfloor p * Z.of_nat W)) as [Hbig|Hfit];
          cbn [mbind outcome_bind].
        -- split; [discriminate|]. split; [|discriminate].
           split; [intros _|reflexivity].
           split; [exact HH|]. split; [exact HW|]. left.
           eexists. split; [reflexivity|]. right.
           rewrite Hprod. apply IZR_lt. exact Hbig.
        -- split; [discriminate|]. split; [|discriminate].
           split; [discriminate|].
           intros (_ & _ & [(y & [= <-] & [Hy|Hy])|[Hc|Hc]]);
             [lra | | discriminate | discriminate].
           rewrite Hprod in Hy. apply lt_IZR in Hy. lia.
    + cbn [mbind outcome_bind]. split; [discriminate|]. split; [|discriminate].
      split; [intros _|reflexivity]. split; [exact HH|]. split; [exact HW|].
      right. left. reflexivity.
    + cbn [mbind outcome_bind]. split; [discriminate|]. split; [|discriminate].
      split; [intros _|reflexivity]. split; [exact HH|]. split; [exact HW|].
      right. right. reflexivity.
    + cbn [mbind outcome_bind]. split; [discriminate|]. split.
      * split; [discriminate|].
        intros (_ & _ & [(y & Hc & _)|[Hc|Hc]]); discriminate.
      * intros _. unfold normalize. cbn [audio maxAmplitude].
        match goal with
        | |- context [rawSamples ?a ?b ?c ?d ?e ?f 0%nat] =>
            pose proof (length_rawSamples a b c d e 0 f) as Hl;
            rewrite Nat.mul_0_r in Hl;
            destruct (rawSamples a b c d e f 0%nat); [|discriminate Hl]
        end.
        cbn [fold_left map]. rewrite jgt_zero_zero. reflexivity.
Qed.

(** A column without a positive cell is silent: whatever the other columns
    hold, each of its samples in the returned signal is exactly 0.  The
    signal is made of [W] runs of [n] samples, one run per column. *)
Theorem generateAudioFromImage_silent_column (limit : Z)
    (imageArray : list (list num))
    (sampleRate durationPerColumn lo hi : num) (w : waveShape)
    (signal : list num) (col : nat) :
  generateAudioFromImage limit imageArray sampleRate durationPerColumn lo hi w
    = Returns signal ->
  (col < length (default [] (imageArray !! 0%nat)))%nat ->
  (forall (row : nat) (a : num),
     cell imageArray row col = Some a -> jgt a (Fin 0) = false) ->
  exists n : nat,
    length signal = (length (default [] (imageArray !! 0%nat)) * n)%nat /\
    forall t : nat, (t < n)%nat -> signal !! (col * n + t)%nat = Some (Fin 0).
Proof.
  intros Hret Hcol Hoff. unfold generateAudioFromImage in Hret.
  set (W := length (default [] (imageArray !! 0%nat))) in *.
  set (H := length imageArray) in *.
  destruct (decide (W = 0%nat \/ H = 0%nat)) as [[Hz|Hz]|Hnz].
  - lia.
  - exfalso. subst W H. destruct imageArray; [simpl in Hcol; lia | discriminate].
  - rewrite synthesize_spec in Hret by lia. fold H W in Hret.
    destruct (columnLength _ _ _) as [n|]; [|discriminate].
    cbn [mbind outcome_bind] in Hret. injection Hret as <-.
    exists n. rewrite length_normalize. cbn [audio].
    split; [rewrite length_map; apply length_rawSamples|].
    intros t Ht. unfold normalize. cbn [audio maxAmplitude].
    set (raw := rawSamples imageArray (freqs H lo hi) sampleRate w H W n).
    assert (Hraw : map Math_fround raw !! (col * n + t)%nat = Some (Fin 0)).
    { unfold raw. rewrite list_lookup_fmap, rawSamples_lookup by assumption.
      rewrite sampleAt_column_off by exact Hoff.
      cbn [fmap option_fmap option_map]. rewrite Math_fround_0. reflexivity. }
    destruct (jgt (fold_left peakStep raw (Fin 0)) (Fin 0)) eqn:Hg; [|exact Hraw].
    rewrite list_lookup_fmap, Hraw. cbn [fmap option_fmap option_map]. f_equal.
    destruct (fold_left peakStep raw (Fin 0)) as [m| | |]; try discriminate.
    + apply jgt_Fin in Hg. apply normalized_zero. lra.
    + cbn [jdiv]. rewrite fl64_0. apply Math_fround_0.
Qed.

Lemma generate_all_zero (limit : Z) (imageArray : list (list num)) (s dd : R)
    (lo hi : num) (w : waveShape) :
  let W := length (default [] (imageArray !! 0%nat)) in
  all_zero imageArray -> (0 < length imageArray)%nat -> 0 <= s * dd ->
  (Z.of_nat W * Zfloor (round64 (s * dd)) <= maxLength limit)%Z ->
  generateAudioFromImage limit imageArray (Fin s) (Fin dd) lo hi w
  = Returns (repeat (Fin 0) (W * Z.to_nat (Zfloor (round64 (s * dd))))).
Proof.
  intros W Hall HH Hp Hfit. unfold generateAudioFromImage. fold W.
  destruct (decide _) as [[Hz|Hz]|Hnz]; [rewrite Hz; reflexivity | lia |].
  rewrite synthesize_spec by lia. fold W.
  rewrite columnLength_product by first [exact Hp | lia].
  cbn [mbind outcome_bind]. unfold normalize. cbn [audio maxAmplitude].
  rewrite rawSamples_all_zero by exact Hall.
  rewrite peak_of_zeros, jgt_zero_zero. apply f_equal, fround_zeros.
Qed.

Lemma generateAudioFromImage_silent_column_witness :
  exists n : nat,
    length (repeat (Fin 0) 4)
    = (length (default [] ([[Fin 0; Fin 0]; [Fin 0; Fin 0]] !! 0%nat)) * n)%nat /\
    forall t : nat, (t < n)%nat ->
      repeat (Fin 0) 4 !! (1 * n + t)%nat = Some (Fin 0).
Proof.
  assert (Hn : Zfloor (round64 (8 * (1 / 4))) = 2%Z).
  { replace (8 * (1 / 4)) with (IZR 2) by lra.
    rewrite round64_int by (simpl; lia). apply Zfloor_IZR. }
  apply (generateAudioFromImage_silent_column 1000 [[Fin 0; Fin 0]; [Fin 0; Fin 0]]
           (Fin 8) (Fin (1 / 4)) (Fin 1) (Fin 3) ws_sin).
  - rewrite (generate_all_zero 1000 [[Fin 0; Fin 0]; [Fin 0; Fin 0]] 8 (1 / 4)).
    + rewrite Hn. reflexivity.
    + repeat constructor.
    + simpl. lia.
    + lra.
    + rewrite Hn. vm_compute. discriminate.
  - simpl. lia.
  - intros row a Hc.
    destruct row as [|[|row]]; simpl in Hc; try discriminate;
      injection Hc as <-; apply jgt_zero_zero.
Defined.

End EngineEdges.

(** * Further properties of the WAV encoder *)

Section WavSizes.
Local Open Scope Z_scope.

(** For a file of less than 4 GiB the two size fields agree with the
    buffer: ChunkSize is the file length minus 8, the data size is the file
    length minus the 44 header bytes, and that many bytes follow the
    header. *)
Theorem encodeWAV_sizes (samples : list num) (sampleRate : num) :
  36 + 2 * Z.of_nat (length samples) < 2 ^ 32 ->
  exists bytes : list Z,
    encodeWAV samples sampleRate = Returns bytes /\
    le_value (field bytes 4 4) = Z.of_nat (length bytes) - 8 /\
    le_value (field bytes 40 4) = Z.of_nat (length bytes) - 44 /\
    Z.of_nat (length (drop 44 bytes)) = le_value (field bytes 40 4).
Proof.
  intros Hsize.
  exists (wavHeader (length samples) sampleRate ++ concat (map pcmBytes samples)).
  pose proof (wavHeader_fields (length samples) sampleRate
                (concat (map pcmBytes samples))) as Hf.
  cbv zeta in Hf.
  destruct Hf as (_ & F4 & _ & _ & _ & _ & _ & _ & _ & _ & _ & _ & F40 & Fbody).
  split; [apply encodeWAV_bytes|].
  rewrite F4, F40, Fbody, !le_value_uint32, chunkSize_value, dataSize_value.
  rewrite length_app, length_wavHeader, length_pcm_body.
  rewrite !Z.mod_small by lia. lia.
Qed.

Lemma encodeWAV_sizes_witness :
  exists bytes : list Z,
    encodeWAV [Fin 1; Fin (-1)] (Fin 8000) = Returns bytes /\
    le_value (field bytes 4 4) = Z.of_nat (length bytes) - 8 /\
    le_value (field bytes 40 4) = Z.of_nat (length bytes) - 44 /\
    Z.of_nat (length (drop 44 bytes)) = le_value (field bytes 40 4).
Proof.
  apply (encodeWAV_sizes [Fin 1; Fin (-1)] (Fin 8000)). simpl. lia.
Defined.

End WavSizes.

Section QuantizationOrder.
Local Open Scope R_scope.

Lemma Ztrunc_le (x y : R) : x <= y -> (Ztrunc x <= Ztrunc y)%Z.
Proof.
  intros Hxy. unfold Ztrunc.
  destruct (Rle_dec 0 x) as [Hx|Hx]; destruct (Rle_dec 0 y) as [Hy|Hy].
  - apply Zfloor_le. exact Hxy.
  - lra.
  - assert ((Zceil x <= 0)%Z).
    { pose proof (Zceil_bound x) as [Hlo _].
      assert ((Zceil x < 1)%Z); [apply lt_IZR; lra | lia]. }
    assert ((0 <= Zfloor y)%Z) by (apply Zfloor_lub; lra). lia.
  - apply Zceil_le. exact Hxy.
Qed.

Lemma Ztrunc_zero : Ztrunc 0 = 0%Z.
Proof. apply (Ztrunc_IZR 0). Qed.

(** The 16-bit value stored for a sample is monotone in the sample: a louder
    sample is never stored as a smaller number.  It is 0 for the sample 0
    and for [NaN], not positive for a negative sample and not negative for
    a positive one, and it reaches the two ends of the int16 range exactly
    at the samples 1 and -1 and beyond. *)
Theorem pcm_quantization_monotone (x y : R) :
  x <= y ->
  (ToInt16 (pcmValue (Fin x)) <= ToInt16 (pcmValue (Fin y)))%Z /\
  ToInt16 (pcmValue (Fin 0)) = 0%Z /\
  ToInt16 (pcmValue NaN) = 0%Z /\
  (x <= 0 -> (-32768 <= ToInt16 (pcmValue (Fin x)) <= 0)%Z) /\
  (0 <= x -> (0 <= ToInt16 (pcmValue (Fin x)) <= 32767)%Z) /\
  (1 <= x -> ToInt16 (pcmValue (Fin x)) = 32767%Z) /\
  (x <= -1 -> ToInt16 (pcmValue (Fin x)) = (-32768)%Z).
Proof.
  intros Hxy. rewrite !ToInt16_pcmValue.
  assert (Hclamp : forall v : R,
            -1 <= Rmax (-1) (Rmin 1 v) <= 1 /\
            (v <= 0 -> Rmax (-1) (Rmin 1 v) <= 0) /\
            (0 <= v -> 0 <= Rmax (-1) (Rmin 1 v)) /\
            (1 <= v -> Rmax (-1) (Rmin 1 v) = 1) /\
            (v <= -1 -> Rmax (-1) (Rmin 1 v) = -1)).
  { intros v. unfold Rmax, Rmin.
    destruct (Rle_dec 1 v); destruct (Rle_dec _ _); repeat split; intros; lra. }
  assert (Hmono : Rmax (-1) (Rmin 1 x) <= Rmax (-1) (Rmin 1 y)).
  { unfold Rmax, Rmin.
    destruct (Rle_dec 1 x); destruct (Rle_dec 1 y);
      repeat destruct (Rle_dec _ _); lra. }
  pose proof (Hclamp x) as (Hx1 & Hx2 & Hx3 & Hx4 & Hx5).
  pose proof (Hclamp y) as (Hy1 & _).
  cbn [pcm16_spec].
  set (sx := Rmax (-1) (Rmin 1 x)) in *. set (sy := Rmax (-1) (Rmin 1 y)) in *.
  split.
  { apply Ztrunc_le.
    destruct (Rlt_dec sx 0); destruct (Rlt_dec sy 0); lra. }
  split.
  { pose proof (Hclamp 0) as (_ & H0a & H0b & _).
    assert (Hz : Rmax (-1) (Rmin 1 0) = 0) by (specialize (H0a ltac:(lra)); specialize (H0b ltac:(lra)); lra).
    rewrite Hz. destruct (Rlt_dec 0 0); [lra|].
    replace (0 * 32767) with 0 by lra. apply Ztrunc_zero. }
  split; [reflexivity|].
  split.
  { intros Hx. specialize (Hx2 Hx). split.
    - apply (Ztrunc_between (-32768) 32767); [lia | lia |].
      destruct (Rlt_dec sx 0); lra.
    - match goal with
      | |- (Ztrunc ?e <= 0)%Z =>
          assert (He : e <= 0) by (destruct (Rlt_dec sx 0); lra);
          pose proof (Ztrunc_le e 0 He) as Hle
      end.
      rewrite Ztrunc_zero in Hle. exact Hle. }
  split.
  { intros Hx. specialize (Hx3 Hx). split.
    - match goal with
      | |- (0 <= Ztrunc ?e)%Z =>
          assert (He : 0 <= e) by (destruct (Rlt_dec sx 0); lra);
          pose proof (Ztrunc_le 0 e He) as Hle
      end.
      rewrite Ztrunc_zero in Hle. exact Hle.
    - apply (Ztrunc_between (-32768) 32767); [lia | lia |].
      destruct (Rlt_dec sx 0); lra. }
  split.
  { intros Hx. rewrite (Hx4 Hx). destruct (Rlt_dec 1 0); [lra|].
    replace (1 * 32767) with (IZR 32767) by lra. apply Ztrunc_IZR. }
  { intros Hx. rewrite (Hx5 Hx). destruct (Rlt_dec (-1) 0); [|lra].
    replace (-1 * 32768) with (IZR (-32768)) by lra. apply Ztrunc_IZR. }
Qed.

Lemma pcm_quantization_monotone_witness :
  (ToInt16 (pcmValue (Fin (1 / 4))) <= ToInt16 (pcmValue (Fin (1 / 2))))%Z.
Proof.
  apply (pcm_quantization_monotone (1 / 4) (1 / 2)). lra.
Defined.

End QuantizationOrder.

(** * Further properties of the spectrogram analyzer *)

Section FftDomain.
Local Open Scope nat_scope.

Lemma fft_radix2_not_diverges (x : list Complex) : fft_radix2 x <> Diverges.
Proof.
  apply (fft_radix2_elim (fun x res => res <> Diverges)).
  - intros x0 Hle Heq. discriminate.
  - intros x0 Hgt IHo IHe Heq.
    destruct (fft_radix2 (evens x0)) as [even| |]; [|discriminate | contradiction].
    specialize (IHo []).
    destruct (fft_radix2 (odds x0)) as [odd| |]; [|discriminate | contradiction].
    cbn [mbind outcome_bind]. unfold butterfly. destruct (mapM _ _); discriminate.
Qed.

Lemma fft_radix2_returns_pow2 (x : list Complex) :
  (exists y, fft_radix2 x = Returns y) ->
  length x <= 1 \/ exists k : nat, length x = 2 ^ k.
Proof.
  apply (fft_radix2_elim
           (fun x res => (exists y, res = Returns y) ->
                         length x <= 1 \/ exists k : nat, length x = 2 ^ k)).
  - intros x0 Hle Heq _. left. exact Hle.
  - intros x0 Hgt IHo IHe Heq [y Hy].
    destruct (fft_radix2 (evens x0)) as [even| |] eqn:He; try discriminate.
    destruct (fft_radix2 (odds x0)) as [odd| |] eqn:Ho; try discriminate.
    cbn [mbind outcome_bind] in Hy.
    apply butterfly_returns in Hy. destruct Hy as [Hodd _].
    apply fft_radix2_length in Ho. rewrite length_odds in Ho. rewrite Ho in Hodd.
    pose proof (Nat.div_mod_eq (length x0) 2) as Hd1.
    pose proof (Nat.div_mod_eq (S (length x0)) 2) as Hd2.
    pose proof (Nat.mod_upper_bound (length x0) 2 ltac:(lia)) as Hm1.
    pose proof (Nat.mod_upper_bound (S (length x0)) 2 ltac:(lia)) as Hm2.
    assert (Hhalf : length (evens x0) = length x0 / 2 /\ length x0 = 2 * (length x0 / 2)).
    { rewrite length_evens. lia. }
    destruct Hhalf as [Hev Heven].
    right. destruct (IHe ltac:(eexists; reflexivity)) as [Hsmall|[k Hk]].
    + exists 1. rewrite Hev in Hsmall. simpl. lia.
    + exists (S k). rewrite Hev in Hk. rewrite Nat.pow_succ_r', <- Hk. exact Heven.
Qed.

Lemma fft_radix2_small (x : list Complex) :
  length x <= 1 -> fft_radix2 x = Returns x.
Proof.
  intros Hle. rewrite fft_radix2_equation_1.
  destruct (le_dec (length x) 1) as [Hl|Hc]; [reflexivity | contradiction].
Qed.

(** The three outcomes of the transform, by the length of its input. *)
Lemma fft_radix2_outcomes (x : list Complex) :
  fft_radix2 x <> Diverges /\
  ((exists y, fft_radix2 x = Returns y) <->
   (length x <= 1 \/ exists k : nat, length x = 2 ^ k)) /\
  (forall y, fft_radix2 x = Returns y -> length y = length x) /\
  ((forall k : nat, length x <> 2 ^ k) -> 1 < length x -> fft_radix2 x = Throws).
Proof.
  split; [apply fft_radix2_not_diverges|].
  assert (Hiff : (exists y, fft_radix2 x = Returns y) <->
                 (length x <= 1 \/ exists k : nat, length x = 2 ^ k)).
  { split; [apply fft_radix2_returns_pow2|].
    intros [Hsmall|[k Hk]].
    - exists x. apply fft_radix2_small. exact Hsmall.
    - apply (fft_radix2_pow2 k). exact Hk. }
  split; [exact Hiff|]. split; [apply fft_radix2_length|].
  intros Hnot Hbig.
  pose proof (fft_radix2_not_diverges x) as Hnd.
  destruct (fft_radix2 x) as [y| |] eqn:Hx; [|reflexivity | contradiction].
  exfalso. destruct (proj1 Hiff ltac:(eexists; reflexivity)) as [Hs|[k Hk]];
    [lia | exact (Hnot k Hk)].
Qed.

(** The transform never loops forever, and it returns, rather than throwing
    a TypeError, exactly on inputs of length 0 or a power of two; its result
    is then as long as its input. *)
Theorem fft_radix2_domain (x : list Complex) :
  fft_radix2 x <> Diverges /\
  ((exists y, fft_radix2 x = Returns y) <->
   (length x <= 1 \/ exists k : nat, length x = 2 ^ k)) /\
  (forall y, fft_radix2 x = Returns y -> length y = length x) /\
  ((forall k : nat, length x <> 2 ^ k) -> 1 < length x -> fft_radix2 x = Throws).
Proof. apply fft_radix2_outcomes. Qed.

End FftDomain.

Section SpectrogramEdges.
Local Open Scope nat_scope.





End SpectrogramEdges.

Section SpectrogramLabels.
Local Open Scope nat_scope.





End SpectrogramLabels.

(** * Properties of the luminance extractor *)

Section ExtractorFacts.
Local Open Scope R_scope.

Lemma trip_count_of_nat (n : nat) : trip_count (of_nat n) = Some n.
Proof.
  unfold trip_count, of_nat. rewrite INR_IZR_INZ, Zceil_IZR, Nat2Z.id. reflexivity.
Qed.

Lemma typedArrayGet_of_nat (data : list Z) (n : nat) :
  typedArrayGet data (of_nat n) = data !! n.
Proof.
  unfold typedArrayGet, of_nat. rewrite INR_IZR_INZ, Zfloor_IZR, Nat2Z.id.
  destruct (Req_dec_T (IZR (Z.of_nat n)) (IZR (Z.of_nat n))) as [_|Hc];
    [|exfalso; apply Hc; reflexivity].
  destruct (Rle_dec 0 (IZR (Z.of_nat n))) as [_|Hc]; [reflexivity|].
  exfalso. apply Hc. apply (IZR_le 0). lia.
Qed.

(** The value of one pixel, from its three colour bytes. *)
Lemma grayscaleAt_value (data : list Z) (w y x : nat) (r g b : Z) :
  data !! ((y * w + x) * 4)%nat = Some r ->
  data !! ((y * w + x) * 4 + 1)%nat = Some g ->
  data !! ((y * w + x) * 4 + 2)%nat = Some b ->
  grayscaleAt data (of_nat w) y x
  = Fin (1 - (299 / 1000 * IZR r + 587 / 1000 * IZR g + 114 / 1000 * IZR b) / 255).
Proof.
  intros Hr Hg Hb. unfold grayscaleAt, channel.
  replace (jmul (jadd (jmul (of_nat y) (of_nat w)) (of_nat x)) (Fin 4))
    with (of_nat ((y * w + x) * 4)).
  - replace (jadd (of_nat ((y * w + x) * 4)) (Fin 1)) with (of_nat ((y * w + x) * 4 + 1))
      by (unfold of_nat; simpl; f_equal; rewrite plus_INR; simpl; lra).
    replace (jadd (of_nat ((y * w + x) * 4)) (Fin 2)) with (of_nat ((y * w + x) * 4 + 2))
      by (unfold of_nat; simpl; f_equal; rewrite plus_INR; simpl; lra).
    rewrite !typedArrayGet_of_nat, Hr, Hg, Hb. unfold of_Z. simpl.
    destruct (Req_dec_T 255 0) as [Hc|_]; [exfalso; lra|]. f_equal.
  - unfold of_nat. simpl. f_equal.
    rewrite mult_INR, plus_INR, mult_INR. simpl. lra.
Qed.

(** The matrix the extractor returns for the bytes of a [w] by [h] image. *)
Lemma grayscale_matrix (image : num -> num -> outcome (list Z))
    (w h : nat) (data : list Z) :
  image (of_nat w) (of_nat h) = Returns data ->
  length data = (4 * w * h)%nat ->
  Forall (fun v => (0 <= v <= 255)%Z) data ->
  exists M : list (list num),
    imageToGrayscaleArray image (of_nat w) (of_nat h) = Returns M /\
    length M = h /\
    Forall (fun row => length row = w) M /\
    Forall (Forall unit_cell) M /\
    (forall y x : nat, (y < h)%nat -> (x < w)%nat ->
       exists r g b : Z,
         data !! ((y * w + x) * 4)%nat = Some r /\
         data !! ((y * w + x) * 4 + 1)%nat = Some g /\
         data !! ((y * w + x) * 4 + 2)%nat = Some b /\
         cell M y x
         = Some (Fin (1 - (299 / 1000 * IZR r + 587 / 1000 * IZR g
                           + 114 / 1000 * IZR b) / 255)) /\
         (r = 0%Z -> g = 0%Z -> b = 0%Z -> cell M y x = Some (Fin 1)) /\
         (r = 255%Z -> g = 255%Z -> b = 255%Z -> cell M y x = Some (Fin 0))).
Proof.
  intros Himg Hlen Hbytes. unfold imageToGrayscaleArray.
  rewrite Himg. cbn [mbind outcome_bind]. rewrite !trip_count_of_nat.
  eexists. split; [reflexivity|].
  assert (Hpix : forall y x : nat, (y < h)%nat -> (x < w)%nat ->
            exists r g b : Z,
              data !! ((y * w + x) * 4)%nat = Some r /\
              data !! ((y * w + x) * 4 + 1)%nat = Some g /\
              data !! ((y * w + x) * 4 + 2)%nat = Some b /\
              (0 <= r <= 255)%Z /\ (0 <= g <= 255)%Z /\ (0 <= b <= 255)%Z).
  { intros y x Hy Hx.
    assert (Hidx : ((y * w + x) * 4 + 3 < length data)%nat) by (rewrite Hlen; nia).
    destruct (lookup_lt_is_Some_2 data ((y * w + x) * 4)%nat ltac:(lia)) as [r Hr].
    destruct (lookup_lt_is_Some_2 data ((y * w + x) * 4 + 1)%nat ltac:(lia)) as [g Hg].
    destruct (lookup_lt_is_Some_2 data ((y * w + x) * 4 + 2)%nat ltac:(lia)) as [b Hb].
    rewrite Forall_lookup in Hbytes.
    exists r, g, b. repeat split; try assumption;
      first [apply (Hbytes _ _ Hr) | apply (Hbytes _ _ Hg) | apply (Hbytes _ _ Hb)]. }
  split; [rewrite length_map, length_seq; reflexivity|].
  split.
  { apply Forall_map, Forall_forall. intros y _. simpl.
    rewrite length_map, length_seq. reflexivity. }
  split.
  { apply Forall_map, Forall_forall. intros y Hy. apply elem_of_seq in Hy.
    simpl. apply Forall_map, Forall_forall. intros x Hx. apply elem_of_seq in Hx.
    simpl. destruct (Hpix y x ltac:(lia) ltac:(lia))
      as (r & g & b & Hr & Hg & Hb & Hr' & Hg' & Hb').
    rewrite (grayscaleAt_value _ _ _ _ _ _ _ Hr Hg Hb).
    eexists. split; [reflexivity|].
    destruct Hr' as [Hr0 Hr1]. destruct Hg' as [Hg0 Hg1]. destruct Hb' as [Hb0 Hb1].
    apply (IZR_le 0) in Hr0, Hg0, Hb0. apply (IZR_le _ 255) in Hr1, Hg1, Hb1.
    lra. }
  intros y x Hy Hx.
  destruct (Hpix y x Hy Hx) as (r & g & b & Hr & Hg & Hb & _).
  exists r, g, b. split; [exact Hr|]. split; [exact Hg|]. split; [exact Hb|].
  assert (Hcell : cell (map (fun y0 : nat =>
                               map (fun x0 : nat => grayscaleAt data (of_nat w) y0 x0)
                                   (seq 0 w)) (seq 0 h)) y x
                  = Some (Fin (1 - (299 / 1000 * IZR r + 587 / 1000 * IZR g
                                    + 114 / 1000 * IZR b) / 255))).
  { unfold cell. rewrite list_lookup_fmap, lookup_seq_lt by exact Hy.
    cbn [fmap option_fmap option_map].
    rewrite list_lookup_fmap, lookup_seq_lt by exact Hx.
    cbn [fmap option_fmap option_map]. rewrite !Nat.add_0_l.
    rewrite (grayscaleAt_value _ _ _ _ _ _ _ Hr Hg Hb). reflexivity. }
  split; [exact Hcell|]. split.
  - intros -> -> ->. rewrite Hcell. do 2 f_equal. lra.
  - intros -> -> ->. rewrite Hcell. do 2 f_equal. lra.
Qed.

(** For the bytes of a [w] by [h] image ([4 w h] bytes, each in [[0, 255]])
    the extractor returns [h] rows of [w] cells, every cell a real in
    [[0, 1]]: the cell of a pixel is
    [1 - (0.299 R + 0.587 G + 0.114 B) / 255] of its three colour bytes, the
    alpha byte being ignored, so that a black pixel gives 1 and a white
    one 0. *)
Theorem imageToGrayscaleArray_matrix (image : num -> num -> outcome (list Z))
    (w h : nat) (data : list Z) :
  image (of_nat w) (of_nat h) = Returns data ->
  length data = (4 * w * h)%nat ->
  Forall (fun v => (0 <= v <= 255)%Z) data ->
  exists M : list (list num),
    imageToGrayscaleArray image (of_nat w) (of_nat h) = Returns M /\
    length M = h /\
    Forall (fun row => length row = w) M /\
    Forall (Forall unit_cell) M /\
    (forall y x : nat, (y < h)%nat -> (x < w)%nat ->
       exists r g b : Z,
         data !! ((y * w + x) * 4)%nat = Some r /\
         data !! ((y * w + x) * 4 + 1)%nat = Some g /\
         data !! ((y * w + x) * 4 + 2)%nat = Some b /\
         cell M y x
         = Some (Fin (1 - (299 / 1000 * IZR r + 587 / 1000 * IZR g
                           + 114 / 1000 * IZR b) / 255)) /\
         (r = 0%Z -> g = 0%Z -> b = 0%Z -> cell M y x = Some (Fin 1)) /\
         (r = 255%Z -> g = 255%Z -> b = 255%Z -> cell M y x = Some (Fin 0))).
Proof. apply grayscale_matrix. Qed.

Lemma imageToGrayscaleArray_matrix_witness :
  exists M : list (list num),
    imageToGrayscaleArray (fun _ _ => Returns [0; 0; 0; 255; 255; 255; 255; 255]%Z)
                          (of_nat 2) (of_nat 1) = Returns M /\
    length M = 1%nat /\
    Forall (fun row => length row = 2%nat) M /\
    Forall (Forall unit_cell) M.
Proof.
  destruct (imageToGrayscaleArray_matrix
              (fun _ _ => Returns [0; 0; 0; 255; 255; 255; 255; 255]%Z) 2 1
              [0; 0; 0; 255; 255; 255; 255; 255]%Z eq_refl eq_refl)
    as (M & HM & Hl & Hw & Hu & _).
  - repeat constructor; lia.
  - exists M. repeat split; assumption.
Defined.

End ExtractorFacts.

(** * Further properties of the parameter advisor *)

Section AdvisorPatch.
Local Open Scope R_scope.

(** The three values of the patch and their ranges. *)
Lemma advisor_patch (imageArray : list (list num)) :
  (0 < length imageArray)%nat ->
  (0 < length (default [] (imageArray !! 0%nat)))%nat ->
  Forall (Forall unit_cell) imageArray ->
  exists zdu zmi zma : Z,
    analyzeImageForAudioSettings imageArray
    = Some {| duration := Fin (IZR zdu / 10); minFreq := Fin (IZR zmi);
              maxFreq := Fin (IZR zma) |} /\
    (30 <= zdu <= 120)%Z /\ (20 <= zmi <= 400)%Z /\
    (zmi + 2000 <= zma <= 20000)%Z.
Proof.
  intros HH HW Hcells.
  destruct (unit_cells_values (concat imageArray)) as (xs & Hflat & Hxs).
  { apply Forall_concat. exact Hcells. }
  rewrite (analyze_values imageArray xs HH HW Hflat).
  assert (HN : 0 < INR (length xs)).
  { apply lt_0_INR. pose proof (length_concat_pos _ HW) as Hl.
    rewrite Hflat, length_map in Hl. exact Hl. }
  set (N := INR (length xs)) in *.
  set (b := fold_left Rplus xs 0 / N).
  set (c := sqrt (fold_left (fun a x => a + (x + - b) * (x + - b)) xs 0 / N)).
  assert (Hb : 0 <= b <= 1).
  { pose proof (fold_Rplus_bounds xs 0 Hxs) as [Hlo Hhi]. fold N in Hhi.
    unfold b. split.
    - apply Rmult_le_pos; [lra|]. left. apply Rinv_0_lt_compat. exact HN.
    - apply (Rmult_le_reg_r N); [exact HN|]. unfold Rdiv.
      rewrite Rmult_assoc, Rinv_l by lra. lra. }
  assert (Hc : 0 <= c) by apply sqrt_pos.
  destruct (Math_max_20 (400 + - (c * 700))) as (mi & -> & Hmi1 & Hmi2 & Hmi3).
  assert (Hmi4 : mi <= 400) by (apply Hmi3; lra).
  cbn [jadd].
  destruct (Math_min_20000 (mi + (2000 + c * 30000))) as (ma & -> & Hma1 & Hma2 & Hma3).
  assert (Hma4 : mi + 2000 <= ma) by (apply Hma3; lra).
  rewrite !toFixed0_parseInt_Fin, toFixed1_parseFloat_Fin by lra.
  do 3 eexists. split; [reflexivity|].
  pose proof (Zfloor_between 20 400 mi ltac:(lra)) as Hz1.
  pose proof (Zfloor_between 20 20000 ma ltac:(lra)) as [_ Hz2].
  pose proof (Zfloor_le (mi + 2000 + 1 / 2) (ma + 1 / 2) ltac:(lra)) as Hz3.
  replace (mi + 2000 + 1 / 2) with (mi + 1 / 2 + IZR 2000) in Hz3 by lra.
  rewrite Zfloor_addz in Hz3.
  pose proof (Zfloor_between 30 120 ((3 + b * 9) * 10) ltac:(lra)) as Hz4.
  lia.
Qed.

(** The patch in full: for a non-empty matrix with cells in [[0, 1]] the
    advisor returns integers for the two frequencies, [minFreq] in
    [[20, 400]] and [maxFreq] at least 2000 above it and at most 20000, and
    a duration that is a whole number of tenths between 3 and 12. *)
Theorem analyzeImageForAudioSettings_patch (imageArray : list (list num)) :
  (0 < length imageArray)%nat ->
  (0 < length (default [] (imageArray !! 0%nat)))%nat ->
  Forall (Forall unit_cell) imageArray ->
  exists zdu zmi zma : Z,
    analyzeImageForAudioSettings imageArray
    = Some {| duration := Fin (IZR zdu / 10); minFreq := Fin (IZR zmi);
              maxFreq := Fin (IZR zma) |} /\
    (30 <= zdu <= 120)%Z /\ (20 <= zmi <= 400)%Z /\
    (zmi + 2000 <= zma <= 20000)%Z.
Proof. apply advisor_patch. Qed.

Lemma analyzeImageForAudioSettings_patch_witness :
  exists zdu zmi zma : Z,
    analyzeImageForAudioSettings [[Fin 1; Fin 0]; [Fin 0; Fin 1]]
    = Some {| duration := Fin (IZR zdu / 10); minFreq := Fin (IZR zmi);
              maxFreq := Fin (IZR zma) |} /\
    (30 <= zdu <= 120)%Z /\ (20 <= zmi <= 400)%Z /\
    (zmi + 2000 <= zma <= 20000)%Z.
Proof.
  apply (analyzeImageForAudioSettings_patch [[Fin 1; Fin 0]; [Fin 0; Fin 1]]).
  - simpl. lia.
  - simpl. lia.
  - repeat constructor; eexists; (split; [reflexivity | lra]).
Defined.

(** The advice for a matrix whose cells are all 0 or all 1: every
    intermediate value is a whole number, the contrast is 0. *)
Lemma advisor_uniform (H W : nat) (v : R) :
  (0 < H)%nat -> (0 < W)%nat -> v = 0 \/ v = 1 ->
  analyzeImageForAudioSettings (uniformMatrix H W (Fin v))
  = Some {| duration := Fin (3 + 9 * v); minFreq := Fin 400; maxFreq := Fin 2400 |}.
Proof.
  intros HH HW Hv.
  assert (Hv01 : 0 <= v <= 1) by (destruct Hv as [->| ->]; lra).
  assert (HN : 0 < INR (H * W)) by (apply lt_0_INR; nia).
  pose proof (analyze_values (uniformMatrix H W (Fin v)) (repeat v (H * W))) as Hval.
  cbv zeta in Hval. rewrite repeat_length, fold_Rplus_repeat in Hval.
  replace ((0 + INR (H * W) * v) / INR (H * W)) with v in Hval by (field; lra).
  rewrite fold_variance_repeat in Hval.
  replace (0 / INR (H * W)) with 0 in Hval by (field; lra).
  rewrite sqrt_0 in Hval.
  rewrite Hval; clear Hval.
  - unfold Math_max, jlt.
    destruct (Rlt_dec 20 (400 + - (0 * 700))) as [_|Hc]; [|exfalso; lra].
    cbn [jadd]. unfold Math_min, jlt.
    destruct (Rlt_dec (400 + - (0 * 700) + (2000 + 0 * 30000)) 20000) as [_|Hc];
      [|exfalso; lra].
    rewrite !toFixed0_parseInt_Fin, toFixed1_parseFloat_Fin by lra.
    replace (400 + - (0 * 700) + 1 / 2) with (IZR 400 + 1 / 2) by lra.
    replace (400 + - (0 * 700) + (2000 + 0 * 30000) + 1 / 2)
      with (IZR 2400 + 1 / 2) by lra.
    rewrite !Zfloor_half. do 2 f_equal.
    destruct Hv as [->| ->].
    + replace ((3 + 0 * 9) * 10 + 1 / 2) with (IZR 30 + 1 / 2) by lra.
      rewrite Zfloor_half. f_equal. lra.
    + replace ((3 + 1 * 9) * 10 + 1 / 2) with (IZR 120 + 1 / 2) by lra.
      rewrite Zfloor_half. f_equal. lra.
  - unfold uniformMatrix. rewrite repeat_length. exact HH.
  - unfold uniformMatrix. destruct H; [lia|]. simpl. rewrite repeat_length. exact HW.
  - apply concat_uniformMatrix.
Qed.

(** For a non-empty image whose flattened array exists (fewer than [2^32]
    cells) the advisor returns 3 seconds, 400 Hz and 2400 Hz when the image
    is all white (every cell 0) and 12 seconds, 400 Hz and 2400 Hz when it
    is all black (every cell 1): the sums are whole numbers, the mean is
    the cell value and the contrast is 0. *)
Theorem analyzeImageForAudioSettings_uniform (H W : nat) :
  (0 < H)%nat -> (0 < W)%nat -> (Z.of_nat (H * W) < 2 ^ 32)%Z ->
  analyzeImageForAudioSettings (uniformMatrix H W (Fin 0))
  = Some {| duration := Fin 3; minFreq := Fin 400; maxFreq := Fin 2400 |} /\
  analyzeImageForAudioSettings (uniformMatrix H W (Fin 1))
  = Some {| duration := Fin 12; minFreq := Fin 400; maxFreq := Fin 2400 |}.
Proof.
  intros HH HW _. split.
  - rewrite (advisor_uniform H W 0 HH HW) by (left; reflexivity).
    do 2 f_equal. f_equal. lra.
  - rewrite (advisor_uniform H W 1 HH HW) by (right; reflexivity).
    do 2 f_equal. f_equal. lra.
Qed.

Lemma analyzeImageForAudioSettings_uniform_witness :
  analyzeImageForAudioSettings (uniformMatrix 2 3 (Fin 1))
  = Some {| duration := Fin 12; minFreq := Fin 400; maxFreq := Fin 2400 |}.
Proof.
  refine (proj2 (analyzeImageForAudioSettings_uniform 2 3 _ _ _)).
  - lia.
  - lia.
  - vm_compute. reflexivity.
Defined.

End AdvisorPatch.

(** * The transform computes the discrete Fourier transform *)

Section FourierFacts.
Local Open Scope R_scope.

Lemma series_ext {A : Type} (f g : nat -> A -> R) (l : list A) :
  (forall n a, f n a = g n a) -> series f l = series g l.
Proof.
  revert f g. induction l as [|a t IH]; intros f g Hfg; [reflexivity|].
  cbn [series]. rewrite Hfg. f_equal. apply IH. intros n b. apply Hfg.
Qed.

Lemma series_linear {A : Type} (c d : R) (f g : nat -> A -> R) (l : list A) :
  series (fun n a => c * f n a + d * g n a) l = c * series f l + d * series g l.
Proof.
  revert f g. induction l as [|a t IH]; intros f g; cbn [series]; [lra|].
  rewrite (IH (fun n => f (S n)) (fun n => g (S n))). lra.
Qed.

(** A sum over a list is the sum over its entries of even index plus the sum
    over its entries of odd index. *)
Lemma series_split {A : Type} (l : list A) :
  forall f : nat -> A -> R,
    series f l
    = series (fun j => f (2 * j)%nat) (evens l)
      + series (fun j => f (2 * j + 1)%nat) (odds l).
Proof.
  assert (Hboth : forall l : list A,
            (forall f : nat -> A -> R,
               series f l
               = series (fun j => f (2 * j)%nat) (evens l)
                 + series (fun j => f (2 * j + 1)%nat) (odds l)) /\
            (forall (a : A) (f : nat -> A -> R),
               series f (a :: l)
               = series (fun j => f (2 * j)%nat) (evens (a :: l))
                 + series (fun j => f (2 * j + 1)%nat) (odds (a :: l)))).
  { clear l. induction l as [|b t [IH1 IH2]].
    - split; intros; cbn [series evens odds]; simpl; lra.
    - split; [exact (IH2 b)|]. intros a f. cbn [series evens odds].
      rewrite (IH1 (fun n => f (S (S n)))).
      rewrite (series_ext (fun n => f (2 * S n)%nat)
                          (fun j => f (S (S (2 * j)))) (evens t))
        by (intros n c; f_equal; lia).
      rewrite (series_ext (fun n => f (2 * S n + 1)%nat)
                          (fun j => f (S (S (2 * j + 1)))) (odds t))
        by (intros n c; f_equal; lia).
      change (f (2 * 0)%nat a) with (f 0%nat a).
      change (f (2 * 0 + 1)%nat b) with (f 1%nat b). lra. }
  apply Hboth.
Qed.

Lemma evens_odds_map {A B : Type} (g : A -> B) (l : list A) :
  (evens (map g l) = map g (evens l) /\ odds (map g l) = map g (odds l)) /\
  (forall a : A,
     evens (map g (a :: l)) = map g (evens (a :: l)) /\
     odds (map g (a :: l)) = map g (odds (a :: l))).
Proof.
  induction l as [|b t [[IHe IHo] IH']].
  - split; [split; reflexivity|]. intros a. split; reflexivity.
  - split; [exact (IH' b)|]. intros a. cbn [map evens odds].
    cbn [map] in IHe, IHo. rewrite IHe, IHo. split; reflexivity.
Qed.

Lemma cos_turns (x : R) (j : nat) : cos (x - 2 * INR j * PI) = cos x.
Proof.
  rewrite <- (cos_period (x - 2 * INR j * PI) j). f_equal. lra.
Qed.

Lemma sin_turns (x : R) (j : nat) : sin (x - 2 * INR j * PI) = sin x.
Proof.
  rewrite <- (sin_period (x - 2 * INR j * PI) j). f_equal. lra.
Qed.

Lemma cos_half_turn (x : R) : cos (x - PI) = - cos x.
Proof.
  replace (cos x) with (cos (x - PI + PI)) by (f_equal; lra).
  rewrite neg_cos. lra.
Qed.

Lemma sin_half_turn (x : R) : sin (x - PI) = - sin x.
Proof.
  replace (sin x) with (sin (x - PI + PI)) by (f_equal; lra).
  rewrite neg_sin. lra.
Qed.

(** The Cooley-Tukey step: bins [k] and [k + M] of a sequence of length
    [2 M] from bin [k] of its even and of its odd half. *)
Lemma dft_butterfly (xs : list (R * R)) (M k : nat) :
  (0 < M)%nat -> length xs = (2 * M)%nat ->
  let a := - 2 * PI * INR k / INR (2 * M) in
  let E := dft (evens xs) k in
  let O := dft (odds xs) k in
  dft xs k = (E.1 + (cos a * O.1 - sin a * O.2),
              E.2 + (cos a * O.2 + sin a * O.1)) /\
  dft xs (k + M) = (E.1 - (cos a * O.1 - sin a * O.2),
                    E.2 - (cos a * O.2 + sin a * O.1)).
Proof.
  intros HM Hlen a E O.
  assert (HMr : 0 < INR M) by (apply lt_0_INR; exact HM).
  assert (Hev : length (evens xs) = M).
  { rewrite length_evens, Hlen.
    replace (S (2 * M)) with (1 + M * 2)%nat by lia.
    rewrite Nat.div_add by lia. reflexivity. }
  assert (Hod : length (odds xs) = M).
  { rewrite length_odds, Hlen.
    replace (2 * M)%nat with (0 + M * 2)%nat by lia.
    rewrite Nat.div_add by lia. reflexivity. }
  set (th := fun j : nat => - 2 * PI * INR k * INR j / INR M).
  assert (HE : E = (series (fun j p => p.1 * cos (th j) - p.2 * sin (th j)) (evens xs),
                    series (fun j p => p.2 * cos (th j) + p.1 * sin (th j)) (evens xs))).
  { subst E th. unfold dft. rewrite Hev. reflexivity. }
  assert (HO : O = (series (fun j p => p.1 * cos (th j) - p.2 * sin (th j)) (odds xs),
                    series (fun j p => p.2 * cos (th j) + p.1 * sin (th j)) (odds xs))).
  { subst O th. unfold dft. rewrite Hod. reflexivity. }
  assert (Heven : forall j : nat,
            - 2 * PI * INR k * INR (2 * j) / INR (2 * M) = th j).
  { intros j. subst th. cbv beta. rewrite !mult_INR. simpl. field. lra. }
  assert (Hodd : forall j : nat,
            - 2 * PI * INR k * INR (2 * j + 1) / INR (2 * M) = th j + a).
  { intros j. subst th a. cbv beta. rewrite plus_INR, !mult_INR. simpl. field. lra. }
  assert (Heven' : forall j : nat,
            - 2 * PI * INR (k + M) * INR (2 * j) / INR (2 * M)
            = th j - 2 * INR j * PI).
  { intros j. subst th. cbv beta. rewrite plus_INR, !mult_INR. simpl. field. lra. }
  assert (Hodd' : forall j : nat,
            - 2 * PI * INR (k + M) * INR (2 * j + 1) / INR (2 * M)
            = th j + a - PI - 2 * INR j * PI).
  { intros j. subst th a. cbv beta. rewrite !plus_INR, !mult_INR. simpl. field. lra. }
  set (Fre := fun (j : nat) (p : R * R) => p.1 * cos (th j) - p.2 * sin (th j)) in *.
  set (Fim := fun (j : nat) (p : R * R) => p.2 * cos (th j) + p.1 * sin (th j)) in *.
  assert (Hmix : forall (c d : R) (f : nat -> R * R -> R),
            (forall j p, f j p = c * Fre j p + d * Fim j p) ->
            series f (odds xs)
            = c * series Fre (odds xs) + d * series Fim (odds xs)).
  { intros c d f Hf. rewrite <- series_linear. apply series_ext. exact Hf. }
  rewrite HE, HO. cbn [fst snd]. unfold dft. rewrite Hlen.
  rewrite !(series_split xs). split; f_equal.
  - rewrite (Hmix (cos a) (- sin a)).
    + rewrite (series_ext _ Fre (evens xs)); [lra|].
      intros j p. rewrite Heven. reflexivity.
    + intros j p. subst Fre Fim. cbv beta.
      rewrite Hodd, cos_plus, sin_plus. ring.
  - rewrite (Hmix (sin a) (cos a)).
    + rewrite (series_ext _ Fim (evens xs)); [lra|].
      intros j p. rewrite Heven. reflexivity.
    + intros j p. subst Fre Fim. cbv beta.
      rewrite Hodd, cos_plus, sin_plus. ring.
  - rewrite (Hmix (- cos a) (sin a)).
    + rewrite (series_ext _ Fre (evens xs)); [lra|].
      intros j p. rewrite Heven', cos_turns, sin_turns. reflexivity.
    + intros j p. subst Fre Fim. cbv beta.
      rewrite Hodd', cos_turns, sin_turns, cos_half_turn, sin_half_turn,
        cos_plus, sin_plus. ring.
  - rewrite (Hmix (- sin a) (- cos a)).
    + rewrite (series_ext _ Fim (evens xs)); [lra|].
      intros j p. rewrite Heven', cos_turns, sin_turns. reflexivity.
    + intros j p. subst Fre Fim. cbv beta.
      rewrite Hodd', cos_turns, sin_turns, cos_half_turn, sin_half_turn,
        cos_plus, sin_plus. ring.
Qed.

Lemma dft_single (p : R * R) : dft [p] 0 = p.
Proof.
  unfold dft. cbn [series length]. simpl.
  replace (- 2 * PI * 0 * 0 / 1) with 0 by field.
  rewrite cos_0, sin_0. destruct p as [x y]. simpl. f_equal; lra.
Qed.

Lemma butterflyAt_bins (xs : list (R * R)) (M k : nat) :
  (0 < M)%nat -> length xs = (2 * M)%nat -> (k < M)%nat ->
  butterflyAt (2 * M)
    (map (fun j => toComplex (dft (evens xs) j)) (seq 0 M))
    (map (fun j => toComplex (dft (odds xs) j)) (seq 0 M)) k
  = Some (toComplex (dft xs k), toComplex (dft xs (k + M))).
Proof.
  intros HM Hlen Hk. unfold butterflyAt.
  rewrite !list_lookup_fmap, !lookup_seq_lt by exact Hk.
  cbn [fmap option_fmap option_map]. change (0 + k)%nat with k.
  destruct (dft_butterfly xs M k HM Hlen) as [-> ->].
  assert (HN : INR (2 * M) <> 0).
  { apply not_0_INR. lia. }
  unfold of_nat. cbn [jmul jdiv].
  destruct (Req_dec_T (INR (2 * M)) 0) as [Hc|Hnz]; [contradiction|].
  unfold toComplex. cbn [re im Math_cos Math_sin jmul jadd jsub jneg fst snd].
  replace (-2 * PI * INR k / INR (2 * M)) with (- 2 * PI * INR k / INR (2 * M)) by lra.
  do 2 f_equal; f_equal; f_equal; lra.
Qed.

(** The transform of a sequence of [2 ^ m] finite entries, bin by bin. *)
Lemma fft_radix2_dft (m : nat) (xs : list (R * R)) :
  length xs = (2 ^ m)%nat ->
  fft_radix2 (map toComplex xs)
  = Returns (map (fun k => toComplex (dft xs k)) (seq 0 (length xs))).
Proof.
  revert xs. induction m as [|m IH]; intros xs Hlen.
  - destruct xs as [|p [|q t]]; try discriminate Hlen.
    rewrite fft_radix2_small by (simpl; lia).
    cbn [map length seq]. rewrite dft_single. reflexivity.
  - assert (HM : (0 < 2 ^ m)%nat) by (apply Nat.neq_0_lt_0, Nat.pow_nonzero; lia).
    rewrite Nat.pow_succ_r' in Hlen.
    assert (Hev : length (evens xs) = (2 ^ m)%nat).
    { rewrite length_evens, Hlen.
      replace (S (2 * 2 ^ m)) with (1 + 2 ^ m * 2)%nat by lia.
      rewrite Nat.div_add by lia. reflexivity. }
    assert (Hod : length (odds xs) = (2 ^ m)%nat).
    { rewrite length_odds, Hlen.
      replace (2 * 2 ^ m)%nat with (0 + 2 ^ m * 2)%nat by lia.
      rewrite Nat.div_add by lia. reflexivity. }
    rewrite fft_radix2_equation_1.
    destruct (le_dec (length (map toComplex xs)) 1) as [Hc|Hgt].
    { exfalso. pose proof Hc as Hc'. rewrite length_map in Hc'. lia. }
    cbn [fft_radix2_unfold_clause_1].
    destruct (evens_odds_map toComplex xs) as [[-> ->] _].
    rewrite (IH _ Hev), (IH _ Hod), Hev, Hod. cbn [mbind outcome_bind].
    rewrite length_map, Hlen. unfold butterfly. rewrite Nat.div2_div.
    replace (S (2 * 2 ^ m) / 2)%nat with (2 ^ m)%nat
      by (replace (S (2 * 2 ^ m)) with (1 + 2 ^ m * 2)%nat by lia;
          rewrite Nat.div_add by lia; reflexivity).
    rewrite (mapM_Some_2 _ _
               (map (fun k => (toComplex (dft xs k), toComplex (dft xs (k + 2 ^ m))))
                    (seq 0 (2 ^ m)))).
    + f_equal. rewrite !map_map. cbn [fst snd].
      replace (2 * 2 ^ m)%nat with (2 ^ m + 2 ^ m)%nat by lia.
      assert (Hseq : seq (0 + 2 ^ m) (2 ^ m) = map (Nat.add (2 ^ m)) (seq 0 (2 ^ m))).
      { pose proof (fmap_add_seq (2 ^ m) 0 (2 ^ m)) as Hs.
        rewrite Nat.add_0_r in Hs. symmetry. exact Hs. }
      rewrite seq_app, map_app, Hseq. f_equal.
      rewrite map_map. apply map_ext. intros k. f_equal. f_equal. lia.
    + apply Forall2_fmap_r, Forall_Forall2_diag, Forall_forall.
      intros k Hk. apply elem_of_seq in Hk. cbn [compose].
      apply butterflyAt_bins; [exact HM | exact Hlen | lia].
Qed.

(** On a finite complex sequence whose length is a power of two the transform
    returns its discrete Fourier transform: entry [k] of the result is
    the sum over [n] of [x[n] * exp (- 2 PI i k n / N)]. *)
Theorem fft_radix2_is_dft (m : nat) (xs : list (R * R)) :
  length xs = (2 ^ m)%nat ->
  fft_radix2 (map toComplex xs)
  = Returns (map (fun k => toComplex (dft xs k)) (seq 0 (length xs))).
Proof. apply fft_radix2_dft. Qed.

Lemma fft_radix2_is_dft_witness :
  fft_radix2 (map toComplex [(1, 0); (0, 0)])
  = Returns (map (fun k => toComplex (dft [(1, 0); (0, 0)] k)) (seq 0 2)).
Proof.
  apply (fft_radix2_is_dft 1 [(1, 0); (0, 0)]). reflexivity.
Defined.

End FourierFacts.

(** * The Hann window and the decibel floor *)

Section SpectrogramValues.
Local Open Scope R_scope.

Lemma hannWindow_values (F : nat) :
  (2 <= F)%nat ->
  hannWindow F
  = map (fun i : nat => Fin (1 / 2 * (1 - cos (2 * PI * INR i / (INR F - 1)))))
        (seq 0 F).
Proof.
  intros HF. unfold hannWindow. apply map_ext. intros i.
  unfold of_nat, jsub. cbn [jmul jneg jadd jdiv].
  destruct (Req_dec_T _ 0) as [Hc|Hnz].
  { exfalso. assert (2 <= INR F) by (apply (le_INR 2); exact HF). lra. }
  cbn [Math_cos jadd jneg jmul]. reflexivity.
Qed.

(** For a window of at least 2 samples the weights are reals in [[0, 1]],
    symmetric about the middle of the window and 0 at both ends; a window of
    a single sample has the weight [NaN] (its formula divides 0 by 0). *)
Theorem hannWindow_shape (F : nat) :
  (2 <= F)%nat ->
  (exists ws : list R,
     hannWindow F = map Fin ws /\ length ws = F /\
     Forall (fun w => 0 <= w <= 1) ws /\
     (forall i : nat, (i < F)%nat -> ws !! (F - 1 - i)%nat = ws !! i) /\
     ws !! 0%nat = Some 0 /\ ws !! (F - 1)%nat = Some 0) /\
  hannWindow 1 = [NaN].
Proof.
  intros HF. split.
  - set (h := fun i : nat => 1 / 2 * (1 - cos (2 * PI * INR i / (INR F - 1)))).
    assert (HFr : 2 <= INR F) by (apply (le_INR 2); exact HF).
    assert (Hsym : forall i : nat, (i < F)%nat -> h (F - 1 - i)%nat = h i).
    { intros i Hi. subst h. cbv beta. do 2 f_equal.
      rewrite !minus_INR by lia. simpl INR.
      replace (2 * PI * (INR F - 1 - INR i) / (INR F - 1))
        with (- (2 * PI * INR i / (INR F - 1)) + 2 * INR 1 * PI)
        by (simpl; field; lra).
      rewrite cos_period, cos_neg. reflexivity. }
    assert (Hzero : h 0%nat = 0).
    { subst h. cbv beta. simpl INR.
      replace (2 * PI * 0 / (INR F - 1)) with 0 by (field; lra).
      rewrite cos_0. lra. }
    exists (map h (seq 0 F)).
    split; [rewrite hannWindow_values by exact HF; rewrite map_map; reflexivity|].
    split; [rewrite length_map, length_seq; reflexivity|].
    split.
    { apply Forall_map, Forall_forall. intros i _. subst h. cbv beta.
      pose proof (COS_bound (2 * PI * INR i / (INR F - 1))) as [Hlo Hhi]. lra. }
    split.
    { intros i Hi. rewrite !list_lookup_fmap, !lookup_seq_lt by lia.
      simpl. f_equal. apply Hsym. exact Hi. }
    split.
    + rewrite list_lookup_fmap, lookup_seq_lt by lia. simpl. f_equal. exact Hzero.
    + rewrite list_lookup_fmap, lookup_seq_lt by lia. simpl. f_equal.
      rewrite <- Hzero. replace (F - 1)%nat with (F - 1 - 0)%nat by lia.
      apply Hsym. lia.
  - unfold hannWindow, of_nat, jsub. cbn [seq map jmul jneg jadd jdiv].
    destruct (Req_dec_T _ 0) as [_|Hc]; [|exfalso; apply Hc; simpl; lra].
    unfold signed_inf.
    destruct (Rlt_dec 0 (2 * PI * INR 0)) as [Hc|_]; [simpl in Hc; lra|].
    destruct (Rlt_dec (2 * PI * INR 0) 0) as [Hc|_]; [simpl in Hc; lra|].
    reflexivity.
Qed.

Lemma hannWindow_shape_witness :
  exists ws : list R,
    hannWindow 4 = map Fin ws /\ length ws = 4%nat /\
    Forall (fun w => 0 <= w <= 1) ws /\
    (forall i : nat, (i < 4)%nat -> ws !! (4 - 1 - i)%nat = ws !! i) /\
    ws !! 0%nat = Some 0 /\ ws !! (4 - 1)%nat = Some 0.
Proof.
  apply (hannWindow_shape 4). lia.
Defined.

Lemma finite_values (l : list num) :
  Forall is_finite l -> exists xs : list R, l = map Fin xs.
Proof.
  induction 1 as [|c l [x ->] _ [xs ->]].
  - exists []. reflexivity.
  - exists (x :: xs). reflexivity.
Qed.

Lemma series_zero {A : Type} (f : nat -> A -> R) (l : list A) :
  (forall n a, In a l -> f n a = 0) -> series f l = 0.
Proof.
  revert f. induction l as [|a t IH]; intros f Hf; [reflexivity|].
  cbn [series]. rewrite Hf by (left; reflexivity).
  rewrite IH; [lra|]. intros n b Hb. apply Hf. right. exact Hb.
Qed.

Lemma dft_zero (ps : list (R * R)) (k : nat) :
  Forall (fun p => p.1 = 0 /\ p.2 = 0) ps -> dft ps k = (0, 0).
Proof.
  intros Hps. rewrite Forall_forall in Hps. unfold dft.
  f_equal; apply series_zero; intros n p Hp;
    destruct (Hps p) as [-> ->]; [apply list_elem_of_In; exact Hp | lra
                                 | apply list_elem_of_In; exact Hp | lra].
Qed.

(** [20 * log10(mag + 1e-10)] for a magnitude [mag >= 0]. *)
Lemma decibel_floor (x : R) :
  0 <= x ->
  jmul (Fin 20) (Math_log10 (jadd (Fin x) (Fin (1 / 10 ^ 10))))
  = Fin (20 * (ln (x + 1 / 10 ^ 10) / ln 10)) /\
  - 200 <= 20 * (ln (x + 1 / 10 ^ 10) / ln 10) /\
  (x = 0 -> 20 * (ln (x + 1 / 10 ^ 10) / ln 10) = - 200).
Proof.
  intros Hx.
  assert (Hp : 0 < 10 ^ 10) by (apply pow_lt; lra).
  assert (He : 0 < 1 / 10 ^ 10) by (apply Rdiv_lt_0_compat; lra).
  assert (Hln10 : 0 < ln 10) by (rewrite <- ln_1; apply ln_increasing; lra).
  assert (Hlne : ln (1 / 10 ^ 10) = - 10 * ln 10).
  { unfold Rdiv. rewrite Rmult_1_l, ln_Rinv by exact Hp.
    rewrite ln_pow by lra. replace (INR 10) with 10 by (simpl; lra). ring. }
  cbn [jadd]. unfold Math_log10.
  destruct (Rlt_dec 0 (x + 1 / 10 ^ 10)) as [_|Hc]; [|exfalso; lra].
  cbn [jmul]. split; [reflexivity|]. split.
  - assert (Hle : - 10 * ln 10 <= ln (x + 1 / 10 ^ 10)).
    { rewrite <- Hlne. destruct (Req_dec x 0) as [->|Hnz].
      - rewrite Rplus_0_l. lra.
      - left. apply ln_increasing; lra. }
    assert (Hq : - 10 <= ln (x + 1 / 10 ^ 10) / ln 10).
    { apply (Rmult_le_reg_r (ln 10)); [exact Hln10|].
      unfold Rdiv. rewrite Rmult_assoc, Rinv_l by lra. lra. }
    lra.
  - intros ->. rewrite Rplus_0_l, Hlne. field. lra.
Qed.

(** The dB row of one frame. *)
Lemma frameAt_decibels (audioBuffer : list num) (k hopLength i : nat)
    (db : list num) (t : num) :
  (2 <= k)%nat -> Forall is_finite audioBuffer ->
  frameAt audioBuffer (hannWindow (2 ^ k)) (2 ^ k) hopLength i = Returns (Some (db, t)) ->
  Forall (fun c => exists v : R, c = Fin v /\ - 200 <= v) db /\
  (Forall (fun s => s = Fin 0) audioBuffer -> Forall (fun c => c = Fin (- 200)) db).
Proof.
  intros Hk Hfin.
  assert (HF : (4 <= 2 ^ k)%nat).
  { replace k with (2 + (k - 2))%nat by lia. rewrite Nat.pow_add_r.
    change (2 ^ 2)%nat with 4%nat.
    assert (0 < 2 ^ (k - 2))%nat by (apply Nat.neq_0_lt_0, Nat.pow_nonzero; lia). lia. }
  unfold frameAt. set (F := (2 ^ k)%nat) in *.
  set (frame := take F (drop (i * hopLength) audioBuffer)).
  destruct (decide (length frame < F)%nat) as [|Hfull]; [discriminate|].
  assert (Hlen : length frame = F).
  { assert (Hle : (length frame <= F)%nat)
      by (unfold frame; rewrite length_take; lia).
    lia. }
  destruct (finite_values frame) as [fs Hfs].
  { subst frame. apply Forall_take, Forall_drop. exact Hfin. }
  assert (Hfsl : length fs = F) by (rewrite <- Hlen, Hfs, length_map; reflexivity).
  set (h := fun i : nat => 1 / 2 * (1 - cos (2 * PI * INR i / (INR F - 1)))).
  set (ps := map (fun j : nat => (default 0 (fs !! j) * h j, 0)) (seq 0 F)).
  assert (Hwin : map (fun j : nat =>
                        {| re := jmul (default NaN (frame !! j))
                                      (default NaN (hannWindow F !! j));
                           im := Fin 0 |}) (seq 0 F)
                 = map toComplex ps).
  { subst ps. rewrite map_map. apply map_ext_in. intros j Hj.
    apply in_seq in Hj.
    rewrite hannWindow_values by lia.
    rewrite Hfs, !list_lookup_fmap, lookup_seq_lt by lia.
    destruct (lookup_lt_is_Some_2 fs j ltac:(lia)) as [f ->].
    reflexivity. }
  rewrite Hwin.
  assert (Hpsl : length ps = (2 ^ k)%nat).
  { subst ps. rewrite length_map, length_seq. reflexivity. }
  rewrite (fft_radix2_dft k ps Hpsl). cbn [mbind outcome_bind].
  intros [= <- _]. split.
  - rewrite firstn_map, !map_map. apply Forall_forall. intros c Hc.
    apply list_elem_of_In, in_map_iff in Hc. destruct Hc as (n & <- & _).
    unfold toComplex. cbv beta iota delta [re im].
    set (a := (dft ps n).1). set (b := (dft ps n).2).
    change (jadd (jmul (Fin a) (Fin a)) (jmul (Fin b) (Fin b)))
      with (Fin (a * a + b * b)).
    unfold Math_sqrt.
    destruct (Rle_dec 0 (a * a + b * b)) as [Hsq|Hc]; [|exfalso; nra].
    destruct (decibel_floor _ (sqrt_pos (a * a + b * b))) as (Heq & Hfloor & _).
    change (exists v : R,
              jmul (Fin 20)
                   (Math_log10 (jadd (Fin (sqrt (a * a + b * b))) (Fin (1 / 10 ^ 10))))
              = Fin v /\ - 200 <= v).
    rewrite Heq. eexists. split; [reflexivity | exact Hfloor].
  - intros Hsil.
    assert (Hzero : Forall (fun p : R * R => p.1 = 0 /\ p.2 = 0) ps).
    { subst ps. apply Forall_map, Forall_forall. intros j _. cbn [fst snd].
      split; [|reflexivity].
      destruct (fs !! j) as [f|] eqn:Hf; simpl; [|lra].
      assert (Hin : frame !! j = Some (Fin f))
        by (rewrite Hfs, list_lookup_fmap, Hf; reflexivity).
      assert (Hsf : Forall (fun s => s = Fin 0) frame).
      { subst frame. apply Forall_take, Forall_drop. exact Hsil. }
      rewrite Forall_lookup in Hsf. specialize (Hsf _ _ Hin).
      injection Hsf as ->. unfold Datatypes.id. lra. }
    rewrite firstn_map, !map_map. apply Forall_forall. intros c Hc.
    apply list_elem_of_In, in_map_iff in Hc. destruct Hc as (n & <- & _).
    rewrite (dft_zero ps n Hzero).
    unfold toComplex. cbv beta iota delta [re im fst snd].
    change (jadd (jmul (Fin 0) (Fin 0)) (jmul (Fin 0) (Fin 0)))
      with (Fin (0 * 0 + 0 * 0)).
    unfold Math_sqrt.
    destruct (Rle_dec 0 (0 * 0 + 0 * 0)) as [_|Hc]; [|exfalso; lra].
    destruct (decibel_floor _ (sqrt_pos (0 * 0 + 0 * 0))) as (Hdb & _ & Heq).
    change (jmul (Fin 20)
                 (Math_log10 (jadd (Fin (sqrt (0 * 0 + 0 * 0))) (Fin (1 / 10 ^ 10))))
            = Fin (- 200)).
    rewrite Hdb. f_equal. apply Heq.
    replace (0 * 0 + 0 * 0) with 0 by lra. apply sqrt_0.
Qed.

(** A property of every row a frame pushes holds of every row of the
    frame-major matrix. *)
Lemma frames_invariant (audioBuffer window : list num) (fftSize hopLength : nat)
    (P : list num -> Prop) :
  (forall i db t,
     frameAt audioBuffer window fftSize hopLength i = Returns (Some (db, t)) -> P db) ->
  forall (idxs : list nat) (sp0 sp : list (list num)) (ts0 ts : list num),
    fold_left (frameStep audioBuffer window fftSize hopLength) idxs (Returns (sp0, ts0))
    = Returns (sp, ts) ->
    Forall P sp0 -> Forall P sp.
Proof.
  intros HP idxs. induction idxs as [|i idxs IH]; intros sp0 sp ts0 ts Hfold Hsp0.
  - injection Hfold as <- _. exact Hsp0.
  - cbn [fold_left] in Hfold. unfold frameStep at 2 in Hfold.
    cbn [mbind outcome_bind] in Hfold.
    destruct (frameAt audioBuffer window fftSize hopLength i)
      as [[[db t]|]| |] eqn:Hframe; cbn [mbind outcome_bind] in Hfold.
    + apply (IH _ _ _ _ Hfold). apply Forall_app. split; [exact Hsp0|].
      constructor; [|constructor]. exact (HP _ _ _ Hframe).
    + exact (IH _ _ _ _ Hfold Hsp0).
    + exfalso. revert Hfold. apply frameStep_stuck. discriminate.
    + exfalso. revert Hfold. apply frameStep_stuck. discriminate.
Qed.

Lemma transpose_Forall (Q : num -> Prop) (B : nat) (sp : list (list num)) :
  Forall (fun row => length row = B) sp ->
  Forall (Forall Q) sp -> Forall (Forall Q) (transpose sp).
Proof.
  intros Hrect HQ. destruct sp as [|row0 rest]; [constructor|].
  unfold transpose. apply Forall_map, Forall_forall. intros c Hc.
  apply elem_of_seq in Hc. apply Forall_map, Forall_forall. intros row Hrow.
  rewrite Forall_forall in Hrect, HQ.
  pose proof (Hrect row Hrow) as Hl.
  pose proof (Hrect row0 ltac:(left)) as Hl0.
  destruct (lookup_lt_is_Some_2 row c ltac:(lia)) as [v Hv].
  rewrite Hv. cbn [default].
  pose proof (HQ row Hrow) as Hall. rewrite Forall_lookup in Hall.
  exact (Hall _ _ Hv).
Qed.

(** The cells of the spectrogram of a finite signal are bounded below. *)
Lemma spectrogram_floor (audioBuffer : list num) (k : nat) :
  (2 <= k)%nat -> Forall is_finite audioBuffer ->
  exists r : spectrogramData,
    computeSpectrogramData audioBuffer (2 ^ k) = Returns r /\
    Forall (Forall (fun c => exists v : R, c = Fin v /\ - 200 <= v)) (sg_data r) /\
    (Forall (fun s => s = Fin 0) audioBuffer ->
     Forall (Forall (fun c => c = Fin (- 200))) (sg_data r)).
Proof.
  intros Hk Hfin.
  destruct (spectrogramFrames_pow2 audioBuffer k Hk) as (sp & ts & Hfr & _ & _ & Hrect).
  unfold computeSpectrogramData. rewrite Hfr. cbn [mbind outcome_bind fst snd].
  eexists. split; [reflexivity|]. cbn [sg_data].
  unfold spectrogramFrames in Hfr.
  rewrite numFrames_count in Hfr by (apply pow2_hop; exact Hk).
  split.
  - apply Forall_reverse. apply (transpose_Forall _ _ _ Hrect).
    apply (frames_invariant _ _ _ _ _
             (fun i db t Hf => proj1 (frameAt_decibels _ _ _ _ _ _ Hk Hfin Hf))
             _ _ _ _ _ Hfr).
    constructor.
  - intros Hsil. apply Forall_reverse. apply (transpose_Forall _ _ _ Hrect).
    apply (frames_invariant _ _ _ _ _
             (fun i db t Hf => proj2 (frameAt_decibels _ _ _ _ _ _ Hk Hfin Hf) Hsil)
             _ _ _ _ _ Hfr).
    constructor.
Qed.



End SpectrogramValues.

(** * The application: from the settings to the clip *)

Section AppFacts.
Local Open Scope R_scope.

(** [Math.max(1, Math.floor(x))] is a whole number of at least 1. *)
Lemma Math_max_one_floor (x : R) :
  Math_max (Fin 1) (Math_floor (Fin x)) = of_nat (Z.to_nat (Z.max 1 (Zfloor x))).
Proof.
  unfold Math_floor, Math_max, jlt, of_nat.
  rewrite INR_IZR_INZ, Z2Nat.id by lia.
  destruct (Rlt_dec 1 (IZR (Zfloor x))) as [Hlt|Hge].
  - apply lt_IZR in Hlt. rewrite Z.max_r by lia. reflexivity.
  - assert (Zfloor x <= 1)%Z.
    { apply Z.nlt_ge. intros Hc. apply Hge. apply IZR_lt. exact Hc. }
    rewrite Z.max_l by lia. reflexivity.
Qed.

Lemma imageWidth_value (settings : App.Settings) (s d : R) :
  App.maxSize settings = Fin s -> App.density settings = Fin d -> d <> 0 ->
  Rabs (s / d) <= powerRZ 2 1000 ->
  App.imageWidth settings
  = of_nat (Z.to_nat (Z.max 1 (Zfloor (round64 (s / d))))).
Proof.
  intros Hs Hd Hnz Hsmall. unfold App.imageWidth. rewrite Hs, Hd. cbn [jdiv].
  destruct (Req_dec_T d 0) as [Hc|_]; [contradiction|].
  rewrite fl64_Fin by exact Hsmall.
  apply Math_max_one_floor.
Qed.

Lemma imageHeight_value (settings : App.Settings) (s : R) :
  App.maxSize settings = Fin s ->
  App.imageHeight settings = of_nat (Z.to_nat (Z.max 1 (Zfloor s))).
Proof.
  intros Hs. unfold App.imageHeight. rewrite Hs. apply Math_max_one_floor.
Qed.

(** The matrix the extractor builds for whole dimensions. *)
Lemma imageToGrayscaleArray_returns (image : num -> num -> outcome (list Z))
    (w h : nat) (data : list Z) :
  image (of_nat w) (of_nat h) = Returns data ->
  imageToGrayscaleArray image (of_nat w) (of_nat h)
  = Returns (map (fun y : nat =>
                    map (fun x : nat => grayscaleAt data (of_nat w) y x) (seq 0 w))
                 (seq 0 h)).
Proof.
  intros Himg. unfold imageToGrayscaleArray. rewrite Himg.
  cbn [mbind outcome_bind]. rewrite !trip_count_of_nat. reflexivity.
Qed.

Lemma grid_dimensions {A : Type} (f : nat -> nat -> A) (w h : nat) :
  (0 < h)%nat ->
  length (map (fun y : nat => map (fun x : nat => f y x) (seq 0 w)) (seq 0 h)) = h /\
  length (default [] (map (fun y : nat => map (fun x : nat => f y x) (seq 0 w))
                          (seq 0 h) !! 0%nat)) = w.
Proof.
  intros Hh. split; [rewrite length_map, length_seq; reflexivity|].
  rewrite list_lookup_fmap, lookup_seq_lt by exact Hh. simpl.
  rewrite length_map, length_seq. reflexivity.
Qed.

Lemma pow2_m53 : powerRZ 2 (Z.opp 53) = / 9007199254740992.
Proof. rewrite pow2_neg_IZR by lia. reflexivity. Qed.

Lemma pow2_m51 : powerRZ 2 (-51) = / 2251799813685248.
Proof. change (-51)%Z with (Z.opp 51). rewrite pow2_neg_IZR by lia. reflexivity. Qed.

(** A binary64 number is within a relative [2^-53] and an absolute
    [2^-1075] of the number it rounds. *)
Lemma round64_near (x : R) :
  0 <= x ->
  (1 - / 9007199254740992) * x - powerRZ 2 (-1075) <= round64 x
  <= (1 + / 9007199254740992) * x + powerRZ 2 (-1075).
Proof.
  intros Hx. pose proof (roundR_error 53 (-1022) x) as He.
  rewrite pow2_m53, (Rabs_pos_eq x) in He by exact Hx.
  change (-1022 - 53)%Z with (-1075)%Z in He. fold (round64 x) in He.
  pose proof (Rle_abs (round64 x - x)) as H1.
  pose proof (Rle_abs (- (round64 x - x))) as H2. rewrite Rabs_Ropp in H2.
  lra.
Qed.

(** The width of the grid is a whole number of at least 1. *)
Lemma width_bounds (x : R) :
  Rabs x <= powerRZ 2 1000 ->
  1 <= INR (Z.to_nat (Z.max 1 (Zfloor (round64 x)))) <= powerRZ 2 1002.
Proof.
  intros Hx. rewrite INR_IZR_INZ, Z2Nat.id by lia. split; [apply IZR_le; lia|].
  pose proof (pow2_le 0 1000 ltac:(lia)) as H0. rewrite pow2_0 in H0.
  assert (H2 : powerRZ 2 1002 = 4 * powerRZ 2 1000).
  { replace 1002%Z with (1000 + 1 + 1)%Z by lia. rewrite !pow2_succ. lra. }
  destruct (Z.max_spec 1 (Zfloor (round64 x))) as [[_ ->]|[_ ->]]; [|lra].
  pose proof (Zfloor_bound (round64 x)) as [Hfl _].
  pose proof (roundR_abs_upper 53 (-1022) x) as Hu. fold (round64 x) in Hu.
  pose proof (Rle_abs (round64 x)) as Habs.
  pose proof (pow2_le_1 (Z.opp 53) ltac:(lia)) as H3.
  pose proof (pow2_le_1 (-1022 - 53) ltac:(lia)) as H4.
  pose proof (pow2_pos (Z.opp 53)) as H5. pose proof (Rabs_pos x) as H6.
  nra.
Qed.

(** The clip of [W] columns and a duration of [t] seconds has about
    [44100 t] samples: each column has the floor of the binary64 product of
    44100 and the binary64 quotient [t / W]. *)
Lemma clip_samples (W : nat) (t : R) :
  1 <= INR W <= powerRZ 2 1002 -> 0 <= t ->
  let n := Zfloor (round64 (44100 * round64 (t / INR W))) in
  (0 <= n)%Z /\
  44100 * t * (1 - powerRZ 2 (-51)) - INR W - 1 < INR W * IZR n
    < 44100 * t * (1 + powerRZ 2 (-51)) + 1.
Proof.
  intros [HW1 HW2] Ht n.
  set (Wr := INR W) in *. set (eta := powerRZ 2 (-1075)).
  assert (Heta : 0 < eta) by apply pow2_pos.
  set (D := t / Wr).
  assert (HD : Wr * D = t) by (unfold D; field; lra).
  assert (HD0 : 0 <= D).
  { unfold D. apply Rmult_le_pos; [exact Ht|]. left. apply Rinv_0_lt_compat. lra. }
  pose proof (round64_near D HD0) as Hdpc. fold eta in Hdpc.
  assert (Hdpc0 : 0 <= round64 D) by (apply roundR_nonneg; exact HD0).
  set (dpc := round64 D) in *.
  assert (HP0 : 0 <= 44100 * dpc) by lra.
  pose proof (round64_near (44100 * dpc) HP0) as Hp. fold eta in Hp.
  assert (Hp0 : 0 <= round64 (44100 * dpc)) by (apply roundR_nonneg; exact HP0).
  set (p := round64 (44100 * dpc)) in *.
  pose proof (Zfloor_bound p) as [Hn1 Hn2]. change (Zfloor p) with n in Hn1, Hn2.
  assert (Hn0 : (0 <= n)%Z) by (apply Zfloor_lub; simpl; exact Hp0).
  split; [exact Hn0|].
  set (K := Wr * eta).
  assert (HK : 0 <= K <= / 1048576).
  { split; [apply Rmult_le_pos; lra|].
    apply Rle_trans with (powerRZ 2 1002 * eta);
      [apply Rmult_le_compat_r; lra|].
    unfold eta. rewrite <- pow2_add.
    apply Rle_trans with (powerRZ 2 (Z.opp 20)); [apply pow2_le; lia|].
    rewrite pow2_neg_IZR by lia. change (2 ^ 20)%Z with 1048576%Z. lra. }
  rewrite pow2_m51.
  split.
  - assert (Hlow : (1 - / 9007199254740992)
                   * (44100 * ((1 - / 9007199254740992) * D - eta)) - eta - 1
                   < IZR n) by lra.
    apply (Rmult_lt_compat_l Wr) in Hlow; [|lra].
    replace (Wr * ((1 - / 9007199254740992)
                   * (44100 * ((1 - / 9007199254740992) * D - eta)) - eta - 1))
      with ((1 - / 9007199254740992) * (1 - / 9007199254740992) * 44100 * (Wr * D)
            - ((1 - / 9007199254740992) * 44100 + 1) * (Wr * eta) - Wr)
      in Hlow by ring.
    rewrite HD in Hlow. fold K in Hlow. lra.
  - assert (Hup : IZR n
                  <= (1 + / 9007199254740992)
                     * (44100 * ((1 + / 9007199254740992) * D + eta)) + eta) by lra.
    apply (Rmult_le_compat_l Wr) in Hup; [|lra].
    replace (Wr * ((1 + / 9007199254740992)
                   * (44100 * ((1 + / 9007199254740992) * D + eta)) + eta))
      with ((1 + / 9007199254740992) * (1 + / 9007199254740992) * 44100 * (Wr * D)
            + ((1 + / 9007199254740992) * 44100 + 1) * (Wr * eta))
      in Hup by ring.
    rewrite HD in Hup. fold K in Hup. lra.
Qed.

(** The binary64 duration of a column. *)
Lemma durationPerColumn_value (t : R) (W : nat) :
  1 <= INR W -> 0 <= t <= powerRZ 2 1000 ->
  fl64 (jdiv (Fin t) (of_nat W)) = Fin (round64 (t / INR W)).
Proof.
  intros HW Ht. unfold of_nat. cbn [jdiv].
  destruct (Req_dec_T (INR W) 0) as [Hc|_]; [lra|].
  apply fl64_Fin. rewrite Rabs_pos_eq.
  - apply Rle_trans with t; [|lra].
    apply (Rmult_le_reg_r (INR W)); [lra|].
    replace (t / INR W * INR W) with t by (field; lra). nra.
  - apply Rmult_le_pos; [lra|]. left. apply Rinv_0_lt_compat. lra.
Qed.

(** The clip of a grid of [W] columns. *)
Lemma grid_clip (limit : Z) (M : list (list num)) (W : nat) (t : R)
    (lo hi : num) (w : waveShape) :
  (0 < length M)%nat -> length (default [] (M !! 0%nat)) = W ->
  1 <= INR W <= powerRZ 2 1002 -> 0 <= t <= powerRZ 2 1000 ->
  let n := Zfloor (round64 (44100 * round64 (t / INR W))) in
  (Z.of_nat W * n <= maxLength limit)%Z ->
  exists signal : list num,
    generateAudioFromImage limit M App.sampleRate (fl64 (jdiv (Fin t) (of_nat W)))
                           lo hi w = Returns signal /\
    length signal = (W * Z.to_nat n)%nat /\
    44100 * t * (1 - powerRZ 2 (-51)) - INR W - 1 < INR (length signal)
      < 44100 * t * (1 + powerRZ 2 (-51)) + 1.
Proof.
  intros HM HR HW Ht n Hfit.
  destruct (clip_samples W t HW ltac:(lra)) as [Hn0 Hbounds]. fold n in Hn0, Hbounds.
  rewrite durationPerColumn_value by lra. unfold App.sampleRate.
  assert (HWpos : (0 < W)%nat) by (apply INR_lt; simpl; lra).
  destruct (generate_length limit M 44100 (round64 (t / INR W)) lo hi w HM
              ltac:(rewrite HR; exact HWpos))
    as (signal & Hgen & Hlen).
  - apply Rmult_le_pos; [lra|]. apply roundR_nonneg.
    apply Rmult_le_pos; [lra|]. left. apply Rinv_0_lt_compat. lra.
  - rewrite HR. exact Hfit.
  - rewrite HR in Hlen. fold n in Hlen.
    exists signal. split; [exact Hgen|]. split; [exact Hlen|].
    rewrite Hlen, mult_INR, (INR_IZR_INZ (Z.to_nat n)), Z2Nat.id by exact Hn0.
    exact Hbounds.
Qed.

Lemma process_clip (limit : Z) (settings : App.Settings)
    (image : num -> num -> outcome (list Z)) (s d t : R) (data : list Z) :
  App.maxSize settings = Fin s -> App.density settings = Fin d ->
  App.duration settings = Fin t ->
  d <> 0 -> Rabs (s / d) <= powerRZ 2 1000 -> 0 <= t <= powerRZ 2 1000 ->
  let W := Z.to_nat (Z.max 1 (Zfloor (round64 (s / d)))) in
  let H := Z.to_nat (Z.max 1 (Zfloor s)) in
  let n := Zfloor (round64 (44100 * round64 (t / INR W))) in
  (Z.of_nat W * n <= maxLength limit)%Z ->
  image (of_nat W) (of_nat H) = Returns data ->
  exists signal : list num,
    App.processAndUpdateAudio limit settings image = Returns signal /\
    length signal = (W * Z.to_nat n)%nat /\
    44100 * t * (1 - powerRZ 2 (-51)) - INR W - 1 < INR (length signal)
      < 44100 * t * (1 + powerRZ 2 (-51)) + 1.
Proof.
  intros Hs Hd Ht Hnz Hsd Htr W H n Hfit Himg.
  assert (HH : (0 < H)%nat) by (subst H; lia).
  pose proof (width_bounds (s / d) Hsd) as HW. fold W in HW.
  unfold App.processAndUpdateAudio.
  rewrite (imageWidth_value settings s d Hs Hd Hnz Hsd),
          (imageHeight_value settings s Hs).
  fold W H. rewrite (imageToGrayscaleArray_returns image W H data Himg).
  cbn [mbind outcome_bind]. rewrite Ht.
  destruct (grid_dimensions (grayscaleAt data (of_nat W)) W H HH) as [HlenM HlenR].
  apply grid_clip; [rewrite HlenM; exact HH | exact HlenR | exact HW | exact Htr
                   | exact Hfit].
Qed.

(** The clip length.  For finite settings with a non-zero density, a
    quotient [maxSize / density] and a duration [t >= 0] that do not
    overflow, the image is sampled on a grid of
    [W = max(1, floor(maxSize / density))] columns, the quotient being the
    binary64 one, and [H = max(1, floor(maxSize))] rows.  Each column has
    [n] samples, the floor of the binary64 product of 44100 and the
    binary64 quotient [t / W], and where an array of [W * n] elements can
    be allocated the clip handed to the player has [W * n] samples: fewer
    than [44100 t (1 + 2^-51) + 1] and more than
    [44100 t (1 - 2^-51) - W - 1]. *)
Theorem processAndUpdateAudio_clip_length (limit : Z) (settings : App.Settings)
    (image : num -> num -> outcome (list Z)) (s d t : R) (data : list Z) :
  App.maxSize settings = Fin s -> App.density settings = Fin d ->
  App.duration settings = Fin t ->
  d <> 0 -> Rabs (s / d) <= powerRZ 2 1000 -> 0 <= t <= powerRZ 2 1000 ->
  let W := Z.to_nat (Z.max 1 (Zfloor (round64 (s / d)))) in
  let H := Z.to_nat (Z.max 1 (Zfloor s)) in
  let n := Zfloor (round64 (44100 * round64 (t / INR W))) in
  (Z.of_nat W * n <= maxLength limit)%Z ->
  image (of_nat W) (of_nat H) = Returns data ->
  exists signal : list num,
    App.processAndUpdateAudio limit settings image = Returns signal /\
    length signal = (W * Z.to_nat n)%nat /\
    44100 * t * (1 - powerRZ 2 (-51)) - INR W - 1 < INR (length signal)
      < 44100 * t * (1 + powerRZ 2 (-51)) + 1.
Proof. apply process_clip. Qed.

(** The rounding of a number of a known binade. *)
Lemma round64_eval (e m : Z) (x : R) :
  (-1022 <= e)%Z ->
  powerRZ 2 e <= Rabs x < powerRZ 2 (e + 1) ->
  Rabs (x / powerRZ 2 (e - 53 + 1) - IZR m) < 1 / 2 ->
  round64 x = IZR m * powerRZ 2 (e - 53 + 1).
Proof. apply roundR_eval. Qed.

(** The default settings: 256 columns of [6 / 256] seconds, 1033 samples
    each. *)
Lemma default_column :
  Zfloor (round64 (44100 * round64 (6 / INR 256))) = 1033%Z.
Proof.
  replace (INR 256) with 256 by (rewrite INR_IZR_INZ; reflexivity).
  rewrite (round64_eval (-6) 6755399441055744 (6 / 256));
    [|lia | rewrite Rabs_pos_eq by lra; pow2_lit; lra
     | pow2_lit; replace (6 / 256 / / 2 ^ 58 - 6755399441055744) with 0 by lra;
       rewrite Rabs_R0; lra].
  replace (44100 * (6755399441055744 * powerRZ 2 (-6 - 53 + 1)))
    with (66150 / 64) by (pow2_lit; lra).
  rewrite (round64_eval 10 4545793386086400 (66150 / 64));
    [|lia | rewrite Rabs_pos_eq by lra; pow2_lit; lra
     | pow2_lit; replace (66150 / 64 / / 2 ^ 42 - 4545793386086400) with 0 by lra;
       rewrite Rabs_R0; lra].
  apply Zfloor_eq. pow2_lit. simpl. lra.
Qed.

Lemma processAndUpdateAudio_clip_length_witness :
  exists signal : list num,
    App.processAndUpdateAudio 1000000
      {| App.maxSize := Fin 256; App.density := Fin 1; App.duration := Fin 6;
         App.minFreq := Fin 200; App.maxFreq := Fin 8000; App.waveShape := ws_sin |}
      (fun _ _ => Returns []) = Returns signal /\
    length signal = (256 * 1033)%nat.
Proof.
  assert (HW : Z.to_nat (Z.max 1 (Zfloor (round64 (256 / 1)))) = 256%nat).
  { replace (256 / 1) with (IZR 256) by lra.
    rewrite round64_int by (simpl; lia). rewrite Zfloor_IZR. reflexivity. }
  pose proof (processAndUpdateAudio_clip_length 1000000
                {| App.maxSize := Fin 256; App.density := Fin 1; App.duration := Fin 6;
                   App.minFreq := Fin 200; App.maxFreq := Fin 8000;
                   App.waveShape := ws_sin |}
                (fun _ _ => Returns []) 256 1 6 [] eq_refl eq_refl eq_refl) as Hclip.
  cbv zeta in Hclip. rewrite HW, default_column in Hclip.
  destruct Hclip as (signal & Hs & Hl & _).
  - lra.
  - rewrite Rabs_pos_eq by lra. pow2_lit. lra.
  - pow2_lit. lra.
  - vm_compute. discriminate.
  - reflexivity.
  - exists signal. split; [exact Hs | exact Hl].
Defined.

(** At size 784, density 8 and a duration of one second the grid has 98
    columns; the binary64 quotient [1 / 98] times 44100 rounds to a number
    just below 450, so each column has 449 samples and the clip 44002: 98
    samples short of one second. *)
Example clip_784_8_1 (image : num -> num -> outcome (list Z)) (data : list Z) :
  image (of_nat 98) (of_nat 784) = Returns data ->
  exists signal : list num,
    App.processAndUpdateAudio 1000000
      {| App.maxSize := Fin 784; App.density := Fin 8; App.duration := Fin 1;
         App.minFreq := Fin 200; App.maxFreq := Fin 8000; App.waveShape := ws_sin |}
      image = Returns signal /\
    length signal = (98 * 449)%nat.
Proof.
  intros Himg.
  assert (HW : Z.to_nat (Z.max 1 (Zfloor (round64 (784 / 8)))) = 98%nat).
  { replace (784 / 8) with (IZR 98) by lra.
    rewrite round64_int by (simpl; lia). rewrite Zfloor_IZR. reflexivity. }
  assert (HH : Z.to_nat (Z.max 1 (Zfloor 784)) = 784%nat).
  { rewrite (Zfloor_IZR 784). reflexivity. }
  assert (Hn : Zfloor (round64 (44100 * round64 (1 / INR 98))) = 449%Z).
  { replace (INR 98) with 98 by (rewrite INR_IZR_INZ; reflexivity).
    rewrite (round64_eval (-7) 5882252574524729 (1 / 98));
      [|lia | rewrite Rabs_pos_eq by lra; pow2_lit; lra
       | pow2_lit;
         replace (1 / 98 / / 2 ^ 59 - 5882252574524729) with (23 / 49) by lra;
         rewrite Rabs_pos_eq by lra; lra].
    replace (44100 * (5882252574524729 * powerRZ 2 (-7 - 53 + 1)))
      with (44100 * 5882252574524729 / 2 ^ 59) by (pow2_lit; lra).
    rewrite (round64_eval 8 7916483719987199);
      [|lia | rewrite Rabs_pos_eq by lra; pow2_lit; lra
       | pow2_lit;
         replace (44100 * 5882252574524729 / 2 ^ 59 / / 2 ^ 44 - 7916483719987199)
           with (3017 / 8192) by lra;
         rewrite Rabs_pos_eq by lra; lra].
    apply Zfloor_eq. pow2_lit. simpl. lra. }
  pose proof (process_clip 1000000
                {| App.maxSize := Fin 784; App.density := Fin 8; App.duration := Fin 1;
                   App.minFreq := Fin 200; App.maxFreq := Fin 8000;
                   App.waveShape := ws_sin |}
                image 784 8 1 data eq_refl eq_refl eq_refl) as Hclip.
  cbv zeta in Hclip. rewrite HW, HH, Hn in Hclip.
  destruct Hclip as (signal & Hs & Hl & _).
  - lra.
  - rewrite Rabs_pos_eq by lra. pow2_lit. lra.
  - pow2_lit. lra.
  - vm_compute. discriminate.
  - exact Himg.
  - exists signal. split; [exact Hs | exact Hl].
Qed.

(** Loading an image whose advice is [t] seconds. *)
Lemma loaded_clip (limit : Z) (settings : App.Settings)
    (image : num -> num -> outcome (list Z)) (s d : R) (data : list Z) :
  App.maxSize settings = Fin s -> App.density settings = Fin d -> d <> 0 ->
  Rabs (s / d) <= powerRZ 2 1000 ->
  (529201 <= maxLength limit)%Z ->
  let W := Z.to_nat (Z.max 1 (Zfloor (round64 (s / d)))) in
  let H := Z.to_nat (Z.max 1 (Zfloor s)) in
  image (of_nat W) (of_nat H) = Returns data ->
  length data = (4 * W * H)%nat ->
  Forall (fun v => (0 <= v <= 255)%Z) data ->
  exists (signal : list num) (zdu zmi zma : Z),
    let final :=
      {| App.maxSize := App.maxSize settings; App.density := App.density settings;
         App.duration := Fin (IZR zdu / 10); App.minFreq := Fin (IZR zmi);
         App.maxFreq := Fin (IZR zma); App.waveShape := App.waveShape settings |} in
    App.handleImageLoaded limit settings image = Returns (final, signal) /\
    (30 <= zdu <= 120)%Z /\ (20 <= zmi <= 400)%Z /\
    (zmi + 2000 <= zma <= 20000)%Z /\
    44100 * (IZR zdu / 10) * (1 - powerRZ 2 (-51)) - INR W - 1
      < INR (length signal)
      < 44100 * (IZR zdu / 10) * (1 + powerRZ 2 (-51)) + 1 /\
    App.processAndUpdateAudio limit final image = Returns signal.
Proof.
  intros Hs Hd Hnz Hsd Hlimit W H Himg Hlen Hbytes.
  assert (HH : (0 < H)%nat) by (subst H; lia).
  pose proof (width_bounds (s / d) Hsd) as HW. fold W in HW.
  assert (HWpos : (0 < W)%nat) by (apply INR_lt; simpl; lra).
  destruct (grayscale_matrix image W H data Himg Hlen Hbytes)
    as (M & HM & HlenM & Hrows & Hcells & _).
  assert (HlenR : length (default [] (M !! 0%nat)) = W).
  { destruct (lookup_lt_is_Some_2 M 0%nat ltac:(lia)) as [row Hrow].
    rewrite Hrow. rewrite Forall_lookup in Hrows. exact (Hrows _ _ Hrow). }
  destruct (advisor_patch M ltac:(lia) ltac:(lia) Hcells)
    as (zdu & zmi & zma & Hpatch & Hdu & Hmi & Hma).
  assert (Ht : 3 <= IZR zdu / 10 <= 12).
  { destruct Hdu as [Hd1 Hd2]. apply (IZR_le 30) in Hd1. apply (IZR_le _ 120) in Hd2.
    lra. }
  assert (Htr : 0 <= IZR zdu / 10 <= powerRZ 2 1000).
  { split; [lra|]. apply Rle_trans with (powerRZ 2 4); [pow2_lit; lra|].
    apply pow2_le. lia. }
  destruct (clip_samples W (IZR zdu / 10) HW ltac:(lra)) as [Hn0 [_ Hup]].
  assert (Hfit : (Z.of_nat W
                  * Zfloor (round64 (44100 * round64 (IZR zdu / 10 / INR W)))
                  <= maxLength limit)%Z).
  { apply Z.le_trans with 529201%Z; [|exact Hlimit]. apply Z.lt_succ_r.
    apply lt_IZR. rewrite mult_IZR, <- INR_IZR_INZ.
    rewrite pow2_m51 in Hup. change (Z.succ 529201) with 529202%Z. lra. }
  destruct (grid_clip limit M W (IZR zdu / 10) (Fin (IZR zmi)) (Fin (IZR zma))
              (App.waveShape settings) ltac:(lia) HlenR HW Htr Hfit)
    as (signal & Hgen & _ & Hbounds).
  exists signal, zdu, zmi, zma. cbv zeta.
  assert (Hwidth : forall st : App.Settings,
            App.maxSize st = App.maxSize settings ->
            App.density st = App.density settings ->
            App.imageWidth st = of_nat W).
  { intros st Hms Hds. apply imageWidth_value; [rewrite Hms; exact Hs
                                               | rewrite Hds; exact Hd | exact Hnz
                                               | exact Hsd]. }
  split.
  - unfold App.handleImageLoaded.
    rewrite (Hwidth settings eq_refl eq_refl), (imageHeight_value settings s Hs).
    fold H. rewrite HM. cbn [mbind outcome_bind]. rewrite Hpatch.
    cbn [App.mergeSettings]. rewrite Hwidth by reflexivity.
    cbn [App.duration App.minFreq App.maxFreq App.waveShape].
    rewrite Hgen. reflexivity.
  - split; [exact Hdu|]. split; [exact Hmi|]. split; [exact Hma|].
    split; [exact Hbounds|].
    unfold App.processAndUpdateAudio. rewrite Hwidth by reflexivity.
    unfold App.imageHeight. cbn [App.maxSize].
    change (Math_max (Fin 1) (Math_floor (App.maxSize settings)))
      with (App.imageHeight settings).
    rewrite (imageHeight_value settings s Hs). fold H.
    rewrite HM. cbn [mbind outcome_bind].
    cbn [App.duration App.minFreq App.maxFreq App.waveShape].
    exact Hgen.
Qed.

(** Loading an image.  For finite size settings whose binary64 quotient
    [maxSize / density] does not overflow, the bytes of a [W] by [H] image
    and an engine that allocates arrays of 529201 elements (twelve seconds
    and a sample), the handler replaces the duration and the two
    frequencies by the advisor's patch and keeps the size, the density and
    the wave shape; the new frequencies are integers with
    [20 <= minFreq <= 400] and [minFreq + 2000 <= maxFreq <= 20000], the
    new duration [t] is a whole number of tenths between 3 and 12 seconds;
    the clip has fewer than [44100 t (1 + 2^-51) + 1] and more than
    [44100 t (1 - 2^-51) - W - 1] samples and is the clip that re-processing
    the image with the new settings gives. *)
Theorem handleImageLoaded_settings (limit : Z) (settings : App.Settings)
    (image : num -> num -> outcome (list Z)) (s d : R) (data : list Z) :
  App.maxSize settings = Fin s -> App.density settings = Fin d -> d <> 0 ->
  Rabs (s / d) <= powerRZ 2 1000 ->
  (529201 <= maxLength limit)%Z ->
  let W := Z.to_nat (Z.max 1 (Zfloor (round64 (s / d)))) in
  let H := Z.to_nat (Z.max 1 (Zfloor s)) in
  image (of_nat W) (of_nat H) = Returns data ->
  length data = (4 * W * H)%nat ->
  Forall (fun v => (0 <= v <= 255)%Z) data ->
  exists (signal : list num) (zdu zmi zma : Z),
    let final :=
      {| App.maxSize := App.maxSize settings; App.density := App.density settings;
         App.duration := Fin (IZR zdu / 10); App.minFreq := Fin (IZR zmi);
         App.maxFreq := Fin (IZR zma); App.waveShape := App.waveShape settings |} in
    App.handleImageLoaded limit settings image = Returns (final, signal) /\
    (30 <= zdu <= 120)%Z /\ (20 <= zmi <= 400)%Z /\
    (zmi + 2000 <= zma <= 20000)%Z /\
    44100 * (IZR zdu / 10) * (1 - powerRZ 2 (-51)) - INR W - 1
      < INR (length signal)
      < 44100 * (IZR zdu / 10) * (1 + powerRZ 2 (-51)) + 1 /\
    App.processAndUpdateAudio limit final image = Returns signal.
Proof. apply loaded_clip. Qed.

Lemma handleImageLoaded_settings_witness :
  exists (signal : list num) (zdu zmi zma : Z),
    let final :=
      {| App.maxSize := Fin 1; App.density := Fin 1;
         App.duration := Fin (IZR zdu / 10); App.minFreq := Fin (IZR zmi);
         App.maxFreq := Fin (IZR zma); App.waveShape := ws_sin |} in
    App.handleImageLoaded 1000000
      {| App.maxSize := Fin 1; App.density := Fin 1; App.duration := Fin 5;
         App.minFreq := Fin 200; App.maxFreq := Fin 8000; App.waveShape := ws_sin |}
      (fun _ _ => Returns [0; 0; 0; 255]%Z) = Returns (final, signal) /\
    (30 <= zdu <= 120)%Z /\ (20 <= zmi <= 400)%Z /\
    (zmi + 2000 <= zma <= 20000)%Z /\
    App.processAndUpdateAudio 1000000 final (fun _ _ => Returns [0; 0; 0; 255]%Z)
    = Returns signal.
Proof.
  assert (HW : Z.to_nat (Z.max 1 (Zfloor (round64 (1 / 1)))) = 1%nat).
  { replace (1 / 1) with (IZR 1) by lra.
    rewrite round64_int by (simpl; lia). rewrite Zfloor_IZR. reflexivity. }
  pose proof (handleImageLoaded_settings 1000000
                {| App.maxSize := Fin 1; App.density := Fin 1; App.duration := Fin 5;
                   App.minFreq := Fin 200; App.maxFreq := Fin 8000;
                   App.waveShape := ws_sin |}
                (fun _ _ => Returns [0; 0; 0; 255]%Z) 1 1 [0; 0; 0; 255]%Z
                eq_refl eq_refl) as Hload.
  cbv zeta in Hload. rewrite HW in Hload.
  destruct Hload as (signal & zdu & zmi & zma & Hret & Hdu & Hmi & Hma & _ & Hproc).
  - lra.
  - rewrite Rabs_pos_eq by lra. pow2_lit. lra.
  - vm_compute. discriminate.
  - reflexivity.
  - rewrite (Zfloor_IZR 1). reflexivity.
  - repeat constructor; lia.
  - exists signal, zdu, zmi, zma. cbv zeta.
    split; [exact Hret|]. split; [exact Hdu|]. split; [exact Hmi|].
    split; [exact Hma | exact Hproc].
Defined.

End AppFacts.

(** * The name of the download and the view toggle *)

Section DownloadName.
Local Open Scope string_scope.

Lemma split_nonempty (sep : ascii) (str : string) : split sep str <> [].
Proof.
  destruct str as [|c rest]; cbn [split]; [discriminate|].
  destruct (Ascii.eqb c sep); [discriminate|].
  destruct (split sep rest); discriminate.
Qed.

(** Joining the pieces of a split with the separator gives the string back. *)
Lemma join_split (sep : ascii) (str : string) :
  join (String sep EmptyString) (split sep str) = str.
Proof.
  induction str as [|c rest IH]; [reflexivity|]. cbn [split].
  destruct (Ascii.eqb c sep) eqn:Hc.
  - apply Ascii.eqb_eq in Hc. subst c.
    destruct (split sep rest) as [|piece pieces] eqn:Hs.
    + exfalso. exact (split_nonempty sep rest Hs).
    + change (join (String sep EmptyString) (EmptyString :: piece :: pieces))
        with (String sep (join (String sep EmptyString) (piece :: pieces))).
      rewrite IH. reflexivity.
  - destruct (split sep rest) as [|piece pieces] eqn:Hs.
    + exfalso. exact (split_nonempty sep rest Hs).
    + destruct pieces as [|piece' pieces'].
      * cbn [join] in *. rewrite IH. reflexivity.
      * change (join (String sep EmptyString) (String c piece :: piece' :: pieces'))
          with (String c (join (String sep EmptyString) (piece :: piece' :: pieces'))).
        rewrite IH. reflexivity.
Qed.

Lemma split_without_sep (sep : ascii) (str : string) :
  Forall (fun c : ascii => c <> sep) (list_ascii_of_string str) ->
  split sep str = [str].
Proof.
  induction str as [|c rest IH]; intros Hfree; [reflexivity|].
  cbn [list_ascii_of_string] in Hfree. inversion Hfree as [|? ? Hc Hrest]; subst.
  cbn [split]. destruct (Ascii.eqb c sep) eqn:Heq.
  - apply Ascii.eqb_eq in Heq. contradiction.
  - rewrite (IH Hrest). reflexivity.
Qed.

Lemma split_append (sep : ascii) (a b : string) :
  split sep (a ++ String sep b) = (split sep a ++ split sep b)%list.
Proof.
  induction a as [|c rest IH]; cbn [append split].
  - rewrite Ascii.eqb_refl. reflexivity.
  - destruct (Ascii.eqb c sep); rewrite IH; [reflexivity|].
    destruct (split sep rest) as [|piece pieces] eqn:Hs.
    + exfalso. exact (split_nonempty sep rest Hs).
    + reflexivity.
Qed.

Lemma downloadName_nonempty (name : string) :
  name <> EmptyString ->
  App.downloadName (Some name)
  = join "." (removelast (split "." name)) ++ ".wav".
Proof.
  intros Hne. destruct name as [|c rest]; [contradiction | reflexivity].
Qed.

(** The download is named after the image: a name [stem.ext], where [ext]
    has no dot, gives [stem.wav], whatever dots [stem] has; a name without
    any dot gives [.wav], with an empty stem; no name, or the empty name,
    gives [generated_sound.wav]. *)
Theorem downloadName_stem (stem ext : string) :
  dot_free ext ->
  App.downloadName (Some (stem ++ "." ++ ext)) = stem ++ ".wav" /\
  (ext <> EmptyString -> App.downloadName (Some ext) = ".wav") /\
  App.downloadName None = "generated_sound.wav" /\
  App.downloadName (Some EmptyString) = "generated_sound.wav".
Proof.
  intros Hfree. split; [|split; [|split; reflexivity]].
  - rewrite downloadName_nonempty by (destruct stem; discriminate).
    change ("." ++ ext) with (String "." ext).
    rewrite split_append, (split_without_sep "." ext Hfree), removelast_last.
    rewrite (join_split "." stem). reflexivity.
  - intros Hne. rewrite downloadName_nonempty by exact Hne.
    rewrite (split_without_sep "." ext Hfree). reflexivity.
Qed.

Lemma downloadName_stem_witness :
  App.downloadName (Some ("my.photo" ++ "." ++ "png")) = "my.photo" ++ ".wav".
Proof.
  apply (downloadName_stem "my.photo" "png").
  unfold dot_free. cbn [list_ascii_of_string]. repeat constructor; discriminate.
Defined.

(** The view toggle goes round the three views, never staying where it is,
    and the title of the toggle button names the view the toggle switches
    to. *)
Theorem handleToggleView_cycle (v : ViewMode) :
  App.handleToggleView v <> v /\
  App.handleToggleView (App.handleToggleView v) <> v /\
  App.handleToggleView (App.handleToggleView (App.handleToggleView v)) = v /\
  (App.handleToggleView v = waveform <->
   getToggleViewTitle v = "Switch to Waveform View") /\
  (App.handleToggleView v = equation <->
   getToggleViewTitle v = "Switch to Equation View") /\
  (App.handleToggleView v = spectrogram <->
   getToggleViewTitle v = "Switch to Spectrogram View").
Proof.
  destruct v; cbn [App.handleToggleView getToggleViewTitle];
    repeat split; try discriminate; try reflexivity; intros Hc; discriminate Hc.
Qed.

End DownloadName.

(** * The waveform view *)

Section WaveformFacts.
Local Open Scope R_scope.

Lemma waveform_fold (Ht sw : R) (l : list R) :
  forall (k : nat) (acc : list pathCommand) (x0 : R),
    let st := fold_left (waveformStep (Fin Ht) (Fin sw))
                        (zip (seq k (length l)) (map Fin l)) (acc, Fin x0) in
    length st.1 = (length acc + length l)%nat /\
    (forall j : nat, (j < length acc)%nat -> st.1 !! j = acc !! j) /\
    (forall (i : nat) (v : R), l !! i = Some v ->
       exists x : R,
         x = x0 + INR i * sw /\
         st.1 !! (length acc + i)%nat
         = Some (if decide ((k + i)%nat = 0%nat)
                 then moveTo (Fin x) (Fin (v * Ht / 2 + Ht / 2))
                 else lineTo (Fin x) (Fin (v * Ht / 2 + Ht / 2)))).
Proof.
  induction l as [|v t IH]; intros k acc x0.
  - cbn [length seq map zip zip_with fold_left fst]. split; [lia|].
    split; [reflexivity|]. intros i v' Hc. discriminate Hc.
  - cbn [length seq map zip zip_with fold_left].
    assert (Hstep : waveformStep (Fin Ht) (Fin sw) (acc, Fin x0) (k, Fin v)
                    = (acc ++ [if decide (k = 0%nat)
                               then moveTo (Fin x0) (Fin (v * Ht / 2 + Ht / 2))
                               else lineTo (Fin x0) (Fin (v * Ht / 2 + Ht / 2))],
                       Fin (x0 + sw))).
    { unfold waveformStep. cbn [fst snd jmul jdiv jadd].
      destruct (Req_dec_T 2 0) as [Hc|_]; [lra|]. reflexivity. }
    rewrite Hstep.
    destruct (IH (S k) (acc ++ [if decide (k = 0%nat)
                                then moveTo (Fin x0) (Fin (v * Ht / 2 + Ht / 2))
                                else lineTo (Fin x0) (Fin (v * Ht / 2 + Ht / 2))])
                 (x0 + sw)) as (Hlen & Hold & Hnew).
    rewrite length_app in Hlen, Hold, Hnew. cbn [length] in Hlen, Hold, Hnew.
    split; [rewrite Hlen; lia|]. split.
    + intros j Hj. rewrite Hold by lia. apply lookup_app_l. exact Hj.
    + intros [|i] v' Hv.
      * injection Hv as <-. exists x0. split; [simpl; lra|].
        rewrite !Nat.add_0_r, Hold by lia.
        rewrite lookup_app_r by lia. rewrite Nat.sub_diag. reflexivity.
      * destruct (Hnew i v' Hv) as (x & Hx & Hlook).
        exists x. split; [rewrite Hx, S_INR; lra|].
        replace (length acc + S i)%nat with (length acc + 1 + i)%nat by lia.
        rewrite Hlook.
        destruct (decide ((S k + i)%nat = 0%nat)) as [Hc|_]; [lia|].
        destruct (decide ((k + S i)%nat = 0%nat)) as [Hc|_]; [lia|].
        reflexivity.
Qed.

(** The polyline of the waveform view.  For a canvas of [width] by
    [height] and a non-empty buffer of [n] samples in [[-1, 1]] the path has
    [n + 1] commands: sample [i] is the vertex
    [(i * width / n, v * height / 2 + height / 2)], a [moveTo] for the first
    sample and a [lineTo] for the others, every vertex lies on the canvas,
    a sample of -1 is at the top edge and a sample of 1 at the bottom edge,
    and the path ends with a line to the middle of the right edge. *)
Theorem drawWaveform_vertices (width height : R) (vs : list R) :
  0 <= width -> 0 <= height -> (0 < length vs)%nat ->
  Forall (fun v => - 1 <= v <= 1) vs ->
  let path := drawWaveform (Fin width) (Fin height) (map Fin vs) in
  length path = S (length vs) /\
  path !! length vs = Some (lineTo (Fin width) (Fin (height / 2))) /\
  (forall (i : nat) (v : R), vs !! i = Some v ->
     exists x y : R,
       path !! i = Some (if decide (i = 0%nat) then moveTo (Fin x) (Fin y)
                         else lineTo (Fin x) (Fin y)) /\
       x = INR i * width / INR (length vs) /\
       y = v * height / 2 + height / 2 /\
       0 <= x <= width /\ 0 <= y <= height /\
       (v = - 1 -> y = 0) /\ (v = 1 -> y = height)).
Proof.
  intros Hw Hh Hn Hvs path.
  assert (Hnr : 0 < INR (length vs)) by (apply lt_0_INR; exact Hn).
  assert (Hhalf : jdiv (Fin height) (Fin 2) = Fin (height / 2)).
  { cbn [jdiv]. destruct (Req_dec_T 2 0) as [Hc|_]; [lra | reflexivity]. }
  assert (Hslice : jdiv (jmul (Fin width) (Fin 1)) (of_nat (length (map Fin vs)))
                   = Fin (width * 1 / INR (length vs))).
  { rewrite length_map. unfold of_nat. cbn [jmul jdiv].
    destruct (Req_dec_T (INR (length vs)) 0) as [Hc|_]; [lra | reflexivity]. }
  destruct (waveform_fold height (width * 1 / INR (length vs)) vs 0 [] 0)
    as (Hlen & _ & Hnew).
  cbn [length] in Hlen, Hnew.
  assert (Hpath : path
                  = (fold_left (waveformStep (Fin height)
                                             (Fin (width * 1 / INR (length vs))))
                               (zip (seq 0 (length vs)) (map Fin vs)) ([], Fin 0)).1
                    ++ [lineTo (Fin width) (Fin (height / 2))]).
  { subst path. unfold drawWaveform. rewrite Hslice, Hhalf, length_map. reflexivity. }
  rewrite Hpath. split; [rewrite length_app, Hlen; simpl; lia|]. split.
  - rewrite lookup_app_r by (rewrite Hlen; lia).
    rewrite Hlen, Nat.add_0_l, Nat.sub_diag. reflexivity.
  - intros i v Hv. destruct (Hnew i v Hv) as (x & Hx & Hlook).
    assert (Hi : (i < length vs)%nat) by (apply lookup_lt_is_Some; eexists; exact Hv).
    exists x, (v * height / 2 + height / 2).
    split; [rewrite lookup_app_l by (rewrite Hlen; lia); exact Hlook|].
    assert (Hxv : x = INR i * width / INR (length vs)) by (rewrite Hx; field; lra).
    split; [exact Hxv|]. split; [reflexivity|].
    rewrite Forall_lookup in Hvs. pose proof (Hvs _ _ Hv) as Hvr.
    assert (Hir : 0 <= INR i <= INR (length vs)).
    { split; [apply pos_INR | apply le_INR; lia]. }
    split.
    { assert (Hq : 0 <= INR i / INR (length vs) <= 1).
      { split.
        - apply Rmult_le_pos; [lra|]. left. apply Rinv_0_lt_compat. exact Hnr.
        - apply (Rmult_le_reg_r (INR (length vs))); [exact Hnr|].
          unfold Rdiv. rewrite Rmult_assoc, Rinv_l by lra. lra. }
      replace x with (INR i / INR (length vs) * width) by (rewrite Hxv; field; lra).
      split; nra. }
    split; [split; nra|]. split; intros ->; lra.
Qed.

Lemma drawWaveform_vertices_witness :
  let path := drawWaveform (Fin 300) (Fin 100) (map Fin [1; - 1]) in
  length path = 3%nat /\
  path !! 2%nat = Some (lineTo (Fin 300) (Fin (100 / 2))).
Proof.
  refine (let H := drawWaveform_vertices 300 100 [1; - 1] _ _ _ _ in
          conj (proj1 H) (proj1 (proj2 H))).
  - lra.
  - lra.
  - simpl. lia.
  - repeat constructor; lra.
Defined.

End WaveformFacts.

(** * The spectrum of a real signal *)

Section RealInput.
Local Open Scope R_scope.

Lemma series_ext_in {A : Type} (l : list A) :
  forall f g : nat -> A -> R,
    (forall n a, In a l -> f n a = g n a) -> series f l = series g l.
Proof.
  induction l as [|a t IH]; intros f g Hfg; [reflexivity|].
  cbn [series]. rewrite Hfg by (left; reflexivity). f_equal.
  apply IH. intros n b Hb. apply Hfg. right. exact Hb.
Qed.

Lemma series_values {A : Type} (g : A -> R) (l : list A) :
  series (fun _ a => g a) l = fold_right Rplus 0 (map g l).
Proof.
  induction l as [|a t IH]; [reflexivity|].
  cbn [series map fold_right]. rewrite IH. reflexivity.
Qed.

(** Bin 0 of a real sequence is the sum of its entries. *)
Lemma dft_real_zero (vs : list R) :
  (0 < length vs)%nat ->
  dft (map (fun v => (v, 0)) vs) 0 = (fold_right Rplus 0 vs, 0).
Proof.
  intros Hn. unfold dft. rewrite length_map.
  assert (HN : 0 < INR (length vs)) by (apply lt_0_INR; exact Hn).
  assert (Hth : forall n : nat, - 2 * PI * INR 0 * INR n / INR (length vs) = 0).
  { intros n. simpl INR. field. lra. }
  f_equal.
  - rewrite (series_ext _ (fun _ p => p.1)).
    + rewrite series_values, map_map. cbn [fst]. rewrite map_id. reflexivity.
    + intros n p. rewrite Hth, cos_0, sin_0. lra.
  - apply series_zero. intros n p Hp. apply in_map_iff in Hp.
    destruct Hp as (v & <- & _). cbn [fst snd]. rewrite Hth, cos_0, sin_0. lra.
Qed.

(** Bin [N - k] of a real sequence of length [N] is the conjugate of bin [k]. *)
Lemma dft_real_mirror (vs : list R) (k : nat) :
  (0 < k < length vs)%nat ->
  dft (map (fun v => (v, 0)) vs) (length vs - k)
  = ((dft (map (fun v => (v, 0)) vs) k).1, - (dft (map (fun v => (v, 0)) vs) k).2).
Proof.
  intros Hk. unfold dft. rewrite length_map. cbn [fst snd].
  assert (HN : 0 < INR (length vs)) by (apply lt_0_INR; lia).
  assert (Hth : forall n : nat,
            - 2 * PI * INR (length vs - k) * INR n / INR (length vs)
            = - (- 2 * PI * INR k * INR n / INR (length vs)) - 2 * INR n * PI).
  { intros n. rewrite minus_INR by lia. field. lra. }
  f_equal.
  - apply series_ext_in. intros n p Hp.
    apply in_map_iff in Hp. destruct Hp as (v & <- & _). cbn [fst snd].
    rewrite Hth, cos_turns, sin_turns, cos_neg, sin_neg. lra.
  - rewrite <- (Rplus_0_r (- series _ _)).
    replace (- series (fun (n : nat) (p : R * R) =>
                         p.2 * cos (- 2 * PI * INR k * INR n / INR (length vs))
                         + p.1 * sin (- 2 * PI * INR k * INR n / INR (length vs)))
                      (map (fun v => (v, 0)) vs) + 0)
      with (- 1 * series (fun (n : nat) (p : R * R) =>
                            p.2 * cos (- 2 * PI * INR k * INR n / INR (length vs))
                            + p.1 * sin (- 2 * PI * INR k * INR n / INR (length vs)))
                         (map (fun v => (v, 0)) vs)
            + 0 * series (fun _ _ => 0) (map (fun v => (v, 0)) vs)) by lra.
    rewrite <- series_linear. apply series_ext_in. intros n p Hp.
    apply in_map_iff in Hp. destruct Hp as (v & <- & _). cbn [fst snd].
    rewrite Hth, cos_turns, sin_turns, cos_neg, sin_neg. lra.
Qed.

(** For a real signal whose length [N] is a power of two the transform
    returns finite bins, bin 0 is the sum of the samples, and bin [N - k] is
    the complex conjugate of bin [k]: the upper half of the spectrum, which
    the analyzer drops, mirrors the lower half. *)
Theorem fft_radix2_real_input (m : nat) (vs : list R) :
  length vs = (2 ^ m)%nat ->
  exists bins : list (R * R),
    fft_radix2 (map (fun v => {| re := Fin v; im := Fin 0 |}) vs)
    = Returns (map toComplex bins) /\
    length bins = length vs /\
    bins !! 0%nat = Some (fold_right Rplus 0 vs, 0) /\
    (forall (k : nat) (a b : R),
       (0 < k < length vs)%nat -> bins !! k = Some (a, b) ->
       bins !! (length vs - k)%nat = Some (a, - b)).
Proof.
  intros Hlen.
  assert (Hn : (0 < length vs)%nat).
  { rewrite Hlen. apply Nat.neq_0_lt_0, Nat.pow_nonzero. lia. }
  set (ps := map (fun v : R => (v, 0)) vs).
  assert (Hps : length ps = (2 ^ m)%nat) by (subst ps; rewrite length_map; exact Hlen).
  exists (map (dft ps) (seq 0 (length vs))).
  split.
  { replace (map (fun v => {| re := Fin v; im := Fin 0 |}) vs) with (map toComplex ps)
      by (subst ps; rewrite map_map; reflexivity).
    rewrite (fft_radix2_dft m ps Hps), map_map.
    subst ps. rewrite length_map. reflexivity. }
  split; [rewrite length_map, length_seq; reflexivity|].
  split.
  { rewrite list_lookup_fmap, lookup_seq_lt by exact Hn.
    change (Some (dft ps 0) = Some (fold_right Rplus 0 vs, 0)).
    f_equal. apply dft_real_zero. exact Hn. }
  intros k a b Hk Hbin.
  rewrite list_lookup_fmap, lookup_seq_lt in Hbin by lia.
  rewrite list_lookup_fmap, lookup_seq_lt by lia.
  change (Some (dft ps k) = Some (a, b)) in Hbin.
  change (Some (dft ps (length vs - k)) = Some (a, - b)).
  apply (inj Some) in Hbin. f_equal.
  unfold ps. rewrite dft_real_mirror by exact Hk. fold ps. rewrite Hbin. reflexivity.
Qed.

Lemma fft_radix2_real_input_witness :
  exists bins : list (R * R),
    fft_radix2 (map (fun v => {| re := Fin v; im := Fin 0 |}) [1; 2; 3; 4])
    = Returns (map toComplex bins) /\
    length bins = length [1; 2; 3; 4] /\
    bins !! 0%nat = Some (fold_right Rplus 0 [1; 2; 3; 4], 0) /\
    (forall (k : nat) (a b : R),
       (0 < k < length [1; 2; 3; 4])%nat -> bins !! k = Some (a, b) ->
       bins !! (length [1; 2; 3; 4] - k)%nat = Some (a, - b)).
Proof.
  apply (fft_radix2_real_input 2 [1; 2; 3; 4]). reflexivity.
Defined.

End RealInput.

(** * The spectrogram view *)

Section SpectrogramView.
Local Open Scope R_scope.

Lemma scanStep_finite (specData : list (list num)) (t f : nat) (lo hi v : R) :
  cell specData f t = Some (Fin v) ->
  scanStep specData t (Fin lo, Fin hi) f = (Fin (Rmin lo v), Fin (Rmax hi v)).
Proof.
  intros Hv. unfold scanStep. rewrite Hv.
  change (default NaN (Some (Fin v))) with (Fin v). cbn [fst snd]. unfold jgt, jlt.
  f_equal.
  - destruct (Rlt_dec v lo) as [Hlt|Hge].
    + rewrite Rmin_right by lra. reflexivity.
    + rewrite Rmin_left by lra. reflexivity.
  - destruct (Rlt_dec hi v) as [Hlt|Hge].
    + rewrite Rmax_right by lra. reflexivity.
    + rewrite Rmax_left by lra. reflexivity.
Qed.

(** The scan of one column of the matrix. *)
Lemma scan_column (specData : list (list num)) (t : nat) (fs : list nat) :
  (forall f : nat, In f fs -> exists v : R, cell specData f t = Some (Fin v)) ->
  forall lo hi : R,
  exists lo' hi' : R,
    fold_left (scanStep specData t) fs (Fin lo, Fin hi) = (Fin lo', Fin hi') /\
    lo' <= lo /\ hi <= hi' /\
    (forall (f : nat) (v : R),
       In f fs -> cell specData f t = Some (Fin v) -> lo' <= v <= hi').
Proof.
  induction fs as [|f fs IH]; intros Hfin lo hi.
  - exists lo, hi. split; [reflexivity|]. split; [lra|]. split; [lra|].
    intros f v [].
  - destruct (Hfin f ltac:(left; reflexivity)) as [v Hv].
    cbn [fold_left]. rewrite (scanStep_finite _ _ _ _ _ _ Hv).
    destruct (IH (fun f' Hf' => Hfin f' (or_intror Hf')) (Rmin lo v) (Rmax hi v))
      as (lo' & hi' & Hfold & Hlo & Hhi & Hall).
    exists lo', hi'. split; [exact Hfold|].
    pose proof (Rmin_l lo v). pose proof (Rmin_r lo v).
    pose proof (Rmax_l hi v). pose proof (Rmax_r hi v).
    split; [lra|]. split; [lra|].
    intros f' v' [<-|Hin] Hv'.
    + rewrite Hv in Hv'. injection Hv' as <-. lra.
    + exact (Hall f' v' Hin Hv').
Qed.

(** The scan of the whole matrix. *)
Lemma scan_matrix (specData : list (list num)) (fs ts : list nat) :
  (forall f t : nat, In f fs -> In t ts ->
     exists v : R, cell specData f t = Some (Fin v)) ->
  forall lo hi : R,
  exists lo' hi' : R,
    fold_left (fun st t => fold_left (scanStep specData t) fs st) ts (Fin lo, Fin hi)
    = (Fin lo', Fin hi') /\
    lo' <= lo /\ hi <= hi' /\
    (forall (f t : nat) (v : R),
       In f fs -> In t ts -> cell specData f t = Some (Fin v) -> lo' <= v <= hi').
Proof.
  induction ts as [|t ts IH]; intros Hfin lo hi.
  - exists lo, hi. split; [reflexivity|]. split; [lra|]. split; [lra|].
    intros f t v _ [].
  - cbn [fold_left].
    destruct (scan_column specData t fs
                (fun f Hf => Hfin f t Hf (or_introl eq_refl)) lo hi)
      as (lo1 & hi1 & -> & Hlo1 & Hhi1 & Hall1).
    destruct (IH (fun f t' Hf Ht' => Hfin f t' Hf (or_intror Ht')) lo1 hi1)
      as (lo' & hi' & Hfold & Hlo & Hhi & Hall).
    exists lo', hi'. split; [exact Hfold|]. split; [lra|]. split; [lra|].
    intros f t' v Hf [<-|Ht'] Hv.
    + pose proof (Hall1 f v Hf Hv). lra.
    + exact (Hall f t' v Hf Ht' Hv).
Qed.

(** A colour channel [Math.floor(255 * Math.pow(Math.sin(y), e))] for an
    angle strictly between 0 and [PI]. *)
Lemma channel_valid (y e : R) :
  0 < y < PI -> 0 < e ->
  colour_channel (Math_floor (jmul (Fin 255) (Math_pow (Math_sin (Fin y)) e))).
Proof.
  intros [Hy0 Hy1] He.
  pose proof (sin_gt_0 y Hy0 Hy1) as Hs0.
  pose proof (SIN_bound y) as [_ Hs1].
  cbn [Math_sin]. unfold Math_pow.
  destruct (Rlt_dec 0 (sin y)) as [_|Hc]; [|contradiction].
  cbn [jmul Math_floor].
  assert (Hp0 : 0 < Rpower (sin y) e) by (unfold Rpower; apply exp_pos).
  assert (Hp1 : Rpower (sin y) e <= 1).
  { unfold Rpower. rewrite <- exp_0.
    assert (Hln : ln (sin y) <= 0).
    { rewrite <- ln_1. destruct (Req_dec (sin y) 1) as [->|Hne]; [lra|].
      left. apply ln_increasing; lra. }
    destruct (Req_dec (e * ln (sin y)) 0) as [->|Hne]; [lra|].
    left. apply exp_increasing. nra. }
  exists (Zfloor (255 * Rpower (sin y) e)). split; [reflexivity|].
  split.
  - apply Zfloor_lub. simpl. nra.
  - apply le_IZR. pose proof (Zfloor_bound (255 * Rpower (sin y) e)) as [Hb _]. lra.
Qed.

Lemma inferno_valid (x : R) :
  0 <= x <= 1 ->
  colour_channel (inferno (Fin x)).1.1 /\
  colour_channel (inferno (Fin x)).1.2 /\
  colour_channel (inferno (Fin x)).2.
Proof.
  intros Hx. pose proof PI2_3_2 as Hpi. pose proof PI_RGT_0 as Hpos.
  unfold inferno. cbn [fst snd jmul jadd].
  repeat split; apply channel_valid; try lra; split; nra.
Qed.

Lemma grid_length {A : Type} (g : nat -> nat -> A) (ts : list nat) (n : nat) :
  length (flat_map (fun t : nat => map (g t) (seq 0 n)) ts) = (length ts * n)%nat.
Proof.
  induction ts as [|t ts IH]; [reflexivity|].
  cbn [flat_map length]. rewrite length_app, length_map, length_seq, IH. lia.
Qed.

Lemma inferno_NaN : inferno NaN = (NaN, NaN, NaN).
Proof. reflexivity. Qed.

(** The extreme values the view scans and the colours it fills with. *)
Lemma spectrogram_colours (width height : num) (specData : list (list num))
    (T : nat) :
  (0 < length specData)%nat -> (0 < T)%nat ->
  Forall (fun row => length row = T /\ Forall is_finite row) specData ->
  exists lo hi : R,
    dbBounds specData (length specData) T = (Fin lo, Fin hi) /\
    lo <= 0 /\ - 100 <= hi /\ lo <= hi /\
    (forall (f t : nat) (v : R), cell specData f t = Some (Fin v) -> lo <= v <= hi) /\
    length (drawSpectrogram width height specData) = (T * length specData)%nat /\
    (lo < hi ->
     Forall (fun c => colour_channel (red c) /\ colour_channel (green c) /\
                      colour_channel (blue c))
            (drawSpectrogram width height specData)) /\
    (lo = hi ->
     Forall (fun c => red c = NaN /\ green c = NaN /\ blue c = NaN)
            (drawSpectrogram width height specData)).
Proof.
  intros HF HT Hrect. set (F := length specData) in *.
  assert (Hcell : forall f t : nat, (f < F)%nat -> (t < T)%nat ->
            exists v : R, cell specData f t = Some (Fin v)).
  { intros f t Hf Ht. unfold cell.
    destruct (lookup_lt_is_Some_2 specData f Hf) as [row Hrow]. rewrite Hrow.
    rewrite Forall_lookup in Hrect. destruct (Hrect _ _ Hrow) as [Hlen Hfin].
    destruct (lookup_lt_is_Some_2 row t ltac:(lia)) as [c Hc]. rewrite Hc.
    rewrite Forall_lookup in Hfin. destruct (Hfin _ _ Hc) as [v ->].
    exists v. reflexivity. }
  assert (Hdom : forall (f t : nat) (v : R),
            cell specData f t = Some (Fin v) -> (f < F)%nat /\ (t < T)%nat).
  { intros f t v Hv. unfold cell in Hv.
    destruct (specData !! f) as [row|] eqn:Hrow; [|discriminate].
    split; [apply lookup_lt_is_Some; eexists; exact Hrow|].
    rewrite Forall_lookup in Hrect. destruct (Hrect _ _ Hrow) as [Hlen _].
    rewrite <- Hlen. apply lookup_lt_is_Some. eexists; exact Hv. }
  assert (Hrow0 : length (default [] (specData !! 0%nat)) = T).
  { destruct (lookup_lt_is_Some_2 specData 0%nat HF) as [row Hrow]. rewrite Hrow.
    rewrite Forall_lookup in Hrect. exact (proj1 (Hrect _ _ Hrow)). }
  destruct (scan_matrix specData (seq 0 F) (seq 0 T)) with (lo := 0) (hi := - 100)
    as (lo & hi & Hscan & Hlo & Hhi & Hall).
  { intros f t Hf Ht. apply in_seq in Hf, Ht. apply Hcell; lia. }
  assert (Hbetween : forall (f t : nat) (v : R),
            cell specData f t = Some (Fin v) -> lo <= v <= hi).
  { intros f t v Hv. destruct (Hdom f t v Hv) as [Hf Ht].
    apply (Hall f t v); [apply in_seq; lia | apply in_seq; lia | exact Hv]. }
  assert (Hlohi : lo <= hi).
  { destruct (Hcell 0%nat 0%nat HF HT) as [v Hv].
    pose proof (Hbetween _ _ _ Hv). lra. }
  exists lo, hi. split; [exact Hscan|]. split; [exact Hlo|]. split; [exact Hhi|].
  split; [exact Hlohi|]. split; [exact Hbetween|].
  unfold drawSpectrogram. fold F. rewrite Hrow0.
  destruct (decide (F = 0%nat \/ T = 0%nat)) as [[Hc|Hc]|_]; [lia | lia |].
  unfold dbBounds in Hscan. unfold dbBounds. rewrite Hscan. cbn [fst snd].
  split.
  { rewrite grid_length, length_seq. reflexivity. }
  split.
  - intros Hlt. apply Forall_flat_map, Forall_forall. intros t Ht.
    apply Forall_map, Forall_forall. intros f Hf.
    apply elem_of_seq in Ht, Hf. cbn [red green blue].
    destruct (Hcell f t ltac:(lia) ltac:(lia)) as [v Hv]. rewrite Hv.
    pose proof (Hbetween _ _ _ Hv) as Hvb.
    change (default NaN (Some (Fin v))) with (Fin v).
    cbn [jsub jneg jadd jdiv].
    destruct (Req_dec_T (hi + - lo) 0) as [Hc|_]; [lra|].
    apply inferno_valid. split.
    + apply Rmult_le_pos; [lra|]. left. apply Rinv_0_lt_compat. lra.
    + apply (Rmult_le_reg_r (hi + - lo)); [lra|].
      unfold Rdiv. rewrite Rmult_assoc, Rinv_l by lra. lra.
  - intros Heq. apply Forall_flat_map, Forall_forall. intros t Ht.
    apply Forall_map, Forall_forall. intros f Hf.
    apply elem_of_seq in Ht, Hf. cbn [red green blue].
    destruct (Hcell f t ltac:(lia) ltac:(lia)) as [v Hv]. rewrite Hv.
    pose proof (Hbetween _ _ _ Hv) as Hvb.
    change (default NaN (Some (Fin v))) with (Fin v).
    cbn [jsub jneg jadd jdiv].
    destruct (Req_dec_T (hi + - lo) 0) as [_|Hc]; [|exfalso; lra].
    unfold signed_inf.
    destruct (Rlt_dec 0 (v + - lo)) as [Hc|_]; [exfalso; lra|].
    destruct (Rlt_dec (v + - lo) 0) as [Hc|_]; [exfalso; lra|].
    rewrite inferno_NaN. repeat split; reflexivity.
Qed.


End SpectrogramView.


(** * The visualizer: from the clip to the cells *)

Section VisualizerFacts.
Local Open Scope nat_scope.

(** The spectrogram view of a clip of finite samples.  A clip shorter
    than the window of 1024 samples draws nothing.  A longer clip of [L]
    samples fills [floor((L - 1024) / 256) + 1] columns of 512 cells; either
    every fill colour is made of whole numbers from 0 to 255 or every one of
    them is made of [NaN]s, and for a silent clip the colours are valid. *)
Theorem AudioVisualizer_spectrogram (width height : num) (audioBuffer : list num)
    (viewMode : ViewMode) :
  viewMode <> waveform -> Forall is_finite audioBuffer ->
  let L := length audioBuffer in
  let valid (c : fillCommand) :=
    colour_channel (red c) /\ colour_channel (green c) /\ colour_channel (blue c) in
  exists fills : list fillCommand,
    AudioVisualizer width height audioBuffer viewMode = Returns (Cells fills) /\
    (L < 1024 -> fills = []) /\
    (1024 <= L ->
     length fills = ((L - 1024) / 256 + 1) * 512 /\
     (Forall valid fills \/
      Forall (fun c => red c = NaN /\ green c = NaN /\ blue c = NaN) fills) /\
     (Forall (fun s => s = Fin 0) audioBuffer -> Forall valid fills)).
Proof.
  intros Hmode Hfin L valid.
  assert (Hview : AudioVisualizer width height audioBuffer viewMode
                  = (r ← computeSpectrogramData audioBuffer (2 ^ 10);
                     Returns (Cells (drawSpectrogram width height (sg_data r))))).
  { destruct viewMode; [reflexivity | contradiction | reflexivity]. }
  rewrite Hview.
  destruct (computeSpectrogramData_pow2 audioBuffer 10 ltac:(lia))
    as (r & Hr & _ & Hshort & Hlong).
  destruct (spectrogram_floor audioBuffer 10 ltac:(lia) Hfin)
    as (r' & Hr' & Hfloor & Hsilent).
  rewrite Hr in Hr'. injection Hr' as <-.
  rewrite Hr. cbn [mbind outcome_bind].
  change (2 ^ 10) with 1024 in Hshort, Hlong. fold L in Hshort, Hlong.
  eexists. split; [reflexivity|]. split.
  - intros Hlt. rewrite (Hshort Hlt). reflexivity.
  - intros Hle. destruct (Hlong Hle) as [Hrows Hcols].
    change (1024 / 2) with 512 in Hrows. change (1024 / 4) with 256 in Hcols.
    destruct (decide (1024 <= L)) as [_|Hc]; [|contradiction].
    set (T := (L - 1024) / 256 + 1) in *.
    destruct (spectrogram_colours width height (sg_data r) T)
      as (lo & hi & _ & _ & Hhi & Hlohi & Hbetween & Hlen & Hvalid & Hnan).
    { rewrite Hrows. lia. }
    { subst T. lia. }
    { rewrite Forall_forall in Hcols, Hfloor. apply Forall_forall. intros row Hrow.
      split; [exact (Hcols row Hrow)|].
      apply Forall_forall. intros c Hc.
      pose proof (Hfloor row Hrow) as Hall. rewrite Forall_forall in Hall.
      destruct (Hall c Hc) as (v & -> & _). exists v. reflexivity. }
    rewrite Hrows in Hlen. split; [exact Hlen|]. split.
    + destruct (Rle_lt_or_eq_dec lo hi Hlohi) as [Hlt|Heq];
        [left; exact (Hvalid Hlt) | right; exact (Hnan Heq)].
    + intros Hsil. apply Hvalid.
      assert (Hcell : exists v : R, cell (sg_data r) 0 0 = Some (Fin v) /\ v = (- 200)%R).
      { unfold cell.
        destruct (lookup_lt_is_Some_2 (sg_data r) 0 ltac:(lia)) as [row Hrow].
        rewrite Hrow.
        assert (Hin : row ∈ sg_data r) by (eapply list_elem_of_lookup_2; exact Hrow).
        rewrite Forall_forall in Hcols. pose proof (Hcols row Hin) as Hl.
        destruct (lookup_lt_is_Some_2 row 0 ltac:(subst T; lia)) as [c Hc].
        rewrite Hc. pose proof (Hsilent Hsil) as Hs.
        rewrite Forall_forall in Hs. pose proof (Hs row Hin) as Hsrow.
        rewrite Forall_lookup in Hsrow. rewrite (Hsrow _ _ Hc).
        eexists. split; reflexivity. }
      destruct Hcell as (v & Hv & Hv200). pose proof (Hbetween _ _ _ Hv). lra.
Qed.

Lemma AudioVisualizer_spectrogram_witness :
  exists fills : list fillCommand,
    AudioVisualizer (Fin 10) (Fin 10) [Fin 0; Fin 0] spectrogram
    = Returns (Cells fills) /\
    (length [Fin 0; Fin 0] < 1024 -> fills = []).
Proof.
  destruct (AudioVisualizer_spectrogram (Fin 10) (Fin 10) [Fin 0; Fin 0] spectrogram)
    as (fills & Hdraw & Hshort & _).
  - discriminate.
  - repeat constructor; exists 0%R; reflexivity.
  - exists fills. split; [exact Hdraw | exact Hshort].
Defined.

End VisualizerFacts.

(** * The saved file *)

Section SavedFile.
Local Open Scope Z_scope.

(** Saving.  Without a clip nothing is saved.  A clip of [n] samples, with
    [36 + 2 n] below [2^32], is saved as [44 + 2 n] bytes whose header
    announces 44100 samples per second and 88200 bytes per second whatever
    the settings, and [2 n] bytes of data: [n / 44100] seconds of sound. *)
Theorem handleSave_file (audioBuffer : list num) (fileName : option string) :
  36 + 2 * Z.of_nat (length audioBuffer) < 2 ^ 32 ->
  App.handleSave None fileName = None /\
  exists bytes : list Z,
    App.handleSave (Some audioBuffer) fileName
    = Some (Returns (App.downloadName fileName, bytes)) /\
    length bytes = (44 + 2 * length audioBuffer)%nat /\
    le_value (field bytes 24 4) = 44100 /\
    le_value (field bytes 28 4) = 88200 /\
    le_value (field bytes 40 4) = 2 * Z.of_nat (length audioBuffer) /\
    (IZR (le_value (field bytes 40 4)) / IZR (le_value (field bytes 28 4))
     = INR (length audioBuffer) / 44100)%R.
Proof.
  intros Hsize. split; [reflexivity|].
  exists (wavHeader (length audioBuffer) App.sampleRate
          ++ concat (map pcmBytes audioBuffer)).
  pose proof (wavHeader_fields (length audioBuffer) App.sampleRate
                (concat (map pcmBytes audioBuffer))) as Hf.
  cbv zeta in Hf.
  destruct Hf as (_ & _ & _ & _ & _ & _ & _ & F24 & F28 & _ & _ & _ & F40 & _).
  assert (Hrate : ToUint 32 App.sampleRate = 44100).
  { unfold App.sampleRate. change (Fin 44100) with (of_Z 44100).
    rewrite ToUint_of_Z. reflexivity. }
  assert (Hbyte : ToUint 32 (jmul App.sampleRate (Fin 2)) = 88200).
  { unfold App.sampleRate. cbn [jmul].
    replace (Fin (44100 * 2)) with (of_Z 88200)
      by (unfold of_Z; f_equal; lra).
    rewrite ToUint_of_Z. reflexivity. }
  assert (Hdata : le_value (field (wavHeader (length audioBuffer) App.sampleRate
                                   ++ concat (map pcmBytes audioBuffer)) 40 4)
                  = 2 * Z.of_nat (length audioBuffer)).
  { rewrite F40, le_value_uint32, dataSize_value. apply Z.mod_small. lia. }
  split.
  { unfold App.handleSave. rewrite encodeWAV_bytes. reflexivity. }
  split; [rewrite length_app, length_wavHeader, length_pcm_body; reflexivity|].
  split; [rewrite F24, le_value_uint32; exact Hrate|].
  split; [rewrite F28, le_value_uint32; exact Hbyte|].
  split; [exact Hdata|].
  rewrite Hdata, F28, le_value_uint32, Hbyte.
  rewrite mult_IZR, <- INR_IZR_INZ. field.
Qed.

Lemma handleSave_file_witness :
  exists bytes : list Z,
    App.handleSave (Some [Fin 1; Fin (- 1)]) (Some "photo.png"%string)
    = Some (Returns (App.downloadName (Some "photo.png"%string), bytes)) /\
    length bytes = (44 + 2 * length [Fin 1; Fin (- 1)])%nat.
Proof.
  destruct (handleSave_file [Fin 1; Fin (- 1)] (Some "photo.png"%string))
    as (_ & bytes & Hsave & Hlen & _).
  - simpl. lia.
  - exists bytes. split; [exact Hsave | exact Hlen].
Defined.

End SavedFile.
